(** * MatrixLib: the dense matrix class of [matrix.h]

    A shallow embedding of [matrix::matrix<T>] and the properties of its
    public interface.

    Modelling choices.
    - A value of type [size_t] is a [nat]; the arithmetic the source does on
      such values ([rows * columns], [row * m_columns + column],
      [m_rows - 1], [index++]) is done modulo [2 ^ size_bits], the width
      being a parameter of the [Platform].  Loop counters are compared with
      their bound before they are incremented and do not wrap.
    - [std::vector<T>] is a [list T].  [m_data.resize(n)] provides at most
      [vector_limit] elements and throws beyond; an object of the program
      therefore holds at most [vector_limit] elements, which [wf] records
      next to the class invariant of the specification.
    - The library is modelled as compiled by default, with the checks under
      [#ifndef MATRIX_NOTHROW] present.
    - A method body runs in a frame of named objects ([this], [operand], the
      local [result], ...) inside a state-and-error monad: an exception is
      [Throw] (or [AllocError]) and leaves the objects as they were when it
      was thrown, indexing a [std::vector] outside its size is [Undefined].
      Local scalars are threaded through the loops as accumulators. *)

From Stdlib Require Import ZArith NArith.
From stdpp Require Import base tactics option numbers list.

(** ** The platform *)

(** What the program takes from the implementation it is compiled for: the
    width of [size_t] and the largest number of elements that
    [std::vector<T>::resize] provides.  Beyond that number [resize] throws
    ([std::length_error] above [max_size()], [std::bad_alloc] when the
    memory is not there).  The size of a vector is a [size_t]. *)
Class Platform : Type := {
  size_bits : N;
  vector_limit : N;
  vector_limit_size : (vector_limit < 2 ^ size_bits)%N
}.

(** A 64-bit platform, with the [max_size()] of a vector of 4-byte elements,
    and a 32-bit one. *)
#[export] Instance lp64 : Platform := {|
  size_bits := 64;
  vector_limit := 2 ^ 61 - 1;
  vector_limit_size := eq_refl
|}.

Definition ilp32 : Platform := {|
  size_bits := 32;
  vector_limit := 2 ^ 29 - 1;
  vector_limit_size := eq_refl
|}.

(** *** Arithmetic on [size_t] *)

Section Size.
Context {platform : Platform}.

(** The [size_t] that an expression of mathematical value [n] evaluates to. *)
Definition size_wrap (n : N) : nat := N.to_nat (n mod 2 ^ size_bits)%N.

(** [x * y], [x + y] and [x - y] on [size_t] *)
Definition size_mul (x y : nat) : nat := size_wrap (N.of_nat x * N.of_nat y).
Definition size_add (x y : nat) : nat := size_wrap (N.of_nat x + N.of_nat y).
Definition size_sub (x y : nat) : nat :=
  size_wrap (N.of_nat x + (2 ^ size_bits - N.of_nat y mod 2 ^ size_bits))%N.

(** A vector of [n] elements exists on the platform. *)
Definition fits (n : nat) : Prop := (N.of_nat n ≤ vector_limit)%N.

End Size.

(** ** Errors and outcomes *)

(** [enum __error_code] *)
Inductive error_code : Set :=
  | ERR_ROW_RANGE
  | ERR_COL_RANGE
  | ERR_INVALID_SIZE
  | ERR_INCOMPATIBLE
  | ERR_NOT_SQUARE.

(** What running a piece of code gives: a value, a [std::runtime_error]
    carrying one of the messages, the exception of a [resize] that the
    platform does not provide, undefined behaviour (a vector indexed out of
    range), or, for the recursion of [determinant] only, the exhaustion of
    the recursion budget of the model. *)
Inductive outcome (A : Type) : Type :=
  | Ok (x : A)
  | Throw (e : error_code)
  | AllocError
  | Undefined
  | OutOfFuel.
Arguments Ok {A} x.
Arguments Throw {A} e.
Arguments AllocError {A}.
Arguments Undefined {A}.
Arguments OutOfFuel {A}.

(** ** The element type *)

(** What the template parameter [T] has to provide: [T()], binary [+], [-],
    [*] and unary [-]. *)
Class Element (T : Type) : Type := {
  T_default : T;
  T_add : T → T → T;
  T_sub : T → T → T;
  T_mul : T → T → T;
  T_neg : T → T
}.

#[export] Instance Z_Element : Element Z := {|
  T_default := 0%Z;
  T_add := Z.add;
  T_sub := Z.sub;
  T_mul := Z.mul;
  T_neg := Z.opp
|}.

(** ** The data model *)

Record matrix (T : Type) : Type := Matrix {
  m_rows : nat;
  m_columns : nat;
  m_data : list T
}.
Arguments Matrix {T} m_rows m_columns m_data.
Arguments m_rows {T} m.
Arguments m_columns {T} m.
Arguments m_data {T} m.

(** The objects a method body names. *)
Inductive object : Set := This | Operand | Result | SubMatrix.

#[export] Instance object_eq_dec : EqDecision object.
Proof. solve_decision. Defined.

Section Matrix.
Context {platform : Platform} {T : Type} `{Element T}.

(** The objects of the program.  The first three conditions are the class
    invariant of the specification; the last one holds of every
    [std::vector] of the platform, whose [size()] is a [size_t] that
    [resize] was able to provide. *)
Definition wf (m : matrix T) : Prop :=
  1 ≤ m_rows m ∧ 1 ≤ m_columns m ∧ length (m_data m) = m_rows m * m_columns m ∧
  fits (length (m_data m)).

(** *** Frames and the monad of method bodies *)

Definition frame : Type := object → option (matrix T).

Definition no_objects : frame := λ _, None.

Definition bind_object (o : object) (m : matrix T) (s : frame) : frame :=
  λ o', if decide (o = o') then Some m else s o'.

(** A piece of code takes the frame it starts in to the frame it stops in
    and what it gives there: an exception does not undo what was written
    before it was thrown. *)
Definition M (A : Type) : Type := frame → frame * outcome A.

#[export] Instance M_ret : MRet M := λ A x s, (s, Ok x).

#[export] Instance M_bind : MBind M := λ A B f c s,
  match c s with
  | (s', Ok x) => f x s'
  | (s', Throw e) => (s', Throw e)
  | (s', AllocError) => (s', AllocError)
  | (s', Undefined) => (s', Undefined)
  | (s', OutOfFuel) => (s', OutOfFuel)
  end.

(** What a value-level computation gives, in the frame [s]. *)
Definition lift {A} (r : outcome A) : M A := λ s, (s, r).

(** [throw std::runtime_error(__error_messages[e])] *)
Definition throw {A} (e : error_code) : M A := lift (Throw e).

Definition out_of_fuel {A} : M A := lift OutOfFuel.

(** The object [o] of the frame, by value (a method body only names
    objects that its frame holds). *)
Definition object_of (o : object) : M (matrix T) := λ s,
  match s o with
  | Some m => (s, Ok m)
  | None => (s, Undefined)
  end.

Definition assign_object (o : object) (m : matrix T) : M unit := λ s,
  (bind_object o m s, Ok ()).

(** [for (size_t i = start; i < start + count; i++) acc = body(i, acc);] *)
Fixpoint for_from {A} (start count : nat) (body : nat → A → M A) (acc : A) : M A :=
  match count with
  | 0 => mret acc
  | S count' => acc' ← body start acc; for_from (S start) count' body acc'
  end.

(** [for (size_t i = 0; i < n; i++)] with the locals it updates in [acc]. *)
Definition for_range {A} (n : nat) (body : nat → A → M A) (acc : A) : M A :=
  for_from 0 n body acc.

(** The same loop when it updates objects of the frame only. *)
Definition for_each (n : nat) (body : nat → M unit) : M unit :=
  for_range n (λ i _, body i) ().

(** *** The constructor *)

(** [m_data.data()[index] = fill] for [index] in [[0, count)]. *)
Fixpoint fill_from (start count : nat) (fill : T) (data : list T) : list T :=
  match count with
  | 0 => data
  | S count' => fill_from (S start) count' fill (<[start:=fill]> data)
  end.

(** [matrix(size_t rows, size_t columns, T fill = T())], as a value.  The
    number of elements is the [size_t] product [rows * columns], for the
    [resize] and for the loop that fills. *)
Definition new_matrix (rows columns : nat) (fill : T) : outcome (matrix T) :=
  if (rows <? 1) || (columns <? 1) then Throw ERR_INVALID_SIZE
  else
    let count := size_mul rows columns in
    if (vector_limit <? N.of_nat count)%N then AllocError
    else
      let resized := replicate count T_default in
      Ok (Matrix rows columns (fill_from 0 count fill resized)).

(** [matrix<T> o(rows, columns, fill);] *)
Definition construct (o : object) (rows columns : nat) (fill : T) : M unit :=
  m ← lift (new_matrix rows columns fill); assign_object o m.

(** *** Element access: [T& operator()(size_t row, size_t column)] *)

(** The checks of [operator()] and the offset it indexes [m_data] with. *)
Definition element_offset (m : matrix T) (row column : nat) : outcome nat :=
  if (row <? 0) || (m_rows m <=? row) then Throw ERR_ROW_RANGE
  else if (column <? 0) || (m_columns m <=? column) then Throw ERR_COL_RANGE
  else Ok (size_add (size_mul row (m_columns m)) column).

(** Reading through the reference [m(row, column)]. *)
Definition get_element (m : matrix T) (row column : nat) : outcome T :=
  match element_offset m row column with
  | Ok i => match m_data m !! i with
            | Some x => Ok x
            | None => Undefined
            end
  | Throw e => Throw e
  | AllocError => AllocError
  | Undefined => Undefined
  | OutOfFuel => OutOfFuel
  end.

(** Writing through the reference: [m(row, column) = x]. *)
Definition set_element (m : matrix T) (row column : nat) (x : T) : outcome (matrix T) :=
  match element_offset m row column with
  | Ok i => if decide (i < length (m_data m))
            then Ok (Matrix (m_rows m) (m_columns m) (<[i:=x]> (m_data m)))
            else Undefined
  | Throw e => Throw e
  | AllocError => AllocError
  | Undefined => Undefined
  | OutOfFuel => OutOfFuel
  end.

(** [o.m_data[index] = x], with no check. *)
Definition set_data (m : matrix T) (index : nat) (x : T) : outcome (matrix T) :=
  if decide (index < length (m_data m))
  then Ok (Matrix (m_rows m) (m_columns m) (<[index:=x]> (m_data m)))
  else Undefined.

(** [o(row, column)] as an rvalue *)
Definition load (o : object) (row column : nat) : M T :=
  m ← object_of o; lift (get_element m row column).

(** [o(row, column) = x] *)
Definition store (o : object) (row column : nat) (x : T) : M unit :=
  m ← object_of o; m' ← lift (set_element m row column x); assign_object o m'.

(** [o.m_data[index] = x] *)
Definition store_data (o : object) (index : nat) (x : T) : M unit :=
  m ← object_of o; m' ← lift (set_data m index x); assign_object o m'.

(** [o.m_rows] and [o.m_columns] *)
Definition rows_of (o : object) : M nat := m ← object_of o; mret (m_rows m).
Definition columns_of (o : object) : M nat := m ← object_of o; mret (m_columns m).

(** *** Method calls *)

(** The frame a method starts in: [this] alone, or [this] and [operand]. *)
Definition frame1 (a : matrix T) : frame := bind_object This a no_objects.
Definition frame2 (a b : matrix T) : frame := bind_object Operand b (frame1 a).

(** [a.f(...)] seen from the caller: the value returned together with [a] as
    the call left it. *)
Definition invoke {A} (body : M A) (a : matrix T) : outcome (A * matrix T) :=
  match body (frame1 a) with
  | (s', Ok x) => match s' This with
                  | Some a' => Ok (x, a')
                  | None => Undefined
                  end
  | (_, Throw e) => Throw e
  | (_, AllocError) => AllocError
  | (_, Undefined) => Undefined
  | (_, OutOfFuel) => OutOfFuel
  end.

(** [a.f(b)]: the value returned, then [a] and [b] as the call left them.
    [operator+] and [operator-] take [b] by reference, the matrix product
    takes a copy; none of them writes through it, so one frame serves both
    (and [a.f(a)], where the two names alias, reads the same values). *)
Definition invoke2 {A} (body : M A) (a b : matrix T) : outcome (A * matrix T * matrix T) :=
  match body (frame2 a b) with
  | (s', Ok x) => match s' This, s' Operand with
                  | Some a', Some b' => Ok (x, a', b')
                  | _, _ => Undefined
                  end
  | (_, Throw e) => Throw e
  | (_, AllocError) => AllocError
  | (_, Undefined) => Undefined
  | (_, OutOfFuel) => OutOfFuel
  end.

(** [a] as the caller finds it after [a.f(...)] has thrown; [None] when the
    call did not throw. *)
Definition left_by_throw {A} (body : M A) (a : matrix T) : option (matrix T) :=
  match body (frame1 a) with
  | (s', Throw _) | (s', AllocError) => s' This
  | _ => None
  end.

(** The same for [a.f(b)]: [a] and [b] after the call has thrown. *)
Definition left_by_throw2 {A} (body : M A) (a b : matrix T)
    : option (matrix T * matrix T) :=
  match body (frame2 a b) with
  | (s', Throw _) | (s', AllocError) =>
      match s' This, s' Operand with
      | Some a', Some b' => Some (a', b')
      | _, _ => None
      end
  | _ => None
  end.

(** A call [o.f(...)] made inside a method body: the callee runs in a frame
    of its own with [o] as [this], and [o] is what the callee made of it,
    also when the callee throws. *)
Definition call {A} (o : object) (body : M A) : M A := λ s,
  match s o with
  | Some m => match body (frame1 m) with
              | (s', r) => match s' This with
                           | Some m' => (bind_object o m' s, r)
                           | None => (s, Undefined)
                           end
              end
  | None => (s, Undefined)
  end.

(** *** The methods of [matrix<T>]

    The loop bounds [m_rows] and [m_columns] are read once: no method body
    changes the shape of an object. *)

(** [size_t rows()] and [size_t columns()] *)
Definition rows : M nat := rows_of This.
Definition columns : M nat := columns_of This.

(** [matrix<T> row_vector(size_t row)] *)
Definition row_vector (row : nat) : M (matrix T) :=
  m_rows ← rows_of This; m_columns ← columns_of This;
  if (row <? 0) || (m_rows <=? row) then throw ERR_ROW_RANGE
  else
    construct Result 1 m_columns T_default;;
    for_each m_columns (λ column,
      x ← load This row column; store Result 0 column x);;
    object_of Result.

(** [matrix<T> column_vector(size_t column)] *)
Definition column_vector (column : nat) : M (matrix T) :=
  m_rows ← rows_of This; m_columns ← columns_of This;
  if (column <? 0) || (m_columns <=? column) then throw ERR_COL_RANGE
  else
    construct Result m_columns 1 T_default;;
    for_each m_rows (λ row,
      x ← load This row column; store Result row 0 x);;
    object_of Result.

(** [matrix<T>& transform(L&& lambda)]: the visitor receives the element by
    reference; [lambda row column x] is the value it leaves there.  The
    method returns [*this]. *)
Definition transform (lambda : nat → nat → T → T) : M unit :=
  m_rows ← rows_of This; m_columns ← columns_of This;
  for_each m_rows (λ row,
    for_each m_columns (λ column,
      x ← load This row column; store This row column (lambda row column x))).

(** [T& operator()(size_t row, size_t column)], read and written. *)
Definition operator_call (row column : nat) : M T := load This row column.
Definition operator_call_assign (row column : nat) (x : T) : M unit :=
  store This row column x.

(** [matrix<T>& operator=(std::initializer_list<T> operand)] *)
Definition operator_assign (operand : list T) : M unit :=
  this ← object_of This;
  if negb (size_mul (m_rows this) (m_columns this) =? length operand)
  then throw ERR_INCOMPATIBLE
  else assign_object This (Matrix (m_rows this) (m_columns this) operand).

(** [matrix<T> operator+(matrix<T>& operand)] *)
Definition operator_plus : M (matrix T) :=
  m_rows ← rows_of This; m_columns ← columns_of This;
  operand_rows ← rows_of Operand; operand_columns ← columns_of Operand;
  if negb (m_rows =? operand_rows) || negb (m_columns =? operand_columns)
  then throw ERR_INCOMPATIBLE
  else
    construct Result m_rows m_columns T_default;;
    for_each m_rows (λ row,
      for_each m_columns (λ column,
        x ← load This row column; y ← load Operand row column;
        store Result row column (T_add x y)));;
    object_of Result.

(** [matrix<T> operator-(matrix<T>& operand)] *)
Definition operator_minus : M (matrix T) :=
  m_rows ← rows_of This; m_columns ← columns_of This;
  operand_rows ← rows_of Operand; operand_columns ← columns_of Operand;
  if negb (m_rows =? operand_rows) || negb (m_columns =? operand_columns)
  then throw ERR_INCOMPATIBLE
  else
    construct Result m_rows m_columns T_default;;
    for_each m_rows (λ row,
      for_each m_columns (λ column,
        x ← load This row column; y ← load Operand row column;
        store Result row column (T_sub x y)));;
    object_of Result.

(** [matrix<T> operator-()]: the right-hand side reads [result], not [*this]. *)
Definition operator_neg : M (matrix T) :=
  m_rows ← rows_of This; m_columns ← columns_of This;
  construct Result m_rows m_columns T_default;;
  for_each m_rows (λ row,
    for_each m_columns (λ column,
      x ← load Result row column; store Result row column (T_neg x)));;
  object_of Result.

(** [matrix<T> operator*(T operand)] *)
Definition operator_mul_scalar (operand : T) : M (matrix T) :=
  m_rows ← rows_of This; m_columns ← columns_of This;
  construct Result m_rows m_columns T_default;;
  for_each m_rows (λ row,
    for_each m_columns (λ column,
      x ← load Result row column; store Result row column (T_add x operand)));;
  object_of Result.

(** [matrix<T> operator*(matrix<T> operand)] *)
Definition operator_mul : M (matrix T) :=
  m_rows ← rows_of This; m_columns ← columns_of This;
  operand_rows ← rows_of Operand; operand_columns ← columns_of Operand;
  if negb (m_columns =? operand_rows) then throw ERR_INCOMPATIBLE
  else
    construct Result m_rows operand_columns T_default;;
    for_each m_rows (λ row,
      for_each operand_columns (λ column,
        for_each m_columns (λ element,
          acc ← load Result row column;
          x ← load This row element; y ← load Operand element column;
          store Result row column (T_add acc (T_mul x y)))));;
    object_of Result.

(** [matrix<T> transpose()] *)
Definition transpose : M (matrix T) :=
  m_rows ← rows_of This; m_columns ← columns_of This;
  construct Result m_columns m_rows T_default;;
  for_each m_rows (λ row,
    for_each m_columns (λ column,
      x ← load This row column; store Result column row x));;
  object_of Result.

(** [matrix<T> minor(size_t at_row, size_t at_column)]; the local [index]
    is the accumulator of the two loops. *)
Definition minor (at_row at_column : nat) : M (matrix T) :=
  m_rows ← rows_of This; m_columns ← columns_of This;
  construct Result (size_sub m_rows 1) (size_sub m_columns 1) T_default;;
  for_range m_rows (λ row index,
    for_range m_columns (λ column index,
      if row =? at_row then mret index
      else if column =? at_column then mret index
      else
        x ← load This row column;
        store_data Result index x;;
        mret (size_add index 1)) index) 0;;
  object_of Result.

(** [T determinant()].  The recursion is on the matrix returned by [minor];
    [fuel] bounds its depth.  The two operands of the product that gives
    [sub_result] only read, so the order in which they are evaluated does
    not show. *)
Fixpoint determinant_rec (fuel : nat) : M T :=
  match fuel with
  | 0 => out_of_fuel
  | S fuel' =>
    m_rows ← rows_of This; m_columns ← columns_of This;
    if negb (m_rows =? m_columns) then throw ERR_NOT_SQUARE
    else
      let result := T_default in
      if m_rows =? 1 then load This 0 0
      else if m_rows =? 2 then
        x00 ← load This 0 0; x11 ← load This 1 1;
        x10 ← load This 1 0; x01 ← load This 0 1;
        mret (T_sub (T_mul x00 x11) (T_mul x10 x01))
      else
        for_range m_rows (λ row result,
          sub_matrix ← call This (minor row 0);
          assign_object SubMatrix sub_matrix;;
          x ← load This row 0;
          d ← call SubMatrix (determinant_rec fuel');
          let sub_result := T_mul x d in
          if row mod 2 =? 0 then mret (T_add result sub_result)
          else mret (T_sub result sub_result)) result
  end.

(** Each level of the recursion removes one row, so [S m_rows] levels are
    more than any matrix needs (see [determinant_rec_fuel]). *)
Definition determinant : M T :=
  m_rows ← rows_of This; determinant_rec (S m_rows).

(** ** Weakest preconditions *)

(** [wp c Q s]: from the frame [s], [c] returns a value and a frame that
    satisfy [Q] (it neither throws nor runs into undefined behaviour). *)
Definition wp {A} (c : M A) (Q : A → frame → Prop) (s : frame) : Prop :=
  match c s with
  | (s', Ok x) => Q x s'
  | _ => False
  end.

(** [wpt c e Q s]: from the frame [s], [c] throws the exception [e], and
    leaves a frame that satisfies [Q]. *)
Definition wpt {A} (c : M A) (e : error_code) (Q : frame → Prop) (s : frame) : Prop :=
  match c s with
  | (s', Throw e') => e' = e ∧ Q s'
  | _ => False
  end.

(** ** Vocabulary of the statements *)

(** The element stored for [(row, column)], in row-major order ([T()] where
    the storage has none). *)
Definition elem (m : matrix T) (row column : nat) : T :=
  default T_default (m_data m !! (row * m_columns m + column)).

(** [m] has [R] rows, [C] columns, storage for its [R * C] elements, which
    is a vector of the platform, and the element [g row column] at every
    [(row, column)]. *)
Definition has_elements (m : matrix T) (R C : nat) (g : nat → nat → T) : Prop :=
  m_rows m = R ∧ m_columns m = C ∧ length (m_data m) = R * C ∧ fits (R * C) ∧
  ∀ r c, r < R → c < C → m_data m !! (r * C + c) = Some (g r c).

(** The cell [(r, c)] comes before [(row, column)] in row-major order. *)
Definition before (row column r c : nat) : Prop := r < row ∨ (r = row ∧ c < column).

#[export] Instance before_dec row column r c : Decision (before row column r c).
Proof. unfold before. apply _. Defined.

(** The elements of a result under construction: [f] on the cells visited
    before [(row, column)], [T()] on the others. *)
Definition partial (f : nat → nat → T) (row column : nat) : nat → nat → T :=
  λ r c, if decide (before row column r c) then f r c else T_default.

(** The sum over [k] in [[0, n)] of [a(row, k) * b(k, column)], accumulated
    in increasing [k] order from [T()]. *)
Definition dot_product (a b : matrix T) (row column n : nat) : T :=
  fold_left (λ acc k, T_add acc (T_mul (elem a row k) (elem b k column)))
            (seq 0 n) T_default.

(** The index in [a] of the [r]-th row (or column) that [minor] keeps when
    it leaves out the one at [i]. *)
Definition skip (i r : nat) : nat := if decide (r < i) then r else S r.

(** How many of the indices below [n] are kept when [i] is left out. *)
Definition skipped (i n : nat) : nat := if decide (i < n) then n - 1 else n.

(** The cofactor expansion: the terms [term row] for [row] in [[0, n)],
    taken in increasing order from [T()], added when [row] is even and
    subtracted when it is odd. *)
Definition alternating_sum (term : nat → T) (n : nat) : T :=
  fold_left (λ total row, if Nat.even row then T_add total (term row)
                          else T_sub total (term row))
            (seq 0 n) T_default.

(** What a call returned, and [d] when it did not return. *)
Definition returned {A} (d : A) (r : outcome (A * matrix T)) : A :=
  match r with
  | Ok (x, _) => x
  | _ => d
  end.

(** The elements of [a] that lie neither in row [at_row] nor in column
    [at_column], in the order of the storage of [a]: position [k] of the
    storage holds the element of row [k / m_columns] and column
    [k mod m_columns]. *)
Definition kept_elements (a : matrix T) (at_row at_column : nat) : list T :=
  (λ k, default T_default (m_data a !! k))
    <$> filter (λ k, k `div` m_columns a ≠ at_row ∧ k `mod` m_columns a ≠ at_column)
               (seq 0 (length (m_data a))).

(** ** The visitor of [transform] with a state of its own *)

(** [transform] called with a visitor that captures variables: the pair
    [lambda row column x state] is the element the visitor leaves in the
    cell it was given by reference and its captured state after the call.
    The method returns [*this]; the state the visitor ends in is the value
    here. *)
Definition transform_visiting {S} (lambda : nat → nat → T → S → T * S) (state : S)
    : M S :=
  m_rows ← rows_of This; m_columns ← columns_of This;
  for_range m_rows (λ row state,
    for_range m_columns (λ column state,
      x ← load This row column;
      store This row column (lambda row column x state).1;;
      mret (lambda row column x state).2) state) state.

(** The storage of [a] and the state of the visitor after it was called on
    the positions [0, ..., n - 1] of the storage in this order, position
    [k] being the cell of row [k / columns] and column [k mod columns]. *)
Definition visit_cells {S} (lambda : nat → nat → T → S → T * S)
    (a : matrix T) (state : S) (n : nat) : list T * S :=
  fold_left
    (λ acc k,
       let y := lambda (k `div` m_columns a) (k `mod` m_columns a)
                       (default T_default (m_data a !! k)) acc.2 in
       (<[k:=y.1]> acc.1, y.2))
    (seq 0 n) (m_data a, state).

(** [wpu c Q s]: from the frame [s], [c] either returns a value and a frame
    that satisfy [Q] or runs into undefined behaviour; it does not throw. *)
Definition wpu {A} (c : M A) (Q : A → frame → Prop) (s : frame) : Prop :=
  match c s with
  | (s', Ok x) => Q x s'
  | (_, Undefined) => True
  | _ => False
  end.

(** [wnt c Q s]: from the frame [s], [c] throws none of the errors of the
    library: it returns a value and a frame that satisfy [Q], or [resize]
    fails, or the behaviour is undefined. *)
Definition wnt {A} (c : M A) (Q : A → frame → Prop) (s : frame) : Prop :=
  match c s with
  | (s', Ok x) => Q x s'
  | (_, Throw _) => False
  | _ => True
  end.

(** ** The calls that are defined *)

(** The call [a.f(...)] either returns a value that satisfies [φ], leaving
    a matrix that satisfies the class invariant, or throws one of the
    errors of the library, leaving [a] as it was. *)
Definition returns_or_throws {A} (body : M A) (a : matrix T) (φ : A → Prop) : Prop :=
  (∃ x a', invoke body a = Ok (x, a') ∧ φ x ∧ wf a') ∨
  (∃ e, invoke body a = Throw e ∧ left_by_throw body a = Some a).

(** The same for [a.f(b)], which leaves both operands as they were. *)
Definition returns_or_throws2 {A} (body : M A) (a b : matrix T) (φ : A → Prop) : Prop :=
  (∃ x, invoke2 body a b = Ok (x, a, b) ∧ φ x) ∨
  (∃ e, invoke2 body a b = Throw e ∧ left_by_throw2 body a b = Some (a, b)).

End Matrix.

(** ** Matrices of integers used in the examples *)

(** [[1, 2], [3, 4]] *)
Definition example_2x2 : matrix Z := Matrix 2 2 [1; 2; 3; 4]%Z.

(** [[1, 0, 2], [-1, 5, 0], [0, 3, 1]] *)
Definition example_3x3 : matrix Z := Matrix 3 3 [1; 0; 2; -1; 5; 0; 0; 3; 1]%Z.

(** [[1], [2]], with more rows than columns *)
Definition example_2x1 : matrix Z := Matrix 2 1 [1; 2]%Z.

(** [[1, 2, 3], [4, 5, 6]], with more columns than rows *)
Definition example_2x3 : matrix Z := Matrix 2 3 [1; 2; 3; 4; 5; 6]%Z.

(** [[1, 2], [3, 4], [5, 6]] *)
Definition example_3x2 : matrix Z := Matrix 3 2 [1; 2; 3; 4; 5; 6]%Z.

(** A column and a row of 65536 zeros *)
Definition example_65536x1 : matrix Z := Matrix (2 ^ 16) 1 (replicate (2 ^ 16) 0%Z).
Definition example_1x65536 : matrix Z := Matrix 1 (2 ^ 16) (replicate (2 ^ 16) 0%Z).

(** ** Laws of the element type *)

(** The sum of [f 0], ..., [f (n - 1)], accumulated in this order from
    [T()] as the loops of the library do. *)
Definition sum_to {T} `{Element T} (f : nat → T) (n : nat) : T :=
  fold_left (λ acc k, T_add acc (f k)) (seq 0 n) T_default.

(** The laws of a semiring, which the library does not ask of [T] and some
    of its properties depend on: [T()] is the zero of [+] and absorbs [*]. *)
Class ElementLaws (T : Type) `{Element T} : Prop := {
  T_add_assoc : ∀ x y z : T, T_add x (T_add y z) = T_add (T_add x y) z;
  T_add_comm : ∀ x y : T, T_add x y = T_add y x;
  T_add_default_r : ∀ x : T, T_add x T_default = x;
  T_mul_assoc : ∀ x y z : T, T_mul x (T_mul y z) = T_mul (T_mul x y) z;
  T_mul_add_distr_l : ∀ x y z : T, T_mul x (T_add y z) = T_add (T_mul x y) (T_mul x z);
  T_mul_add_distr_r : ∀ x y z : T, T_mul (T_add x y) z = T_add (T_mul x z) (T_mul y z);
  T_mul_default_l : ∀ x : T, T_mul T_default x = T_default;
  T_mul_default_r : ∀ x : T, T_mul x T_default = T_default
}.

(** * Properties *)

Section Properties.
Context {platform : Platform} {T : Type} `{Element T}.

#[local] Abbreviation M := (@M T).
#[local] Abbreviation frame := (@frame T).
#[local] Abbreviation wp := (@wp T _).
#[local] Abbreviation wpt := (@wpt T _).

Implicit Types (a b m : matrix T) (fill : T) (s : frame).

(** ** Arithmetic on [size_t] within the range of a vector *)

Lemma size_wrap_small (n : N) : (n < 2 ^ size_bits)%N → size_wrap n = N.to_nat n.
Proof. intros Hn. unfold size_wrap. by rewrite N.mod_small. Qed.

Lemma fits_size (n : nat) : fits n → (N.of_nat n < 2 ^ size_bits)%N.
Proof. unfold fits. pose proof vector_limit_size. lia. Qed.

Lemma fits_le (n n' : nat) : n ≤ n' → fits n' → fits n.
Proof. unfold fits. lia. Qed.

Lemma size_mul_fits (x y : nat) : fits (x * y) → size_mul x y = x * y.
Proof.
  intros Hxy%fits_size. unfold size_mul.
  rewrite size_wrap_small by lia. lia.
Qed.

Lemma size_add_fits (x y : nat) : fits (x + y) → size_add x y = x + y.
Proof.
  intros Hxy%fits_size. unfold size_add.
  rewrite size_wrap_small by lia. lia.
Qed.

Lemma size_sub_fits (x y : nat) : y ≤ x → fits x → size_sub x y = x - y.
Proof.
  intros Hyx Hx%fits_size. unfold size_sub, size_wrap.
  rewrite (N.mod_small (N.of_nat y)) by lia.
  replace (N.of_nat x + (2 ^ size_bits - N.of_nat y))%N
    with (N.of_nat (x - y) + 1 * 2 ^ size_bits)%N by lia.
  rewrite N.Div0.mod_add, N.mod_small by lia. lia.
Qed.

(** ** Reasoning about method bodies *)

Lemma wp_ok {A} (c : M A) Q s : wp c Q s ↔ ∃ x s', c s = (s', Ok x) ∧ Q x s'.
Proof.
  unfold wp. split.
  - destruct (c s) as [s' [x| | | |]]; try tauto. eauto.
  - intros (x & s' & -> & HQ). done.
Qed.

Lemma wp_ret {A} (x : A) Q s : Q x s → wp (mret x) Q s.
Proof. done. Qed.

Lemma wp_bind {A B} (c : M A) (f : A → M B) Q s :
  wp c (λ x s', wp (f x) Q s') s → wp (c ≫= f) Q s.
Proof.
  unfold wp, mbind, M_bind. by destruct (c s) as [s' [x| | | |]].
Qed.

Lemma wp_mono {A} (c : M A) (Q Q' : A → frame → Prop) s :
  wp c Q s → (∀ x s', Q x s' → Q' x s') → wp c Q' s.
Proof. unfold wp. destruct (c s) as [s' [x| | | |]]; auto. Qed.

Lemma wpt_throw {A} e (Q : frame → Prop) s : Q s → wpt (throw e : M A) e Q s.
Proof. done. Qed.

Lemma wpt_lift {A} (r : outcome A) e (Q : frame → Prop) s :
  r = Throw e → Q s → wpt (lift r) e Q s.
Proof. by intros ->. Qed.

(** An exception thrown by the second of two pieces of code, or by the
    first. *)
Lemma wpt_bind {A B} (c : M A) (f : A → M B) e Q s :
  wp c (λ x s', wpt (f x) e Q s') s → wpt (c ≫= f) e Q s.
Proof.
  unfold wp, wpt, mbind, M_bind. by destruct (c s) as [s' [x| | | |]].
Qed.

Lemma wpt_bind_throw {A B} (c : M A) (f : A → M B) e Q s :
  wpt c e Q s → wpt (c ≫= f) e Q s.
Proof.
  unfold wpt, mbind, M_bind. by destruct (c s) as [s' [x| | | |]].
Qed.

(** *** Loops *)

Lemma wp_for_from {A} (I : nat → A → frame → Prop) count body :
  ∀ start (acc : A) s,
    I start acc s →
    (∀ i acc s, start ≤ i < start + count → I i acc s → wp (body i acc) (I (S i)) s) →
    wp (for_from start count body acc) (I (start + count)) s.
Proof.
  induction count as [|count IH]; intros start acc s HI Hbody; simpl.
  - apply wp_ret. by replace (start + 0) with start by lia.
  - apply wp_bind. eapply wp_mono; [apply Hbody; [lia | done] |].
    intros acc' s' HI'. replace (start + S count) with (S start + count) by lia.
    apply IH; [done |]. intros i acc'' s'' Hi. apply Hbody. lia.
Qed.

(** The loop rule: [I i acc s] holds before iteration [i]. *)
Lemma wp_for_range {A} (I : nat → A → frame → Prop) n body (acc : A) Q s :
  I 0 acc s →
  (∀ i acc s, i < n → I i acc s → wp (body i acc) (I (S i)) s) →
  (∀ acc s, I n acc s → Q acc s) →
  wp (for_range n body acc) Q s.
Proof.
  intros HI Hbody HQ. eapply wp_mono; [| apply HQ].
  apply (wp_for_from I n body 0); [done |]. intros i ? ? Hi. apply Hbody. lia.
Qed.

Lemma wp_for_each (I : nat → frame → Prop) n body Q s :
  I 0 s →
  (∀ i s, i < n → I i s → wp (body i) (λ _, I (S i)) s) →
  (∀ s, I n s → Q () s) →
  wp (for_each n body) Q s.
Proof.
  intros HI Hbody HQ. unfold for_each.
  apply (wp_for_range (λ i _, I i)); [done | auto |].
  intros [] ?. apply HQ.
Qed.

(** Two nested loops over the cells of a [rows] by [columns] grid, visited
    in row-major order: [I row column s] holds before the cell
    [(row, column)], and [I row columns] is [I (S row) 0]. *)
Lemma wp_for_each2 (I : nat → nat → frame → Prop) rows columns body Q s :
  I 0 0 s →
  (∀ row column s, row < rows → column < columns →
     I row column s → wp (body row column) (λ _, I row (S column)) s) →
  (∀ row s, row < rows → I row columns s → I (S row) 0 s) →
  (∀ s, I rows 0 s → Q () s) →
  wp (for_each rows (λ row, for_each columns (body row))) Q s.
Proof.
  intros HI Hbody Hrow HQ.
  apply (wp_for_each (λ row, I row 0)); [done | | done].
  intros row s' Hr HI'.
  apply (wp_for_each (I row)); [done | | auto].
  intros column s'' Hc. by apply Hbody.
Qed.

(** A loop run in two parts. *)
Lemma for_from_split {A} (k count : nat) (body : nat → A → M A) :
  ∀ start acc s,
    for_from start (k + count) body acc s
    = (acc' ← for_from start k body acc; for_from (start + k) count body acc') s.
Proof.
  induction k as [|k IH]; intros start acc s; simpl.
  - unfold mbind, M_bind, mret, M_ret. by replace (start + 0) with start by lia.
  - unfold mbind, M_bind in *.
    destruct (body start acc s) as [s' [acc'| | | |]]; try done.
    rewrite IH. by replace (S start + k) with (start + S k) by lia.
Qed.

(** A loop whose iteration [start + k] throws. *)
Lemma wpt_for_from {A} (k count : nat) (body : nat → A → M A) e Q start acc s :
  wp (for_from start k body acc)
     (λ acc' s', wpt (body (start + k) acc') e Q s') s →
  wpt (for_from start (k + S count) body acc) e Q s.
Proof.
  intros Hk. unfold wpt. rewrite for_from_split. fold (wpt
    (acc' ← for_from start k body acc; for_from (start + k) (S count) body acc') e Q s).
  apply wpt_bind. eapply wp_mono; [done |]. intros acc' s' Hbody. simpl.
  by apply wpt_bind_throw.
Qed.

(** *** Objects of the frame *)

Lemma bind_object_eq o (m : matrix T) s : bind_object o m s o = Some m.
Proof. unfold bind_object. by rewrite decide_True. Qed.

Lemma bind_object_ne o o' (m : matrix T) s : o ≠ o' → bind_object o m s o' = s o'.
Proof. intros. unfold bind_object. by rewrite decide_False. Qed.

Lemma wp_object_of o m Q s : s o = Some m → Q m s → wp (object_of o) Q s.
Proof. intros Ho HQ. unfold wp, object_of. by rewrite Ho. Qed.

Lemma wp_rows_of o m Q s : s o = Some m → Q (m_rows m) s → wp (rows_of o) Q s.
Proof. intros. apply wp_bind. eapply wp_object_of; [done |]. by apply wp_ret. Qed.

Lemma wp_columns_of o m Q s : s o = Some m → Q (m_columns m) s → wp (columns_of o) Q s.
Proof. intros. apply wp_bind. eapply wp_object_of; [done |]. by apply wp_ret. Qed.

Lemma wp_assign_object o m (Q : unit → frame → Prop) s :
  Q () (bind_object o m s) → wp (assign_object o m) Q s.
Proof. done. Qed.

Lemma wp_lift {A} (r : outcome A) x Q s : r = Ok x → Q x s → wp (lift r) Q s.
Proof. by intros ->. Qed.

Lemma wp_load o m row column x Q s :
  s o = Some m → get_element m row column = Ok x → Q x s →
  wp (load o row column) Q s.
Proof.
  intros Ho Hget HQ. apply wp_bind. eapply wp_object_of; [done |].
  by eapply wp_lift.
Qed.

Lemma wp_store o m m' row column x Q s :
  s o = Some m → set_element m row column x = Ok m' → Q () (bind_object o m' s) →
  wp (store o row column x) Q s.
Proof.
  intros Ho Hset HQ. apply wp_bind. eapply wp_object_of; [done |].
  apply wp_bind. eapply wp_lift; [done |]. by apply wp_assign_object.
Qed.

Lemma wp_store_data o m m' index x Q s :
  s o = Some m → set_data m index x = Ok m' → Q () (bind_object o m' s) →
  wp (store_data o index x) Q s.
Proof.
  intros Ho Hset HQ. apply wp_bind. eapply wp_object_of; [done |].
  apply wp_bind. eapply wp_lift; [done |]. by apply wp_assign_object.
Qed.

Lemma wp_construct o rows columns fill m (Q : unit → frame → Prop) s :
  new_matrix rows columns fill = Ok m → Q () (bind_object o m s) →
  wp (construct o rows columns fill) Q s.
Proof.
  intros Hnew HQ. apply wp_bind. eapply wp_lift; [done |]. by apply wp_assign_object.
Qed.

(** *** Row-major storage *)

Lemma offset_lt R C r c : r < R → c < C → r * C + c < R * C.
Proof.
  intros Hr Hc. assert (S r * C ≤ R * C) by (apply Nat.mul_le_mono_r; lia). lia.
Qed.

Lemma offset_inj C r c r' c' :
  c < C → c' < C → r * C + c = r' * C + c' → r = r' ∧ c = c'.
Proof.
  intros Hc Hc' Heq.
  destruct (Nat.lt_trichotomy r r') as [Hlt|[->|Hgt]]; [exfalso | lia | exfalso].
  - assert (S r * C ≤ r' * C) by (apply Nat.mul_le_mono_r; lia). lia.
  - assert (S r' * C ≤ r * C) by (apply Nat.mul_le_mono_r; lia). lia.
Qed.

Lemma fill_from_app count (fill : T) :
  ∀ start (rest : list T),
    length rest = count →
    fill_from start count fill (replicate start fill ++ rest)
    = replicate (start + count) fill.
Proof.
  induction count as [|count IH]; intros start rest Hlen; simpl.
  - destruct rest; [| done]. rewrite app_nil_r. f_equal. lia.
  - destruct rest as [|x rest]; [done |].
    rewrite insert_app_r_alt by (rewrite length_replicate; lia).
    rewrite length_replicate, Nat.sub_diag. simpl.
    replace (replicate start fill ++ fill :: rest)
      with (replicate (S start) fill ++ rest).
    + rewrite IH by (simpl in Hlen; lia). f_equal. lia.
    + rewrite replicate_S_end, <- app_assoc. done.
Qed.

Lemma fill_from_replicate n (fill x : T) : fill_from 0 n fill (replicate n x) = replicate n fill.
Proof. apply (fill_from_app n fill 0). apply length_replicate. Qed.

(** The constructor, whatever the size asked for. *)
Lemma new_matrix_eq R C fill :
  1 ≤ R → 1 ≤ C →
  new_matrix R C fill
  = if (vector_limit <? N.of_nat (size_mul R C))%N then AllocError
    else Ok (Matrix R C (replicate (size_mul R C) fill)).
Proof.
  intros HR HC. unfold new_matrix.
  destruct (Nat.ltb_spec R 1); [lia |]. destruct (Nat.ltb_spec C 1); [lia |].
  simpl. by rewrite fill_from_replicate.
Qed.

Lemma new_matrix_ok R C fill :
  1 ≤ R → 1 ≤ C → fits (R * C) →
  new_matrix R C fill = Ok (Matrix R C (replicate (R * C) fill)).
Proof.
  intros HR HC Hfit. rewrite new_matrix_eq, size_mul_fits by done.
  unfold fits in Hfit. by destruct (N.ltb_spec vector_limit (N.of_nat (R * C))); [lia |].
Qed.

Lemma new_matrix_throw R C fill :
  R < 1 ∨ C < 1 → new_matrix R C fill = Throw ERR_INVALID_SIZE.
Proof.
  intros HRC. unfold new_matrix.
  destruct (Nat.ltb_spec R 1); [done |]. destruct (Nat.ltb_spec C 1); [done | lia].
Qed.

(** The offset of a cell of a matrix whose [rows * columns] elements a
    vector can hold. *)
Lemma offset_fits R C r c : r < R → c < C → fits (R * C) → fits (r * C + c).
Proof.
  intros Hr Hc. apply fits_le. pose proof (offset_lt R C r c Hr Hc). lia.
Qed.

Lemma size_offset R C r c :
  r < R → c < C → fits (R * C) → size_add (size_mul r C) c = r * C + c.
Proof.
  intros Hr Hc Hfit. pose proof (offset_fits R C r c Hr Hc Hfit) as Hoff.
  rewrite size_mul_fits by (eapply fits_le; [| done]; lia).
  by rewrite size_add_fits.
Qed.

Lemma element_offset_ok m row column :
  row < m_rows m → column < m_columns m → fits (m_rows m * m_columns m) →
  element_offset m row column = Ok (row * m_columns m + column).
Proof.
  intros Hr Hc Hfit. unfold element_offset. simpl.
  destruct (Nat.leb_spec (m_rows m) row); [lia |].
  destruct (Nat.leb_spec (m_columns m) column); [lia |].
  by rewrite (size_offset (m_rows m)).
Qed.

Lemma element_offset_row m row column :
  m_rows m ≤ row → element_offset m row column = Throw ERR_ROW_RANGE.
Proof.
  intros Hr. unfold element_offset. simpl.
  by destruct (Nat.leb_spec (m_rows m) row); [| lia].
Qed.

(** *** Matrices described cell by cell *)

Lemma has_elements_get m R C g row column :
  has_elements m R C g → row < R → column < C →
  get_element m row column = Ok (g row column).
Proof.
  intros (<- & <- & Hlen & Hfit & Hg) Hr Hc. unfold get_element.
  rewrite element_offset_ok by done. by rewrite Hg.
Qed.

Lemma has_elements_set m R C g row column x :
  has_elements m R C g → row < R → column < C →
  ∃ m', set_element m row column x = Ok m' ∧
        has_elements m' R C
          (λ r c, if decide (r = row ∧ c = column) then x else g r c).
Proof.
  intros (HR & HC & Hlen & Hfit & Hg) Hr Hc. unfold set_element.
  rewrite element_offset_ok by (rewrite ?HR, ?HC; done || lia). rewrite HC.
  pose proof (offset_lt R C row column Hr Hc) as Hlt.
  rewrite decide_True by lia. eexists; split; [done |].
  split_and!; simpl; [done | done | by rewrite length_insert | done |].
  intros r c Hr' Hc'. destruct (decide (r = row ∧ c = column)) as [[-> ->]|Hne].
  - apply list_lookup_insert_eq. lia.
  - rewrite list_lookup_insert_ne; [auto |].
    intros Heq. destruct (offset_inj _ _ _ _ _ Hc Hc' Heq). naive_solver.
Qed.

Lemma has_elements_ext m R C g g' :
  has_elements m R C g →
  (∀ r c, r < R → c < C → g r c = g' r c) →
  has_elements m R C g'.
Proof.
  intros (HR & HC & Hlen & Hfit & Hg) Heq. split_and!; [done | done | done | done |].
  intros r c Hr Hc. rewrite Hg by done. f_equal. auto.
Qed.

Lemma has_elements_eq m m' R C g :
  has_elements m R C g → has_elements m' R C g → m = m'.
Proof.
  intros (HR & HC & Hlen & Hfit & Hg) (HR' & HC' & Hlen' & _ & Hg').
  destruct m as [r c d], m' as [r' c' d']; simpl in *.
  subst r c r' c'. f_equal.
  apply list_eq. intros i.
  destruct (decide (i < R * C)) as [Hi|Hi].
  - assert (0 < C) by (destruct C; lia).
    rewrite (Nat.div_mod_eq i C), (Nat.mul_comm C).
    assert (i `mod` C < C) by (apply Nat.mod_upper_bound; lia).
    assert (i `div` C < R) by (apply Nat.Div0.div_lt_upper_bound; lia).
    by rewrite Hg, Hg'.
  - rewrite !lookup_ge_None_2 by lia. done.
Qed.

Lemma has_elements_new R C fill :
  fits (R * C) →
  has_elements (Matrix R C (replicate (R * C) fill)) R C (λ _ _, fill).
Proof.
  intros Hfit. split_and!; simpl; [done | done | apply length_replicate | done |].
  intros r c Hr Hc. apply lookup_replicate_2. by apply offset_lt.
Qed.

Lemma wf_has_elements m : wf m → has_elements m (m_rows m) (m_columns m) (elem m).
Proof.
  intros (HR & HC & Hlen & Hfit). split_and!; [done | done | done | by rewrite <- Hlen |].
  intros r c Hr Hc. unfold elem.
  destruct (lookup_lt_is_Some_2 (m_data m) (r * m_columns m + c)) as [x ->]; [| done].
  rewrite Hlen. by apply offset_lt.
Qed.

Lemma wf_fits m : wf m → fits (m_rows m * m_columns m).
Proof. intros (_ & _ & Hlen & Hfit). by rewrite <- Hlen. Qed.

Lemma wf_fits_le m n : wf m → n ≤ m_rows m * m_columns m → fits n.
Proof. intros Hm Hn. eapply fits_le; [done | by apply wf_fits]. Qed.

Lemma has_elements_wf m R C g : has_elements m R C g → 1 ≤ R → 1 ≤ C → wf m.
Proof. intros (<- & <- & Hlen & Hfit & _) HR HC. split_and!; [done.. |]. by rewrite Hlen. Qed.

Lemma has_elements_elem m R C g row column :
  has_elements m R C g → row < R → column < C → elem m row column = g row column.
Proof.
  intros (<- & <- & Hlen & _ & Hg) Hr Hc. unfold elem. by rewrite Hg.
Qed.

Lemma get_element_elem m row column :
  wf m → row < m_rows m → column < m_columns m →
  get_element m row column = Ok (elem m row column).
Proof. intros Hwf. by apply has_elements_get, wf_has_elements. Qed.

(** Two matrices of the same shape with the same elements are equal. *)
Lemma matrix_ext m m' :
  wf m → wf m' → m_rows m = m_rows m' → m_columns m = m_columns m' →
  (∀ row column, row < m_rows m → column < m_columns m →
     elem m row column = elem m' row column) →
  m = m'.
Proof.
  intros Hm Hm' HR HC Heq.
  apply (has_elements_eq m m' (m_rows m) (m_columns m) (elem m)).
  - by apply wf_has_elements.
  - rewrite HR, HC. eapply has_elements_ext; [by apply wf_has_elements |].
    intros r c Hr Hc. symmetry. apply Heq; lia.
Qed.

(** *** Results filled cell by cell *)

Lemma partial_start f r c : partial f 0 0 r c = T_default.
Proof. unfold partial, before. rewrite decide_False; [done | lia]. Qed.

Lemma partial_here f row column : partial f row column row column = T_default.
Proof. unfold partial, before. rewrite decide_False; [done | lia]. Qed.

Lemma partial_step f row column r c :
  (if decide (r = row ∧ c = column) then f row column else partial f row column r c)
  = partial f row (S column) r c.
Proof.
  unfold partial, before.
  destruct (decide (r = row ∧ c = column)) as [[-> ->]|Hne].
  - rewrite decide_True; [done | lia].
  - destruct (decide (r < row ∨ r = row ∧ c < column)).
    + rewrite decide_True; [done | lia].
    + rewrite decide_False; [done | lia].
Qed.

Lemma partial_next_row f row C r c :
  c < C → partial f row C r c = partial f (S row) 0 r c.
Proof.
  intros Hc. unfold partial, before.
  destruct (decide (r < row ∨ r = row ∧ c < C)).
  - rewrite decide_True; [done | lia].
  - rewrite decide_False; [done | lia].
Qed.

Lemma partial_end f R r c : r < R → partial f R 0 r c = f r c.
Proof. intros Hr. unfold partial, before. rewrite decide_True; [done | lia]. Qed.

(** The two loops of an operator that fills [result] cell by cell: [J] is
    what the body keeps of the other objects. *)
Lemma wp_fill_result (f : nat → nat → T) (J : frame → Prop) R C body Q s m0 :
  s Result = Some m0 →
  has_elements m0 R C (λ _ _, T_default) →
  J s →
  (∀ row column s m,
     row < R → column < C → J s → s Result = Some m →
     has_elements m R C (partial f row column) →
     wp (body row column)
        (λ _ s', J s' ∧ ∃ m', s' Result = Some m' ∧
                              has_elements m' R C (partial f row (S column))) s) →
  (∀ s m, J s → s Result = Some m → has_elements m R C f → Q () s) →
  wp (for_each R (λ row, for_each C (body row))) Q s.
Proof.
  intros Hres Hm0 HJ Hbody HQ.
  apply (wp_for_each2 (λ row column s,
           J s ∧ ∃ m, s Result = Some m ∧ has_elements m R C (partial f row column))).
  - split; [done |]. exists m0. split; [done |].
    eapply has_elements_ext; [done |]. intros. by rewrite partial_start.
  - intros row column s' Hr Hc (HJ' & m & Hres' & Hm). by apply (Hbody _ _ _ m).
  - intros row s' Hr (HJ' & m & Hres' & Hm). split; [done |].
    exists m. split; [done |]. eapply has_elements_ext; [done |].
    intros. by apply partial_next_row.
  - intros s' (HJ' & m & Hres' & Hm). apply (HQ s' m); [done | done |].
    eapply has_elements_ext; [done |]. intros. by apply partial_end.
Qed.

(** Storing [f row column] at the cell the loops have reached. *)
Lemma wp_store_result (f : nat → nat → T) R C row column x m (Q : unit → frame → Prop) s :
  s Result = Some m → has_elements m R C (partial f row column) →
  row < R → column < C → x = f row column →
  (∀ m', has_elements m' R C (partial f row (S column)) →
         Q () (bind_object Result m' s)) →
  wp (store Result row column x) Q s.
Proof.
  intros Hres Hm Hr Hc -> HQ.
  destruct (has_elements_set m R C _ row column (f row column) Hm Hr Hc)
    as (m' & Hset & Hm').
  eapply wp_store; [done | done |]. apply HQ.
  eapply has_elements_ext; [done |]. intros. apply partial_step.
Qed.

(** *** From a method body to its call *)

Lemma invoke_wp {A} (body : M A) (a a' : matrix T) (φ : A → Prop) :
  wp body (λ x s', s' This = Some a' ∧ φ x) (frame1 a) →
  ∃ x, invoke body a = Ok (x, a') ∧ φ x.
Proof.
  unfold wp, invoke. destruct (body (frame1 a)) as [s' [x| | | |]]; try done.
  intros (-> & Hφ). eauto.
Qed.

Lemma invoke2_wp {A} (body : M A) (a b a' b' : matrix T) (φ : A → Prop) :
  wp body (λ x s', s' This = Some a' ∧ s' Operand = Some b' ∧ φ x) (frame2 a b) →
  ∃ x, invoke2 body a b = Ok (x, a', b') ∧ φ x.
Proof.
  unfold wp, invoke2. destruct (body (frame2 a b)) as [s' [x| | | |]]; try done.
  intros (-> & -> & Hφ). eauto.
Qed.

Lemma invoke_wpt {A} (body : M A) (a a' : matrix T) e :
  wpt body e (λ s', s' This = Some a') (frame1 a) →
  invoke body a = Throw e ∧ left_by_throw body a = Some a'.
Proof.
  unfold wpt, invoke, left_by_throw.
  destruct (body (frame1 a)) as [s' [x| | | |]]; try done. by intros [-> ->].
Qed.

Lemma invoke2_wpt {A} (body : M A) (a b a' b' : matrix T) e :
  wpt body e (λ s', s' This = Some a' ∧ s' Operand = Some b') (frame2 a b) →
  invoke2 body a b = Throw e ∧ left_by_throw2 body a b = Some (a', b').
Proof.
  unfold wpt, invoke2, left_by_throw2.
  destruct (body (frame2 a b)) as [s' [x| | | |]]; try done. by intros [-> [-> ->]].
Qed.

Lemma frame1_this (a : matrix T) : frame1 a This = Some a.
Proof. done. Qed.

Lemma frame2_this (a b : matrix T) : frame2 a b This = Some a.
Proof. done. Qed.

Lemma frame2_operand (a b : matrix T) : frame2 a b Operand = Some b.
Proof. done. Qed.

(** *** The arithmetic operators *)

(** The size of a result is within that of an operand. *)
Ltac fits_wf Ha :=
  apply (wf_fits_le _ _ Ha); pose proof Ha as (? & ? & _ & _); nia.

Ltac wp_rows_columns :=
  repeat first
    [ apply wp_bind; eapply wp_rows_of; [reflexivity |]
    | apply wp_bind; eapply wp_columns_of; [reflexivity |] ].

Lemma operator_plus_ok a b :
  wf a → wf b → m_rows a = m_rows b → m_columns a = m_columns b →
  ∃ r, invoke2 operator_plus a b = Ok (r, a, b) ∧
       has_elements r (m_rows a) (m_columns a)
         (λ row column, T_add (elem a row column) (elem b row column)).
Proof.
  intros Ha Hb HR HC. apply invoke2_wp. unfold operator_plus.
  wp_rows_columns. rewrite <- HR, <- HC, !Nat.eqb_refl. simpl.
  apply wp_bind.
  eapply wp_construct; [apply new_matrix_ok; [apply Ha | apply Ha | by apply wf_fits] |].
  apply wp_bind.
  eapply (wp_fill_result (λ r c, T_add (elem a r c) (elem b r c))
            (λ s, s This = Some a ∧ s Operand = Some b)).
  - apply bind_object_eq.
  - by apply has_elements_new, wf_fits.
  - done.
  - intros row column s m Hr Hc [Hthis Hop] Hres Hm.
    apply wp_bind. eapply wp_load; [done | by apply get_element_elem |].
    apply wp_bind.
    eapply wp_load; [done | apply get_element_elem; [done | lia | lia] |].
    eapply wp_store_result; [done | done | done | done | done |].
    intros m' Hm'. split; [done |]. exists m'. split; [apply bind_object_eq | done].
  - intros s m [Hthis Hop] Hres Hm. eapply wp_object_of; [done |]. done.
Qed.

Lemma operator_minus_ok a b :
  wf a → wf b → m_rows a = m_rows b → m_columns a = m_columns b →
  ∃ r, invoke2 operator_minus a b = Ok (r, a, b) ∧
       has_elements r (m_rows a) (m_columns a)
         (λ row column, T_sub (elem a row column) (elem b row column)).
Proof.
  intros Ha Hb HR HC. apply invoke2_wp. unfold operator_minus.
  wp_rows_columns. rewrite <- HR, <- HC, !Nat.eqb_refl. simpl.
  apply wp_bind.
  eapply wp_construct; [apply new_matrix_ok; [apply Ha | apply Ha | by apply wf_fits] |].
  apply wp_bind.
  eapply (wp_fill_result (λ r c, T_sub (elem a r c) (elem b r c))
            (λ s, s This = Some a ∧ s Operand = Some b)).
  - apply bind_object_eq.
  - by apply has_elements_new, wf_fits.
  - done.
  - intros row column s m Hr Hc [Hthis Hop] Hres Hm.
    apply wp_bind. eapply wp_load; [done | by apply get_element_elem |].
    apply wp_bind.
    eapply wp_load; [done | apply get_element_elem; [done | lia | lia] |].
    eapply wp_store_result; [done | done | done | done | done |].
    intros m' Hm'. split; [done |]. exists m'. split; [apply bind_object_eq | done].
  - intros s m [Hthis Hop] Hres Hm. eapply wp_object_of; [done |]. done.
Qed.

(** What [operator-()] computes: every element is [-T()]. *)
Lemma operator_neg_ok a :
  wf a →
  ∃ r, invoke operator_neg a = Ok (r, a) ∧
       has_elements r (m_rows a) (m_columns a) (λ _ _, T_neg T_default).
Proof.
  intros Ha. apply invoke_wp. unfold operator_neg.
  wp_rows_columns.
  apply wp_bind.
  eapply wp_construct; [apply new_matrix_ok; [apply Ha | apply Ha | by apply wf_fits] |].
  apply wp_bind.
  eapply (wp_fill_result (λ _ _, T_neg T_default) (λ s, s This = Some a)).
  - apply bind_object_eq.
  - by apply has_elements_new, wf_fits.
  - done.
  - intros row column s m Hr Hc Hthis Hres Hm.
    apply wp_bind. eapply wp_load; [done | by eapply has_elements_get |].
    eapply wp_store_result; [done | done | done | done | by rewrite partial_here |].
    intros m' Hm'. split; [done |]. exists m'. split; [apply bind_object_eq | done].
  - intros s m Hthis Hres Hm. eapply wp_object_of; [done |]. done.
Qed.

(** What [operator*(T)] computes: every element is [T() + operand]. *)
Lemma operator_mul_scalar_ok a operand :
  wf a →
  ∃ r, invoke (operator_mul_scalar operand) a = Ok (r, a) ∧
       has_elements r (m_rows a) (m_columns a) (λ _ _, T_add T_default operand).
Proof.
  intros Ha. apply invoke_wp. unfold operator_mul_scalar.
  wp_rows_columns.
  apply wp_bind.
  eapply wp_construct; [apply new_matrix_ok; [apply Ha | apply Ha | by apply wf_fits] |].
  apply wp_bind.
  eapply (wp_fill_result (λ _ _, T_add T_default operand) (λ s, s This = Some a)).
  - apply bind_object_eq.
  - by apply has_elements_new, wf_fits.
  - done.
  - intros row column s m Hr Hc Hthis Hres Hm.
    apply wp_bind. eapply wp_load; [done | by eapply has_elements_get |].
    eapply wp_store_result; [done | done | done | done | by rewrite partial_here |].
    intros m' Hm'. split; [done |]. exists m'. split; [apply bind_object_eq | done].
  - intros s m Hthis Hres Hm. eapply wp_object_of; [done |]. done.
Qed.

Lemma dot_product_S a b row column n :
  dot_product a b row column (S n)
  = T_add (dot_product a b row column n) (T_mul (elem a row n) (elem b n column)).
Proof. unfold dot_product. by rewrite seq_S, fold_left_app. Qed.

Lemma operator_mul_ok a b :
  wf a → wf b → m_columns a = m_rows b → fits (m_rows a * m_columns b) →
  ∃ r, invoke2 operator_mul a b = Ok (r, a, b) ∧
       has_elements r (m_rows a) (m_columns b)
         (λ row column, dot_product a b row column (m_columns a)).
Proof.
  intros Ha Hb HCR Hfit. apply invoke2_wp. unfold operator_mul.
  wp_rows_columns. rewrite <- HCR, Nat.eqb_refl. simpl.
  apply wp_bind.
  eapply wp_construct; [apply new_matrix_ok; [apply Ha | apply Hb | done] |].
  apply wp_bind.
  set (f := λ row column, dot_product a b row column (m_columns a)).
  eapply (wp_fill_result f (λ s, s This = Some a ∧ s Operand = Some b)).
  - apply bind_object_eq.
  - by apply has_elements_new.
  - done.
  - intros row column s m Hr Hc [Hthis Hop] Hres Hm.
    apply (wp_for_each (λ k s',
             (s' This = Some a ∧ s' Operand = Some b) ∧
             ∃ m', s' Result = Some m' ∧
                   has_elements m' (m_rows a) (m_columns b)
                     (λ r c, if decide (r = row ∧ c = column)
                             then dot_product a b row column k
                             else partial f row column r c))).
    + split; [done |]. exists m. split; [done |].
      eapply has_elements_ext; [done |]. intros r c _ _. simpl.
      destruct (decide (r = row ∧ c = column)) as [[-> ->]|]; [| done].
      apply partial_here.
    + intros k s' Hk ([Hthis' Hop'] & m' & Hres' & Hm').
      apply wp_bind. eapply wp_load; [done | by eapply has_elements_get |].
      simpl. rewrite decide_True by done.
      apply wp_bind. eapply wp_load; [done | by apply get_element_elem |].
      apply wp_bind.
      eapply wp_load; [done | apply get_element_elem; [done | lia | lia] |].
      destruct (has_elements_set m' _ _ _ row column
                  (T_add (dot_product a b row column k)
                         (T_mul (elem a row k) (elem b k column))) Hm' Hr Hc)
        as (m'' & Hset & Hm'').
      eapply wp_store; [done | done |].
      split; [done |]. exists m''. split; [apply bind_object_eq |].
      eapply has_elements_ext; [done |]. intros r c _ _. simpl.
      destruct (decide (r = row ∧ c = column)); [| done].
      by rewrite dot_product_S.
    + intros s' ([Hthis' Hop'] & m' & Hres' & Hm'). split; [done |].
      exists m'. split; [done |]. eapply has_elements_ext; [done |].
      intros r c _ _. apply (partial_step f).
  - intros s m [Hthis Hop] Hres Hm. eapply wp_object_of; [done |]. done.
Qed.

(** *** Transposition and the extraction of rows and columns *)

Lemma transpose_ok a :
  wf a →
  ∃ r, invoke transpose a = Ok (r, a) ∧
       has_elements r (m_columns a) (m_rows a) (λ row column, elem a column row).
Proof.
  intros Ha. apply invoke_wp. unfold transpose. wp_rows_columns.
  assert (fits (m_columns a * m_rows a)) as Hfit by fits_wf Ha.
  apply wp_bind.
  eapply wp_construct; [apply new_matrix_ok; [apply Ha | apply Ha | done] |].
  apply wp_bind.
  apply (wp_for_each2 (λ row column s,
           s This = Some a ∧
           ∃ m, s Result = Some m ∧
                has_elements m (m_columns a) (m_rows a)
                  (λ r c, partial (elem a) row column c r))).
  - split; [done |]. eexists. split; [apply bind_object_eq |].
    eapply has_elements_ext; [by apply has_elements_new |].
    intros. by rewrite partial_start.
  - intros row column s Hr Hc (Hthis & m & Hres & Hm).
    apply wp_bind. eapply wp_load; [done | by apply get_element_elem |].
    destruct (has_elements_set m _ _ _ column row (elem a row column) Hm Hc Hr)
      as (m' & Hset & Hm').
    eapply wp_store; [done | done |]. split; [done |].
    exists m'. split; [apply bind_object_eq |].
    eapply has_elements_ext; [done |]. intros r c _ _. simpl.
    rewrite <- partial_step.
    destruct (decide (r = column ∧ c = row)) as [[-> ->]|Hne].
    + by rewrite decide_True.
    + rewrite decide_False; [done | tauto].
  - intros row s Hr (Hthis & m & Hres & Hm). split; [done |].
    exists m. split; [done |]. eapply has_elements_ext; [done |].
    intros r c Hr' Hc'. simpl. by apply partial_next_row.
  - intros s (Hthis & m & Hres & Hm). eapply wp_object_of; [done |].
    split; [done |]. eapply has_elements_ext; [done |].
    intros r c Hr' Hc'. simpl. by apply partial_end.
Qed.

Lemma row_vector_ok a row :
  wf a → row < m_rows a →
  ∃ r, invoke (row_vector row) a = Ok (r, a) ∧
       has_elements r 1 (m_columns a) (λ _ column, elem a row column).
Proof.
  intros Ha Hrow. apply invoke_wp. unfold row_vector. wp_rows_columns.
  destruct (Nat.leb_spec (m_rows a) row); [lia |]. simpl.
  assert (fits (1 * m_columns a)) as Hfit by fits_wf Ha.
  apply wp_bind.
  eapply wp_construct; [apply new_matrix_ok; [done | apply Ha | done] |].
  apply wp_bind.
  set (f := λ _ column : nat, elem a row column).
  apply (wp_for_each (λ column s,
           s This = Some a ∧
           ∃ m, s Result = Some m ∧
                has_elements m 1 (m_columns a) (partial f 0 column))).
  - split; [done |]. eexists. split; [apply bind_object_eq |].
    eapply has_elements_ext; [by apply has_elements_new |].
    intros. by rewrite partial_start.
  - intros column s Hc (Hthis & m & Hres & Hm).
    apply wp_bind. eapply wp_load; [done | by apply get_element_elem |].
    eapply (wp_store_result f); [done | done | lia | done | done |].
    intros m' Hm'. split; [done |]. exists m'. split; [apply bind_object_eq | done].
  - intros s (Hthis & m & Hres & Hm). eapply wp_object_of; [done |].
    split; [done |]. eapply has_elements_ext; [done |].
    intros r c Hr' Hc'. unfold partial, before. rewrite decide_True; [done | lia].
Qed.

(** The first [n] iterations of the loop of [column_vector], as long as
    they stay inside both [*this] and the [m_columns] by 1 [result]. *)
Lemma column_vector_loop a column n s m0 :
  wf a → column < m_columns a → n ≤ m_rows a → n ≤ m_columns a →
  s This = Some a → s Result = Some m0 →
  has_elements m0 (m_columns a) 1 (λ _ _, T_default) →
  wp (for_each n (λ row, x ← load This row column; store Result row 0 x))
     (λ _ s', s' This = Some a ∧
              ∃ m, s' Result = Some m ∧
                   has_elements m (m_columns a) 1
                     (λ r _, if decide (r < n) then elem a r column else T_default))
     s.
Proof.
  intros Ha Hcol HnR HnC Hthis Hres Hm0.
  set (f := λ r (_ : nat), elem a r column).
  apply (wp_for_each (λ row s,
           s This = Some a ∧
           ∃ m, s Result = Some m ∧
                has_elements m (m_columns a) 1 (partial f row 0))).
  - split; [done |]. exists m0. split; [done |].
    eapply has_elements_ext; [done |]. intros. by rewrite partial_start.
  - intros row s' Hr (Hthis' & m & Hres' & Hm).
    apply wp_bind.
    eapply wp_load; [done | apply get_element_elem; [done | lia | done] |].
    eapply (wp_store_result f); [done | done | lia | lia | done |].
    intros m' Hm'. split; [done |]. exists m'. split; [apply bind_object_eq |].
    eapply has_elements_ext; [done |]. intros r c _ Hc. by apply partial_next_row.
  - intros s' (Hthis' & m & Hres' & Hm). split; [done |].
    exists m. split; [done |]. eapply has_elements_ext; [done |].
    intros r c _ Hc. unfold partial, before.
    destruct (decide (r < n)).
    + rewrite decide_True; [done | lia].
    + rewrite decide_False; [done | lia].
Qed.

Lemma column_vector_ok a column :
  wf a → column < m_columns a → m_rows a ≤ m_columns a →
  ∃ r, invoke (column_vector column) a = Ok (r, a) ∧
       has_elements r (m_columns a) 1
         (λ row _, if decide (row < m_rows a) then elem a row column else T_default).
Proof.
  intros Ha Hcol Hle. apply invoke_wp. unfold column_vector. wp_rows_columns.
  destruct (Nat.leb_spec (m_columns a) column); [lia |]. simpl.
  assert (fits (m_columns a * 1)) as Hfit by fits_wf Ha.
  apply wp_bind.
  eapply wp_construct; [apply new_matrix_ok; [apply Ha | done | done] |].
  apply wp_bind.
  eapply wp_mono;
    [eapply (column_vector_loop a column (m_rows a));
       [done | done | done | done | done | apply bind_object_eq
       | by apply has_elements_new] |].
  intros [] s (Hthis & m & Hres & Hm). simpl.
  eapply wp_object_of; [done |]. done.
Qed.

(** With more rows than columns, [result(row, 0)] throws at
    [row = m_columns]; [*this] is as it was. *)
Lemma column_vector_row_range_wpt a column :
  wf a → column < m_columns a → m_columns a < m_rows a →
  wpt (column_vector column) ERR_ROW_RANGE (λ s, s This = Some a) (frame1 a).
Proof.
  intros Ha Hcol Hlt. unfold column_vector.
  apply wpt_bind; eapply wp_rows_of; [reflexivity |].
  apply wpt_bind; eapply wp_columns_of; [reflexivity |].
  destruct (Nat.leb_spec (m_columns a) column); [lia |]. simpl.
  assert (fits (m_columns a * 1)) as Hfit by fits_wf Ha.
  apply wpt_bind.
  eapply wp_construct; [apply new_matrix_ok; [apply Ha | done | done] |].
  apply wpt_bind_throw.
  unfold for_each, for_range.
  replace (m_rows a) with (m_columns a + S (m_rows a - m_columns a - 1)) at 1 by lia.
  apply wpt_for_from.
  eapply wp_mono.
  - eapply (column_vector_loop a column (m_columns a));
      [done | done | lia | done | done | apply bind_object_eq
      | by apply has_elements_new].
  - intros [] s (Hthis & m & Hres & (HR & HC & _)). simpl.
    apply wpt_bind.
    eapply wp_load; [done | apply get_element_elem; [done | lia | done] |].
    unfold store. apply wpt_bind. eapply wp_object_of; [done |].
    apply wpt_bind_throw, wpt_lift; [| done].
    unfold set_element. rewrite element_offset_row by lia. done.
Qed.

Lemma column_vector_row_range a column :
  wf a → column < m_columns a → m_columns a < m_rows a →
  invoke (column_vector column) a = Throw ERR_ROW_RANGE.
Proof.
  intros Ha Hcol Hlt.
  by apply (invoke_wpt _ a a), column_vector_row_range_wpt.
Qed.

Lemma column_vector_col_range a column :
  m_columns a ≤ column → invoke (column_vector column) a = Throw ERR_COL_RANGE.
Proof.
  intros Hcol. unfold invoke, column_vector, mbind, M_bind. simpl.
  by destruct (Nat.leb_spec (m_columns a) column); [| lia].
Qed.

(** *** Minors *)

Lemma has_elements_set_data m R C g row column x :
  has_elements m R C g → row < R → column < C →
  ∃ m', set_data m (row * C + column) x = Ok m' ∧
        has_elements m' R C
          (λ r c, if decide (r = row ∧ c = column) then x else g r c).
Proof.
  intros Hm Hr Hc.
  destruct (has_elements_set m R C g row column x Hm Hr Hc) as (m' & Hset & Hm').
  exists m'. split; [| done].
  destruct Hm as (HR & HC & Hlen & Hfit & _). subst R C. unfold set_element in Hset.
  by rewrite element_offset_ok in Hset by done.
Qed.

Lemma skip_skipped i n : n ≠ i → skip i (skipped i n) = n.
Proof.
  intros. unfold skip, skipped.
  destruct (decide (i < n)); (case_decide; lia).
Qed.

Lemma skipped_S i n : n ≠ i → skipped i (S n) = S (skipped i n).
Proof. intros. unfold skipped. repeat case_decide; lia. Qed.

Lemma skipped_S_eq i : skipped i (S i) = skipped i i.
Proof. unfold skipped. repeat case_decide; lia. Qed.

Lemma skipped_lt i n N : i < N → n < N → n ≠ i → skipped i n < N - 1.
Proof. intros. unfold skipped. case_decide; lia. Qed.

Lemma skipped_all i N : i < N → skipped i N = N - 1.
Proof. intros. unfold skipped. case_decide; lia. Qed.

Lemma skip_ne i r : skip i r ≠ i.
Proof. unfold skip. case_decide; lia. Qed.

Lemma skip_lt i r N : r < N - 1 → skip i r < N.
Proof. intros. unfold skip. case_decide; lia. Qed.

Lemma minor_ok a at_row at_column :
  wf a → 2 ≤ m_rows a → 2 ≤ m_columns a →
  at_row < m_rows a → at_column < m_columns a →
  ∃ r, invoke (minor at_row at_column) a = Ok (r, a) ∧
       has_elements r (m_rows a - 1) (m_columns a - 1)
         (λ row column, elem a (skip at_row row) (skip at_column column)).
Proof.
  intros Ha HR HC Hi Hj. apply invoke_wp. unfold minor. wp_rows_columns.
  rewrite !size_sub_fits by (lia || fits_wf Ha).
  assert (fits ((m_rows a - 1) * (m_columns a - 1))) as Hfit by fits_wf Ha.
  apply wp_bind. eapply wp_construct; [apply new_matrix_ok; [lia | lia | done] |].
  set (R' := m_rows a - 1) in *. set (C' := m_columns a - 1) in *.
  set (f := λ row column, elem a (skip at_row row) (skip at_column column)).
  set (cc := λ row column, if decide (row = at_row) then 0 else skipped at_column column).
  set (I := λ row column index (s : frame),
         s This = Some a ∧
         ∃ m, s Result = Some m ∧
              index = skipped at_row row * C' + cc row column ∧
              has_elements m R' C' (partial f (skipped at_row row) (cc row column))).
  apply wp_bind.
  apply (wp_for_range (λ row, I row 0)).
  - split; [done |]. eexists. split; [apply bind_object_eq |]. split.
    + unfold cc, skipped. repeat case_decide; lia.
    + eapply has_elements_ext; [by apply has_elements_new |]. intros r c Hr Hc.
      unfold partial, before, cc, skipped.
      rewrite decide_False; [done |]. repeat case_decide; lia.
  - intros row index s Hrow HI.
    apply (wp_for_range (I row)); [done | |].
    + intros column index' s' Hcol (Hthis & m & Hres & Hidx & Hm).
      destruct (Nat.eqb_spec row at_row) as [->|Hrow_ne].
      { apply wp_ret. split; [done |]. exists m. split; [done |].
        unfold cc in *. by rewrite !decide_True in * by done. }
      destruct (Nat.eqb_spec column at_column) as [->|Hcol_ne].
      { apply wp_ret. split; [done |]. exists m. split; [done |].
        unfold cc in *. rewrite !decide_False in * by done.
        by rewrite skipped_S_eq. }
      assert (cc row column = skipped at_column column) as Hcc
        by (unfold cc; by rewrite decide_False).
      assert (cc row (S column) = S (skipped at_column column)) as Hcc'
        by (unfold cc; rewrite decide_False by done; by apply skipped_S).
      rewrite Hcc in Hidx, Hm.
      pose proof (skipped_lt at_row row (m_rows a) Hi Hrow Hrow_ne) as Hr'.
      pose proof (skipped_lt at_column column (m_columns a) Hj Hcol Hcol_ne) as Hc'.
      apply wp_bind. eapply wp_load; [done | by apply get_element_elem |].
      destruct (has_elements_set_data m R' C' _ _ _ (elem a row column) Hm Hr' Hc')
        as (m' & Hset & Hm').
      apply wp_bind. rewrite Hidx. eapply wp_store_data; [done | done |].
      rewrite size_add_fits
        by (eapply fits_le; [| exact Hfit];
            pose proof (offset_lt R' C' _ _ Hr' Hc'); lia).
      apply wp_ret. split; [done |]. exists m'. split; [apply bind_object_eq |].
      rewrite Hcc'. split; [lia |].
      eapply has_elements_ext; [done |]. intros r c _ _. simpl.
      rewrite <- partial_step. unfold f at 2. by rewrite !skip_skipped.
    + intros index' s' (Hthis & m & Hres & Hidx & Hm).
      split; [done |]. exists m. split; [done |].
      unfold cc in *. destruct (decide (row = at_row)) as [->|Hrow_ne].
      * rewrite skipped_S_eq. rewrite decide_False by lia.
        replace (skipped at_column 0) with 0 by (unfold skipped; case_decide; lia).
        split; [exact Hidx | exact Hm].
      * rewrite (skipped_all at_column (m_columns a)) in Hidx, Hm by done.
        fold C' in Hidx, Hm.
        rewrite skipped_S by done.
        replace (if decide (S row = at_row) then 0 else skipped at_column 0)
          with 0 by (unfold skipped; repeat case_decide; lia).
        split; [lia |]. eapply has_elements_ext; [done |].
        intros r c _ Hc. by apply partial_next_row.
  - intros index s (Hthis & m & Hres & Hidx & Hm).
    eapply wp_object_of; [done |]. split; [done |].
    rewrite (skipped_all at_row (m_rows a)) in Hm by done. fold R' in Hm.
    replace (cc (m_rows a) 0) with 0 in Hm
      by (unfold cc, skipped; repeat case_decide; lia).
    eapply has_elements_ext; [done |]. intros r c Hr Hc. by apply partial_end.
Qed.

(** *** Determinants *)

Lemma wp_call {A} o (body : M A) m m' x Q s :
  s o = Some m → invoke body m = Ok (x, m') → Q x (bind_object o m' s) →
  wp (call o body) Q s.
Proof.
  intros Ho Hinv HQ. unfold wp, call, invoke in *. rewrite Ho.
  destruct (body (frame1 m)) as [s' [x'| | | |]]; try done.
  destruct (s' This) as [m''|]; [| done]. by injection Hinv as -> ->.
Qed.

Lemma even_mod_2 n : Nat.even n = (n mod 2 =? 0).
Proof.
  rewrite (Nat.div_mod_eq n 2) at 1.
  rewrite Nat.add_comm, Nat.even_add_mul_2.
  pose proof (Nat.mod_upper_bound n 2).
  destruct (n mod 2) as [|[|k]]; [done | done | lia].
Qed.

Lemma alternating_sum_S term n :
  alternating_sum term (S n)
  = if n mod 2 =? 0 then T_add (alternating_sum term n) (term n)
    else T_sub (alternating_sum term n) (term n).
Proof.
  unfold alternating_sum. rewrite seq_S, fold_left_app. cbn [fold_left].
  rewrite Nat.add_0_l, even_mod_2. by destruct (n mod 2 =? 0).
Qed.

Lemma determinant_rec_not_square fuel a :
  m_rows a ≠ m_columns a →
  invoke (determinant_rec (S fuel)) a = Throw ERR_NOT_SQUARE.
Proof.
  intros Hne. unfold invoke. simpl. unfold mbind, M_bind. simpl.
  by destruct (Nat.eqb_spec (m_rows a) (m_columns a)).
Qed.

Lemma determinant_rec_1 fuel a :
  wf a → m_rows a = 1 → m_columns a = 1 →
  invoke (determinant_rec (S fuel)) a = Ok (elem a 0 0, a).
Proof.
  intros Ha HR HC.
  enough (∃ x, invoke (determinant_rec (S fuel)) a = Ok (x, a) ∧ x = elem a 0 0)
    as (? & ? & ->) by done.
  apply invoke_wp. simpl. wp_rows_columns. rewrite HR, HC. simpl.
  eapply wp_load; [done | apply get_element_elem; [done | lia | lia] |]. done.
Qed.

Lemma determinant_rec_2 fuel a :
  wf a → m_rows a = 2 → m_columns a = 2 →
  invoke (determinant_rec (S fuel)) a
  = Ok (T_sub (T_mul (elem a 0 0) (elem a 1 1)) (T_mul (elem a 1 0) (elem a 0 1)), a).
Proof.
  intros Ha HR HC.
  enough (∃ x, invoke (determinant_rec (S fuel)) a = Ok (x, a) ∧
               x = T_sub (T_mul (elem a 0 0) (elem a 1 1))
                         (T_mul (elem a 1 0) (elem a 0 1)))
    as (? & ? & ->) by done.
  apply invoke_wp. simpl. wp_rows_columns. rewrite HR, HC. simpl.
  do 4 (apply wp_bind;
        eapply wp_load; [done | apply get_element_elem; [done | lia | lia] |]).
  by apply wp_ret.
Qed.

(** The general case, given what the calls on the minors return. *)
Lemma determinant_rec_expand fuel a (sub : nat → matrix T) (det_sub : nat → T) :
  wf a → m_rows a = m_columns a → 2 < m_rows a →
  (∀ row, row < m_rows a →
     invoke (minor row 0) a = Ok (sub row, a) ∧
     invoke (determinant_rec fuel) (sub row) = Ok (det_sub row, sub row)) →
  invoke (determinant_rec (S fuel)) a
  = Ok (alternating_sum (λ row, T_mul (elem a row 0) (det_sub row)) (m_rows a), a).
Proof.
  intros Ha Hsq HR Hsub.
  set (term := λ row, T_mul (elem a row 0) (det_sub row)).
  enough (∃ x, invoke (determinant_rec (S fuel)) a = Ok (x, a) ∧
               x = alternating_sum term (m_rows a))
    as (? & ? & ->) by done.
  apply invoke_wp. cbn [determinant_rec]. wp_rows_columns.
  rewrite <- Hsq, Nat.eqb_refl. cbn [negb].
  destruct (Nat.eqb_spec (m_rows a) 1); [lia |].
  destruct (Nat.eqb_spec (m_rows a) 2); [lia |].
  apply (wp_for_range (λ row result s,
           s This = Some a ∧ result = alternating_sum term row)); [done | | done].
  intros row result s Hrow (Hthis & ->).
  destruct (Hsub row Hrow) as [Hminor Hdet].
  apply wp_bind. eapply wp_call; [done | done |].
  apply wp_bind. apply wp_assign_object.
  apply wp_bind.
  eapply wp_load; [done | apply get_element_elem; [done | lia | lia] |].
  apply wp_bind. eapply wp_call; [apply bind_object_eq | done |].
  rewrite alternating_sum_S. unfold term.
  destruct (row mod 2 =? 0); by apply wp_ret.
Qed.

(** [n] levels of recursion are enough for a matrix of at most [n] rows,
    and more change nothing. *)
Lemma determinant_rec_fuel n :
  ∀ a, wf a → m_rows a = m_columns a → m_rows a ≤ n →
       ∃ d, ∀ fuel, n ≤ fuel → invoke (determinant_rec fuel) a = Ok (d, a).
Proof.
  induction n as [|n IH]; intros a Ha Hsq Hn.
  { destruct Ha as (? & _). lia. }
  destruct (decide (m_rows a = 1)) as [H1|H1].
  { exists (elem a 0 0). intros [|fuel] Hfuel; [lia |].
    apply determinant_rec_1; [done | done | lia]. }
  destruct (decide (m_rows a = 2)) as [H2|H2].
  { eexists. intros [|fuel] Hfuel; [lia |].
    apply determinant_rec_2; [done | done | lia]. }
  assert (2 < m_rows a) as HR by (destruct Ha as (? & _); lia).
  set (sub := λ row, returned a (invoke (minor row 0) a)).
  set (det_sub := λ row, returned T_default (invoke (determinant_rec n) (sub row))).
  assert (∀ row, row < m_rows a →
            invoke (minor row 0) a = Ok (sub row, a) ∧
            ∀ fuel, n ≤ fuel →
              invoke (determinant_rec fuel) (sub row) = Ok (det_sub row, sub row))
    as Hsub.
  { intros row Hrow.
    destruct (minor_ok a row 0 Ha) as (r & Hminor & Hr); [lia.. |].
    assert (sub row = r) as Hsub_row by (unfold sub; by rewrite Hminor).
    rewrite Hsub_row. split; [done |].
    destruct (IH r) as (d & Hd).
    - eapply has_elements_wf; [done | lia | lia].
    - destruct Hr as (-> & -> & _). lia.
    - destruct Hr as (-> & _). lia.
    - intros fuel Hfuel. unfold det_sub.
      rewrite Hsub_row, (Hd n) by done. simpl. auto. }
  eexists. intros [|fuel] Hfuel; [lia |].
  apply (determinant_rec_expand fuel a sub det_sub); [done | done | done |].
  intros row Hrow. destruct (Hsub row Hrow) as [Hminor Hdet].
  split; [done |]. apply Hdet. lia.
Qed.

Lemma determinant_eq a :
  invoke determinant a = invoke (determinant_rec (S (m_rows a))) a.
Proof. done. Qed.

(** On a square matrix [determinant] returns, and leaves the matrix as it
    was. *)
Lemma determinant_ok a :
  wf a → m_rows a = m_columns a →
  ∃ d, invoke determinant a = Ok (d, a) ∧
       ∀ fuel, m_rows a ≤ fuel → invoke (determinant_rec fuel) a = Ok (d, a).
Proof.
  intros Ha Hsq. destruct (determinant_rec_fuel (m_rows a) a) as (d & Hd); [done.. |].
  exists d. split; [| done]. rewrite determinant_eq. apply Hd. lia.
Qed.

(** *** The storage of a minor *)

Lemma offset_div C r c : c < C → (r * C + c) `div` C = r.
Proof. intros Hc. symmetry. apply (Nat.div_unique _ _ r c); lia. Qed.

Lemma offset_mod C r c : c < C → (r * C + c) `mod` C = c.
Proof. intros Hc. symmetry. apply (Nat.mod_unique _ _ r c); lia. Qed.

(** A matrix described cell by cell stores its rows one after the other. *)
Lemma has_elements_data m R C g :
  has_elements m R C g → m_data m = flat_map (λ r, g r <$> seq 0 C) (seq 0 R).
Proof.
  intros Hm.
  enough (has_elements (Matrix R C (flat_map (λ r, g r <$> seq 0 C) (seq 0 R))) R C g)
    as Hm' by (by rewrite (has_elements_eq _ _ _ _ _ Hm Hm')).
  assert (∀ n, length (flat_map (λ r, g r <$> seq 0 C) (seq 0 n)) = n * C) as Hlen.
  { induction n as [|n IH]; [done |].
    rewrite seq_S, flat_map_app, length_app, IH. simpl.
    rewrite app_nil_r, length_fmap, length_seq. lia. }
  split_and!; simpl; [done | done | apply Hlen | apply Hm |].
  clear Hm. induction R as [|R IH]; intros r c Hr Hc; [lia |].
  rewrite seq_S, flat_map_app. simpl. rewrite app_nil_r.
  destruct (decide (r < R)) as [Hlt|Hge].
  - rewrite lookup_app_l by (rewrite Hlen; by apply offset_lt). by apply IH.
  - assert (r = R) as -> by lia.
    rewrite lookup_app_r by (rewrite Hlen; lia).
    rewrite Hlen, list_lookup_fmap.
    replace (R * C + c - R * C) with c by lia.
    by rewrite lookup_seq_lt.
Qed.

(** The indices below [n] other than [j], in increasing order. *)
Lemma filter_seq_ne j n :
  filter (λ c, c ≠ j) (seq 0 n) = skip j <$> seq 0 (skipped j n).
Proof.
  induction n as [|n IH].
  - by replace (skipped j 0) with 0 by (unfold skipped; case_decide; lia).
  - rewrite seq_S, filter_app, IH. simpl. destruct (decide (n = j)) as [->|Hne].
    + rewrite filter_cons_False, filter_nil, app_nil_r by (intros Hn; by apply Hn).
      by rewrite skipped_S_eq.
    + rewrite filter_cons_True, filter_nil by done.
      rewrite skipped_S, seq_S, fmap_app by done. simpl.
      by rewrite skip_skipped.
Qed.

Section KeptElements.
Variables (a : matrix T) (at_row at_column : nat).

Let position_kept (k : nat) : Prop :=
  k `div` m_columns a ≠ at_row ∧ k `mod` m_columns a ≠ at_column.

Let at_position (k : nat) : T := default T_default (m_data a !! k).

(** The part of row [row] that comes before column [n]. *)
Lemma kept_in_row row n :
  n ≤ m_columns a →
  at_position <$> filter position_kept (seq (row * m_columns a) n)
  = if decide (row = at_row) then []
    else (λ c, elem a row (skip at_column c)) <$> seq 0 (skipped at_column n).
Proof.
  induction n as [|n IH]; intros Hn.
  - replace (skipped at_column 0) with 0 by (unfold skipped; case_decide; lia).
    by case_decide.
  - rewrite seq_S, filter_app, fmap_app, IH by lia.
    assert (position_kept (row * m_columns a + n) ↔ row ≠ at_row ∧ n ≠ at_column)
      as Hkept by (unfold position_kept; by rewrite offset_div, offset_mod by lia).
    destruct (decide (row = at_row)) as [->|Hrow].
    { rewrite filter_cons_False, filter_nil by (rewrite Hkept; tauto). done. }
    destruct (decide (n = at_column)) as [->|Hcol].
    { rewrite filter_cons_False, filter_nil, app_nil_r by (rewrite Hkept; tauto).
      by rewrite skipped_S_eq. }
    rewrite filter_cons_True, filter_nil by (by rewrite Hkept).
    rewrite skipped_S, seq_S, fmap_app by done. simpl.
    by rewrite skip_skipped.
Qed.

(** The rows before row [n]. *)
Lemma kept_in_rows n :
  at_column < m_columns a →
  at_position <$> filter position_kept (seq 0 (n * m_columns a))
  = flat_map (λ r, (λ c, elem a (skip at_row r) (skip at_column c))
                     <$> seq 0 (m_columns a - 1))
             (seq 0 (skipped at_row n)).
Proof.
  intros Hj. induction n as [|n IH].
  - by replace (skipped at_row 0) with 0 by (unfold skipped; case_decide; lia).
  - replace (S n * m_columns a) with (n * m_columns a + m_columns a) by lia.
    rewrite seq_app, filter_app, fmap_app, IH. simpl.
    rewrite kept_in_row by done. destruct (decide (n = at_row)) as [->|Hrow].
    + by rewrite app_nil_r, skipped_S_eq.
    + rewrite skipped_S, seq_S, flat_map_app by done. simpl.
      rewrite app_nil_r, skip_skipped by done.
      by rewrite (skipped_all at_column (m_columns a)) by done.
Qed.

End KeptElements.

Lemma minor_data a at_row at_column r :
  wf a → at_row < m_rows a → at_column < m_columns a →
  has_elements r (m_rows a - 1) (m_columns a - 1)
    (λ row column, elem a (skip at_row row) (skip at_column column)) →
  m_data r = kept_elements a at_row at_column.
Proof.
  intros (_ & _ & Hlen & _) Hi Hj Hr. unfold kept_elements.
  rewrite Hlen, kept_in_rows by done.
  rewrite (skipped_all at_row (m_rows a)) by done.
  by apply has_elements_data in Hr.
Qed.

(** *** Assignment from a flat list *)

Lemma operator_assign_ok a operand :
  wf a → m_rows a * m_columns a = length operand →
  invoke (operator_assign operand) a
  = Ok ((), Matrix (m_rows a) (m_columns a) operand).
Proof.
  intros Ha Hlen. unfold invoke, operator_assign, mbind, M_bind. simpl.
  rewrite size_mul_fits by (by apply wf_fits).
  by rewrite Hlen, Nat.eqb_refl.
Qed.

(** The check comes first: when it fails, [m_data] is as it was. *)
Lemma operator_assign_throw a operand :
  wf a → m_rows a * m_columns a ≠ length operand →
  invoke (operator_assign operand) a = Throw ERR_INCOMPATIBLE ∧
  left_by_throw (operator_assign operand) a = Some a.
Proof.
  intros Ha Hlen. apply invoke_wpt. unfold operator_assign.
  apply wpt_bind. eapply wp_object_of; [done |].
  rewrite size_mul_fits by (by apply wf_fits).
  destruct (Nat.eqb_spec (m_rows a * m_columns a) (length operand)); [done |].
  by apply wpt_throw.
Qed.

(** *** The checks of the binary operators *)

Lemma operator_plus_throw a b :
  m_rows a ≠ m_rows b ∨ m_columns a ≠ m_columns b →
  invoke2 operator_plus a b = Throw ERR_INCOMPATIBLE.
Proof.
  intros Hne. unfold invoke2, operator_plus, mbind, M_bind. simpl.
  destruct (Nat.eqb_spec (m_rows a) (m_rows b)); [| done].
  by destruct (Nat.eqb_spec (m_columns a) (m_columns b)); [lia |].
Qed.

Lemma operator_mul_throw a b :
  m_columns a ≠ m_rows b → invoke2 operator_mul a b = Throw ERR_INCOMPATIBLE.
Proof.
  intros Hne. unfold invoke2, operator_mul, mbind, M_bind. simpl.
  by destruct (Nat.eqb_spec (m_columns a) (m_rows b)).
Qed.

(** *** Element access and construction, seen from the caller *)

Lemma invoke_operator_call a row column :
  invoke (operator_call row column) a
  = match get_element a row column with
    | Ok x => Ok (x, a)
    | Throw e => Throw e
    | AllocError => AllocError
    | Undefined => Undefined
    | OutOfFuel => OutOfFuel
    end.
Proof.
  unfold invoke, operator_call, load, object_of, lift, mbind, M_bind. simpl.
  by destruct (get_element a row column).
Qed.

Lemma invoke_operator_call_assign a row column x :
  invoke (operator_call_assign row column x) a
  = match set_element a row column x with
    | Ok a' => Ok ((), a')
    | Throw e => Throw e
    | AllocError => AllocError
    | Undefined => Undefined
    | OutOfFuel => OutOfFuel
    end.
Proof.
  unfold invoke, operator_call_assign, store, object_of, lift, assign_object,
    mbind, M_bind. simpl.
  by destruct (set_element a row column x).
Qed.

Lemma element_offset_column m row column :
  row < m_rows m → m_columns m ≤ column →
  element_offset m row column = Throw ERR_COL_RANGE.
Proof.
  intros Hr Hc. unfold element_offset. simpl.
  destruct (Nat.leb_spec (m_rows m) row); [lia |].
  by destruct (Nat.leb_spec (m_columns m) column); [| lia].
Qed.

Lemma element_offset_in_range m row column :
  row < m_rows m → column < m_columns m →
  element_offset m row column = Ok (size_add (size_mul row (m_columns m)) column).
Proof.
  intros Hr Hc. unfold element_offset. simpl.
  destruct (Nat.leb_spec (m_rows m) row); [lia |].
  by destruct (Nat.leb_spec (m_columns m) column); [lia |].
Qed.

Lemma get_element_row_range m row column :
  get_element m row column = Throw ERR_ROW_RANGE ↔ m_rows m ≤ row.
Proof.
  unfold get_element. split.
  - intros Hthrow. destruct (decide (m_rows m ≤ row)) as [|Hrow]; [done |].
    destruct (decide (m_columns m ≤ column)) as [Hcol|Hcol].
    + by rewrite element_offset_column in Hthrow by lia.
    + rewrite element_offset_in_range in Hthrow by lia.
      by destruct (m_data m !! _).
  - intros Hrow. by rewrite element_offset_row.
Qed.

Lemma get_element_col_range m row column :
  get_element m row column = Throw ERR_COL_RANGE
  ↔ row < m_rows m ∧ m_columns m ≤ column.
Proof.
  unfold get_element. split.
  - intros Hthrow. destruct (decide (m_rows m ≤ row)) as [Hrow|Hrow].
    { by rewrite element_offset_row in Hthrow. }
    destruct (decide (m_columns m ≤ column)) as [Hcol|Hcol]; [lia |].
    rewrite element_offset_in_range in Hthrow by lia. by destruct (m_data m !! _).
  - intros [Hrow Hcol]. by rewrite element_offset_column.
Qed.

Lemma set_element_row_range m row column x :
  set_element m row column x = Throw ERR_ROW_RANGE ↔ m_rows m ≤ row.
Proof.
  unfold set_element. split.
  - intros Hthrow. destruct (decide (m_rows m ≤ row)) as [|Hrow]; [done |].
    destruct (decide (m_columns m ≤ column)) as [Hcol|Hcol].
    + by rewrite element_offset_column in Hthrow by lia.
    + rewrite element_offset_in_range in Hthrow by lia. by case_decide.
  - intros Hrow. by rewrite element_offset_row.
Qed.

Lemma set_element_col_range m row column x :
  set_element m row column x = Throw ERR_COL_RANGE
  ↔ row < m_rows m ∧ m_columns m ≤ column.
Proof.
  unfold set_element. split.
  - intros Hthrow. destruct (decide (m_rows m ≤ row)) as [Hrow|Hrow].
    { by rewrite element_offset_row in Hthrow. }
    destruct (decide (m_columns m ≤ column)) as [Hcol|Hcol]; [lia |].
    rewrite element_offset_in_range in Hthrow by lia. by case_decide.
  - intros [Hrow Hcol]. by rewrite element_offset_column.
Qed.

Lemma row_vector_row_range a row :
  m_rows a ≤ row → invoke (row_vector row) a = Throw ERR_ROW_RANGE.
Proof.
  intros Hrow. unfold invoke, row_vector, mbind, M_bind. simpl.
  by destruct (Nat.leb_spec (m_rows a) row); [| lia].
Qed.

Lemma operator_minus_throw a b :
  m_rows a ≠ m_rows b ∨ m_columns a ≠ m_columns b →
  invoke2 operator_minus a b = Throw ERR_INCOMPATIBLE.
Proof.
  intros Hne. unfold invoke2, operator_minus, mbind, M_bind. simpl.
  destruct (Nat.eqb_spec (m_rows a) (m_rows b)); [| done].
  by destruct (Nat.eqb_spec (m_columns a) (m_columns b)); [lia |].
Qed.

(** *** The visitor of [transform] *)

Lemma invoke_wp_ex {A} (body : M A) a (φ : A → matrix T → Prop) :
  wp body (λ x s', ∃ a', s' This = Some a' ∧ φ x a') (frame1 a) →
  ∃ x a', invoke body a = Ok (x, a') ∧ φ x a'.
Proof.
  unfold wp, invoke. destruct (body (frame1 a)) as [s' [x| | | |]]; try done.
  intros (a' & -> & Hφ). eauto.
Qed.

Lemma transform_ok a lambda :
  wf a →
  ∃ a', invoke (transform lambda) a = Ok ((), a') ∧
        has_elements a' (m_rows a) (m_columns a)
          (λ row column, lambda row column (elem a row column)).
Proof.
  intros Ha.
  enough (∃ (u : unit) a', invoke (transform lambda) a = Ok (u, a') ∧
            has_elements a' (m_rows a) (m_columns a)
              (λ row column, lambda row column (elem a row column)))
    as ([] & a' & Hinv & Ha') by eauto.
  apply invoke_wp_ex. unfold transform. wp_rows_columns.
  set (g := λ row column r c,
         if decide (before row column r c) then lambda r c (elem a r c)
         else elem a r c).
  apply (wp_for_each2 (λ row column s,
           ∃ m, s This = Some m ∧
                has_elements m (m_rows a) (m_columns a) (g row column))).
  - exists a. split; [done |].
    eapply has_elements_ext; [by apply wf_has_elements |].
    intros r c _ _. unfold g, before. rewrite decide_False; [done | lia].
  - intros row column s Hrow Hcolumn (m & Hthis & Hm).
    apply wp_bind. eapply wp_load; [done | by eapply has_elements_get |].
    destruct (has_elements_set m _ _ _ row column
                (lambda row column (g row column row column)) Hm Hrow Hcolumn)
      as (m' & Hset & Hm').
    eapply wp_store; [done | done |].
    exists m'. split; [apply bind_object_eq |].
    eapply has_elements_ext; [done |]. intros r c _ _. simpl.
    unfold g, before. destruct (decide (r = row ∧ c = column)) as [[-> ->]|Hne].
    + rewrite decide_False by lia. rewrite decide_True; [done | lia].
    + destruct (decide (r < row ∨ r = row ∧ c < column)).
      * rewrite decide_True; [done | lia].
      * rewrite decide_False; [done | lia].
  - intros row s Hrow (m & Hthis & Hm). exists m. split; [done |].
    eapply has_elements_ext; [done |]. intros r c _ Hc. unfold g, before.
    destruct (decide (r < row ∨ r = row ∧ c < m_columns a)).
    + rewrite decide_True; [done | lia].
    + rewrite decide_False; [done | lia].
  - intros s (m & Hthis & Hm). exists m. split; [done |].
    eapply has_elements_ext; [done |]. intros r c Hr _. unfold g, before.
    rewrite decide_True; [done | lia].
Qed.

Section VisitCells.
Context {S : Type} (lambda : nat → nat → T → S → T * S) (a : matrix T) (state : S).

Lemma visit_cells_S n :
  visit_cells lambda a state (Datatypes.S n)
  = let acc := visit_cells lambda a state n in
    let y := lambda (n `div` m_columns a) (n `mod` m_columns a)
                    (default T_default (m_data a !! n)) acc.2 in
    (<[n:=y.1]> acc.1, y.2).
Proof. unfold visit_cells. by rewrite seq_S, fold_left_app. Qed.

Lemma visit_cells_length n :
  length (visit_cells lambda a state n).1 = length (m_data a).
Proof.
  induction n as [|n IH]; [done |].
  rewrite visit_cells_S. simpl. by rewrite length_insert.
Qed.

Lemma visit_cells_later n k :
  n ≤ k → (visit_cells lambda a state n).1 !! k = m_data a !! k.
Proof.
  induction n as [|n IH]; intros Hk; [done |].
  rewrite visit_cells_S. simpl.
  rewrite list_lookup_insert_ne by lia. apply IH. lia.
Qed.

Lemma transform_visiting_ok :
  wf a →
  invoke (transform_visiting lambda state) a
  = Ok ((visit_cells lambda a state (m_rows a * m_columns a)).2,
        Matrix (m_rows a) (m_columns a)
               (visit_cells lambda a state (m_rows a * m_columns a)).1).
Proof.
  intros Ha.
  set (R := m_rows a). set (C := m_columns a).
  enough (∃ x, invoke (transform_visiting lambda state) a
               = Ok (x, Matrix R C (visit_cells lambda a state (R * C)).1) ∧
               x = (visit_cells lambda a state (R * C)).2)
    as (? & ? & ->) by done.
  apply invoke_wp. unfold transform_visiting. wp_rows_columns.
  set (I := λ row column (st : S) (s : frame),
         s This = Some (Matrix R C (visit_cells lambda a state (row * C + column)).1) ∧
         st = (visit_cells lambda a state (row * C + column)).2).
  apply (wp_for_range (λ row, I row 0)).
  - split; [| done]. simpl. by destruct a.
  - intros row st s Hrow HI. apply (wp_for_range (I row)); [done | |].
    + intros column st' s' Hcolumn (Hthis & ->).
      set (k := row * C + column).
      pose proof (offset_lt R C row column Hrow Hcolumn) as Hk.
      pose proof (wf_fits a Ha) as Hfit.
      destruct Ha as (_ & _ & Hlen & _).
      destruct (lookup_lt_is_Some_2 (m_data a) k) as [x Hx]; [by rewrite Hlen |].
      apply wp_bind. eapply (wp_load _ _ _ _ x); [done | |].
      { unfold get_element. rewrite element_offset_ok by done. simpl.
        fold C k. by rewrite visit_cells_later, Hx by lia. }
      apply wp_bind. eapply wp_store; [done | |].
      { unfold set_element. rewrite element_offset_ok by done. simpl.
        fold C k. rewrite decide_True; [done |].
        rewrite visit_cells_length, Hlen. done. }
      apply wp_ret. unfold I.
      replace (row * C + Datatypes.S column) with (Datatypes.S k) by (unfold k; lia).
      rewrite visit_cells_S. simpl. fold C. rewrite Hx. simpl.
      assert (k `div` C = row) as -> by (by apply offset_div).
      assert (k `mod` C = column) as -> by (by apply offset_mod).
      split; [apply bind_object_eq | done].
    + intros st' s' (Hthis & ->). unfold I.
      by replace (Datatypes.S row * C + 0) with (row * C + C) by lia.
  - intros st s (Hthis & ->). fold R in Hthis |- *.
    replace (R * C + 0) with (R * C) in Hthis |- * by lia. by split.
Qed.

End VisitCells.

(** A visitor whose element does not depend on its state leaves the
    elements a stateless visitor would. *)
Lemma visit_cells_elements {S} (lambda : nat → nat → T → S → T * S)
    (f : nat → nat → T → T) a (state : S) n k :
  (∀ row column x st, (lambda row column x st).1 = f row column x) →
  (visit_cells lambda a state n).1 !! k
  = if decide (k < n)
    then f (k `div` m_columns a) (k `mod` m_columns a) <$> m_data a !! k
    else m_data a !! k.
Proof.
  intros Hf. induction n as [|n IH].
  - by rewrite decide_False by lia.
  - rewrite visit_cells_S. simpl. rewrite Hf.
    destruct (decide (k = n)) as [->|Hne].
    + rewrite decide_True by lia.
      destruct (decide (n < length (m_data a))) as [Hlt|Hge].
      * rewrite list_lookup_insert_eq by (by rewrite visit_cells_length).
        by destruct (lookup_lt_is_Some_2 (m_data a) n Hlt) as [x ->].
      * rewrite list_insert_ge by (rewrite visit_cells_length; lia).
        rewrite visit_cells_later by done.
        by rewrite lookup_ge_None_2 by lia.
    + rewrite list_lookup_insert_ne by done. rewrite IH.
      destruct (decide (k < n)).
      * by rewrite decide_True by lia.
      * by rewrite decide_False by lia.
Qed.

Lemma visit_cells_has_elements {S} (lambda : nat → nat → T → S → T * S)
    (f : nat → nat → T → T) a (state : S) :
  wf a →
  (∀ row column x st, (lambda row column x st).1 = f row column x) →
  has_elements
    (Matrix (m_rows a) (m_columns a)
            (visit_cells lambda a state (m_rows a * m_columns a)).1)
    (m_rows a) (m_columns a) (λ row column, f row column (elem a row column)).
Proof.
  intros Ha Hf. pose proof (wf_has_elements a Ha) as (_ & _ & Hlen & Hfit & Hdata).
  split_and!; simpl; [done | done | by rewrite visit_cells_length | done |].
  intros r c Hr Hc. rewrite (visit_cells_elements lambda f) by done.
  rewrite decide_True by (by apply offset_lt).
  by rewrite offset_div, offset_mod, Hdata by done.
Qed.

(** A visitor that appends the cell it is called on to a log. *)
Lemma visit_cells_log (f : nat → nat → T → T) a (log : list (nat * nat * T)) n :
  (visit_cells (λ row column x log, (f row column x, log ++ [(row, column, x)]))
               a log n).2
  = log ++ ((λ k, (k `div` m_columns a, k `mod` m_columns a,
                   default T_default (m_data a !! k))) <$> seq 0 n).
Proof.
  induction n as [|n IH].
  - by rewrite app_nil_r.
  - rewrite visit_cells_S. cbn zeta. cbn [fst snd].
    rewrite IH, seq_S, fmap_app. cbn [fmap list_fmap]. simpl.
    by rewrite app_assoc.
Qed.

(** *** [minor] outside its domain *)

#[local] Abbreviation wpu := (@wpu T _).

Lemma wp_wpu {A} (c : M A) Q s : wp c Q s → wpu c Q s.
Proof. unfold wp, wpu. by destruct (c s) as [s' [x| | | |]]. Qed.

Lemma wpu_ret {A} (x : A) Q s : Q x s → wpu (mret x) Q s.
Proof. done. Qed.

Lemma wpu_bind {A B} (c : M A) (f : A → M B) Q s :
  wpu c (λ x s', wpu (f x) Q s') s → wpu (c ≫= f) Q s.
Proof.
  unfold wpu, mbind, M_bind. by destruct (c s) as [s' [x| | | |]].
Qed.

Lemma wpu_mono {A} (c : M A) (Q Q' : A → frame → Prop) s :
  wpu c Q s → (∀ x s', Q x s' → Q' x s') → wpu c Q' s.
Proof. unfold wpu. destruct (c s) as [s' [x| | | |]]; auto. Qed.

Lemma wpu_for_from {A} (I : nat → A → frame → Prop) count body :
  ∀ start (acc : A) s,
    I start acc s →
    (∀ i acc s, start ≤ i < start + count → I i acc s → wpu (body i acc) (I (S i)) s) →
    wpu (for_from start count body acc) (I (start + count)) s.
Proof.
  induction count as [|count IH]; intros start acc s HI Hbody; simpl.
  - apply wpu_ret. by replace (start + 0) with start by lia.
  - apply wpu_bind. eapply wpu_mono; [apply Hbody; [lia | done] |].
    intros acc' s' HI'. replace (start + S count) with (S start + count) by lia.
    apply IH; [done |]. intros i acc'' s'' Hi. apply Hbody. lia.
Qed.

Lemma wpu_for_range {A} (I : nat → A → frame → Prop) n body (acc : A) Q s :
  I 0 acc s →
  (∀ i acc s, i < n → I i acc s → wpu (body i acc) (I (S i)) s) →
  (∀ acc s, I n acc s → Q acc s) →
  wpu (for_range n body acc) Q s.
Proof.
  intros HI Hbody HQ. eapply wpu_mono; [| apply HQ].
  apply (wpu_for_from I n body 0); [done |]. intros i ? ? Hi. apply Hbody. lia.
Qed.

Lemma wpu_store_data o index x (Q : unit → frame → Prop) s :
  (∀ m m', s o = Some m → set_data m index x = Ok m' → Q () (bind_object o m' s)) →
  wpu (store_data o index x) Q s.
Proof.
  intros HQ. unfold wpu, store_data, object_of, lift, assign_object, mbind, M_bind.
  destruct (s o) as [m|] eqn:Ho; [| done].
  unfold set_data in *. specialize (HQ m).
  destruct (decide (index < length (m_data m))); [| done]. by apply HQ.
Qed.

Lemma set_data_inv m index x m' :
  set_data m index x = Ok m' →
  index < length (m_data m) ∧ length (m_data m') = length (m_data m).
Proof.
  unfold set_data. case_decide; [| done]. intros [= <-]. simpl.
  by rewrite length_insert.
Qed.

(** With an index outside the matrix, the loops of [minor] keep more cells
    than [result] has room for: the unchecked [result.m_data[index++]]
    ends up past the end of the storage. *)
Lemma minor_out_of_range a at_row at_column :
  wf a → 2 ≤ m_rows a → 2 ≤ m_columns a →
  m_rows a ≤ at_row ∨ m_columns a ≤ at_column →
  invoke (minor at_row at_column) a = Undefined.
Proof.
  intros Ha HR HC Hout.
  enough (wpu (minor at_row at_column) (λ _ _, False) (frame1 a)) as Hwpu.
  { unfold wpu in Hwpu. unfold invoke.
    by destruct (minor at_row at_column (frame1 a)) as [s' [x| | | |]]. }
  unfold minor.
  apply wpu_bind, wp_wpu. eapply wp_rows_of; [done |].
  apply wpu_bind, wp_wpu. eapply wp_columns_of; [done |].
  rewrite !size_sub_fits by (lia || fits_wf Ha).
  assert (fits ((m_rows a - 1) * (m_columns a - 1))) as Hfit by fits_wf Ha.
  apply wpu_bind, wp_wpu.
  eapply wp_construct; [apply new_matrix_ok; [lia | lia | done] |].
  set (N := (m_rows a - 1) * (m_columns a - 1)) in *.
  set (W := skipped at_column (m_columns a)).
  set (cc := λ row column, if decide (row = at_row) then 0 else skipped at_column column).
  set (I := λ row column index (s : frame),
         s This = Some a ∧
         ∃ m, s Result = Some m ∧ length (m_data m) = N ∧ index ≤ N ∧
              index = skipped at_row row * W + cc row column).
  assert (skipped at_column 0 = 0) as Hskip0 by (unfold skipped; case_decide; lia).
  apply wpu_bind.
  apply (wpu_for_range (λ row, I row 0)).
  - split; [done |]. eexists. split; [apply bind_object_eq |]. simpl.
    rewrite length_replicate. split; [done |]. split; [lia |].
    unfold cc. rewrite Hskip0. unfold skipped. repeat case_decide; lia.
  - intros row index s Hrow HI.
    apply (wpu_for_range (I row)); [done | |].
    + intros column index' s' Hcol (Hthis & m & Hres & Hlen & Hle & Hidx).
      destruct (Nat.eqb_spec row at_row) as [->|Hrow_ne].
      { apply wpu_ret. split; [done |]. exists m. split; [done |].
        unfold cc in *. by rewrite !decide_True in * by done. }
      destruct (Nat.eqb_spec column at_column) as [->|Hcol_ne].
      { apply wpu_ret. split; [done |]. exists m. split; [done |].
        unfold cc in *. rewrite !decide_False in * by done.
        by rewrite skipped_S_eq. }
      apply wpu_bind, wp_wpu.
      eapply wp_load; [done | by apply get_element_elem |].
      apply wpu_bind, wpu_store_data. intros m0 m' Hres' Hset.
      rewrite Hres in Hres'. injection Hres' as <-.
      apply set_data_inv in Hset as [Hlt Hlen'].
      rewrite size_add_fits by (eapply fits_le; [| exact Hfit]; lia).
      apply wpu_ret. split; [done |]. exists m'. split; [apply bind_object_eq |].
      split; [lia |]. split; [lia |].
      unfold cc in *. rewrite !decide_False in * by done.
      rewrite skipped_S by done. lia.
    + intros index' s' (Hthis & m & Hres & Hlen & Hle & Hidx).
      split; [done |]. exists m. split; [done |]. split; [done |]. split; [done |].
      unfold cc in *. rewrite Hskip0. fold W in Hidx.
      destruct (decide (row = at_row)) as [->|Hrow_ne].
      * rewrite skipped_S_eq. case_decide; lia.
      * rewrite skipped_S by done. case_decide; lia.
  - intros index s (Hthis & m & Hres & Hlen & Hle & Hidx). exfalso.
    unfold cc in Hidx. rewrite Hskip0 in Hidx.
    assert (N < skipped at_row (m_rows a) * W); [| case_decide; lia].
    unfold N, W, skipped.
    destruct (decide (at_row < m_rows a)), (decide (at_column < m_columns a));
      [lia | | |].
    + assert ((m_rows a - 1) * (m_columns a - 1) + (m_rows a - 1) * 1
              = (m_rows a - 1) * m_columns a) by (rewrite <- Nat.mul_add_distr_l; f_equal; lia).
      lia.
    + assert ((m_rows a - 1) * (m_columns a - 1) + 1 * (m_columns a - 1)
              = m_rows a * (m_columns a - 1)) by (rewrite <- Nat.mul_add_distr_r; f_equal; lia).
      lia.
    + assert ((m_rows a - 1) * (m_columns a - 1) + 1 * (m_columns a - 1)
              = m_rows a * (m_columns a - 1)) by (rewrite <- Nat.mul_add_distr_r; f_equal; lia).
      assert (m_rows a * (m_columns a - 1) ≤ m_rows a * m_columns a)
        by (apply Nat.mul_le_mono_l; lia).
      lia.
Qed.

Lemma minor_invalid_size a at_row at_column :
  wf a → m_rows a ≤ 1 ∨ m_columns a ≤ 1 →
  invoke (minor at_row at_column) a = Throw ERR_INVALID_SIZE ∧
  left_by_throw (minor at_row at_column) a = Some a.
Proof.
  intros Ha Hsmall. apply invoke_wpt. unfold minor.
  apply wpt_bind; eapply wp_rows_of; [reflexivity |].
  apply wpt_bind; eapply wp_columns_of; [reflexivity |].
  rewrite !size_sub_fits by (apply Ha || fits_wf Ha).
  apply wpt_bind_throw. unfold construct. apply wpt_bind_throw, wpt_lift; [| done].
  apply new_matrix_throw. lia.
Qed.

(** *** The product never fails with one of the errors of the library
    once the shapes are compatible *)

#[local] Abbreviation wnt := (@wnt T _).

Lemma wp_wnt {A} (c : M A) Q s : wp c Q s → wnt c Q s.
Proof. unfold wp, wnt. by destruct (c s) as [s' [x| | | |]]. Qed.

Lemma wnt_bind {A B} (c : M A) (f : A → M B) Q s :
  wnt c (λ x s', wnt (f x) Q s') s → wnt (c ≫= f) Q s.
Proof.
  unfold wnt, mbind, M_bind. by destruct (c s) as [s' [x| | | |]].
Qed.

Lemma wnt_mono {A} (c : M A) (Q Q' : A → frame → Prop) s :
  wnt c Q s → (∀ x s', Q x s' → Q' x s') → wnt c Q' s.
Proof. unfold wnt. destruct (c s) as [s' [x| | | |]]; auto. Qed.

Lemma wnt_for_from {A} (I : nat → A → frame → Prop) count body :
  ∀ start (acc : A) s,
    I start acc s →
    (∀ i acc s, start ≤ i < start + count → I i acc s → wnt (body i acc) (I (S i)) s) →
    wnt (for_from start count body acc) (I (start + count)) s.
Proof.
  induction count as [|count IH]; intros start acc s HI Hbody; simpl.
  - apply wp_wnt, wp_ret. by replace (start + 0) with start by lia.
  - apply wnt_bind. eapply wnt_mono; [apply Hbody; [lia | done] |].
    intros acc' s' HI'. replace (start + S count) with (S start + count) by lia.
    apply IH; [done |]. intros i acc'' s'' Hi. apply Hbody. lia.
Qed.

Lemma wnt_for_each (I : frame → Prop) n body Q s :
  I s →
  (∀ i s, i < n → I s → wnt (body i) (λ _, I) s) →
  (∀ s, I s → Q () s) →
  wnt (for_each n body) Q s.
Proof.
  intros HI Hbody HQ. unfold for_each, for_range.
  eapply wnt_mono; [apply (wnt_for_from (λ _ _, I) n _ 0); [done |] |].
  - intros i ? ? Hi. apply Hbody. lia.
  - intros [] ?. apply HQ.
Qed.

(** Inside the shape of the object, [o(row, column)] passes the two checks
    of [operator()]. *)
Lemma wnt_load o m row column Q s :
  s o = Some m → row < m_rows m → column < m_columns m → (∀ x, Q x s) →
  wnt (load o row column) Q s.
Proof.
  intros Ho Hrow Hcolumn HQ. apply wnt_bind, wp_wnt. eapply wp_object_of; [done |].
  unfold wnt, lift, get_element. rewrite element_offset_in_range by done.
  by destruct (m_data m !! _).
Qed.

Lemma wnt_store o m row column x (Q : unit → frame → Prop) s :
  s o = Some m → row < m_rows m → column < m_columns m →
  (∀ m', m_rows m' = m_rows m → m_columns m' = m_columns m →
         Q () (bind_object o m' s)) →
  wnt (store o row column x) Q s.
Proof.
  intros Ho Hrow Hcolumn HQ. apply wnt_bind, wp_wnt. eapply wp_object_of; [done |].
  unfold wnt, lift, set_element, mbind, M_bind.
  rewrite element_offset_in_range by done.
  case_decide; [| done]. simpl. by apply HQ.
Qed.

Lemma operator_mul_no_throw a b e :
  wf a → wf b → m_columns a = m_rows b → invoke2 operator_mul a b ≠ Throw e.
Proof.
  intros Ha Hb HCR.
  enough (wnt operator_mul (λ _ _, True) (frame2 a b)) as Hwnt.
  { unfold wnt in Hwnt. unfold invoke2.
    destruct (operator_mul (frame2 a b)) as [s' [x| | | |]]; try done.
    by destruct (s' This), (s' Operand). }
  unfold operator_mul.
  apply wnt_bind, wp_wnt. eapply wp_rows_of; [done |].
  apply wnt_bind, wp_wnt. eapply wp_columns_of; [done |].
  apply wnt_bind, wp_wnt. eapply wp_rows_of; [done |].
  apply wnt_bind, wp_wnt. eapply wp_columns_of; [done |].
  rewrite <- HCR, Nat.eqb_refl. simpl.
  set (I := λ s : frame,
         s This = Some a ∧ s Operand = Some b ∧
         ∃ m, s Result = Some m ∧ m_rows m = m_rows a ∧ m_columns m = m_columns b).
  apply wnt_bind.
  apply (wnt_mono _ (λ _, I)).
  { unfold construct. apply wnt_bind.
    unfold wnt at 1, lift.
    rewrite new_matrix_eq by (apply Ha || apply Hb).
    destruct (_ <? _)%N; [done |].
    apply wp_wnt, wp_assign_object. split_and!; [done | done |].
    eexists. split; [apply bind_object_eq | done]. }
  intros [] s HI. apply wnt_bind.
  apply (wnt_for_each I); [done | | ].
  - intros row s1 Hrow HI1. apply (wnt_for_each I); [done | | done].
    intros column s2 Hcolumn HI2. apply (wnt_for_each I); [done | | done].
    intros k s3 Hk (Hthis & Hop & m & Hres & HR & HC).
    apply wnt_bind. eapply wnt_load; [done | lia | lia |]. intros acc.
    apply wnt_bind. eapply wnt_load; [done | lia | lia |]. intros x.
    apply wnt_bind. eapply wnt_load; [done | lia | lia |]. intros y.
    eapply wnt_store; [done | lia | lia |]. intros m' HR' HC'.
    split_and!; [done | done |]. exists m'.
    split; [apply bind_object_eq | lia].
  - intros s1 (Hthis & Hop & m & Hres & _).
    apply wp_wnt. by eapply wp_object_of.
Qed.

(** *** Reading the description of a matrix *)

Lemma has_elements_wf_elem m R C g :
  has_elements m R C g → 1 ≤ R → 1 ≤ C →
  wf m ∧ m_rows m = R ∧ m_columns m = C ∧
  ∀ row column, row < R → column < C → elem m row column = g row column.
Proof.
  intros Hm HR HC. split; [by eapply has_elements_wf |].
  split; [apply Hm |]. split; [apply Hm |].
  intros row column Hrow Hcolumn. by eapply has_elements_elem.
Qed.

Lemma dot_product_ext a b a' b' row column row' column' n :
  (∀ k, k < n → elem a row k = elem a' row' k) →
  (∀ k, k < n → elem b k column = elem b' k column') →
  dot_product a b row column n = dot_product a' b' row' column' n.
Proof.
  induction n as [|n IH]; intros Ha Hb; [done |].
  rewrite !dot_product_S, IH, Ha, Hb by auto with lia. done.
Qed.

(** *** The class invariant *)

Lemma set_element_wf m row column x m' :
  wf m → set_element m row column x = Ok m' → wf m'.
Proof.
  intros (HR & HC & Hlen & Hfit). unfold set_element.
  destruct (element_offset m row column) as [i| | | |]; try done.
  case_decide; [| done]. intros [= <-].
  split_and!; simpl; [done | done | by rewrite length_insert | by rewrite length_insert].
Qed.

Lemma wpt_load o m row column e Q s :
  s o = Some m → get_element m row column = Throw e → Q s →
  wpt (load o row column) e Q s.
Proof.
  intros Ho Hget HQ. apply wpt_bind. eapply wp_object_of; [done |].
  by apply wpt_lift.
Qed.

Lemma wpt_store o m row column x e Q s :
  s o = Some m → set_element m row column x = Throw e → Q s →
  wpt (store o row column x) e Q s.
Proof.
  intros Ho Hset HQ. apply wpt_bind. eapply wp_object_of; [done |].
  by apply wpt_bind_throw, wpt_lift.
Qed.

Lemma throws {A} (body : M A) a e (φ : A → Prop) :
  wpt body e (λ s', s' This = Some a) (frame1 a) → returns_or_throws body a φ.
Proof. intros Hwpt. right. exists e. by apply invoke_wpt. Qed.

Lemma throws2 {A} (body : M A) a b e (φ : A → Prop) :
  wpt body e (λ s', s' This = Some a ∧ s' Operand = Some b) (frame2 a b) →
  returns_or_throws2 body a b φ.
Proof. intros Hwpt. right. exists e. by apply invoke2_wpt. Qed.

Lemma operator_call_defined a row column :
  wf a → returns_or_throws (operator_call row column) a (λ _, True).
Proof.
  intros Ha. unfold operator_call.
  destruct (decide (m_rows a ≤ row)) as [Hrow|Hrow].
  { eapply throws, wpt_load; [done | by apply get_element_row_range | done]. }
  destruct (decide (m_columns a ≤ column)) as [Hcolumn|Hcolumn].
  { eapply throws, wpt_load; [done | apply get_element_col_range; lia | done]. }
  left. exists (elem a row column), a. split; [| done].
  pose proof (invoke_operator_call a row column) as Hinv.
  unfold operator_call in Hinv. rewrite Hinv.
  by rewrite get_element_elem by (done || lia).
Qed.

Lemma operator_call_assign_defined a row column x :
  wf a → returns_or_throws (operator_call_assign row column x) a (λ _, True).
Proof.
  intros Ha. unfold operator_call_assign.
  destruct (decide (m_rows a ≤ row)) as [Hrow|Hrow].
  { eapply throws, wpt_store; [done | by apply set_element_row_range | done]. }
  destruct (decide (m_columns a ≤ column)) as [Hcolumn|Hcolumn].
  { eapply throws, wpt_store; [done | apply set_element_col_range; lia | done]. }
  destruct (has_elements_set a _ _ _ row column x (wf_has_elements a Ha))
    as (a' & Hset & Ha'); [lia | lia |].
  left. exists (), a'. split; [| split; [done |]].
  - pose proof (invoke_operator_call_assign a row column x) as Hinv.
    unfold operator_call_assign in Hinv. by rewrite Hinv, Hset.
  - by eapply set_element_wf.
Qed.

Lemma operator_assign_defined a operand :
  wf a → returns_or_throws (operator_assign operand) a (λ _, True).
Proof.
  intros Ha. destruct (decide (m_rows a * m_columns a = length operand)) as [Hlen|Hlen].
  - left. eexists (), _. split; [by apply operator_assign_ok |]. split; [done |].
    destruct Ha as (HR & HC & Hlen' & Hfit).
    split_and!; simpl; [done | done | done | by rewrite <- Hlen, <- Hlen'].
  - right. exists ERR_INCOMPATIBLE. by apply operator_assign_throw.
Qed.

Lemma row_vector_defined a row : wf a → returns_or_throws (row_vector row) a wf.
Proof.
  intros Ha. destruct (decide (row < m_rows a)) as [Hrow|Hrow].
  - destruct (row_vector_ok a row Ha Hrow) as (r & Hinv & Hr).
    left. exists r, a. split; [done |]. split; [| done].
    eapply has_elements_wf; [done | done | apply Ha].
  - apply (throws _ _ ERR_ROW_RANGE). unfold row_vector.
    apply wpt_bind; eapply wp_rows_of; [reflexivity |].
    apply wpt_bind; eapply wp_columns_of; [reflexivity |].
    destruct (Nat.leb_spec (m_rows a) row); [| lia]. by apply wpt_throw.
Qed.

Lemma column_vector_defined a column :
  wf a → returns_or_throws (column_vector column) a wf.
Proof.
  intros Ha. destruct (decide (column < m_columns a)) as [Hcolumn|Hcolumn].
  - destruct (decide (m_rows a ≤ m_columns a)) as [Hle|Hlt].
    + destruct (column_vector_ok a column Ha Hcolumn Hle) as (r & Hinv & Hr).
      left. exists r, a. split; [done |]. split; [| done].
      eapply has_elements_wf; [done | apply Ha | done].
    + apply (throws _ _ ERR_ROW_RANGE), column_vector_row_range_wpt; [done | done | lia].
  - apply (throws _ _ ERR_COL_RANGE). unfold column_vector.
    apply wpt_bind; eapply wp_rows_of; [reflexivity |].
    apply wpt_bind; eapply wp_columns_of; [reflexivity |].
    destruct (Nat.leb_spec (m_columns a) column); [| lia]. by apply wpt_throw.
Qed.

Lemma transform_defined a lambda :
  wf a → returns_or_throws (transform lambda) a (λ _, True).
Proof.
  intros Ha. destruct (transform_ok a lambda Ha) as (a' & Hinv & Ha').
  left. exists (), a'. split; [done |]. split; [done |].
  eapply has_elements_wf; [done | apply Ha | apply Ha].
Qed.

Lemma operator_plus_defined a b :
  wf a → wf b → returns_or_throws2 operator_plus a b wf.
Proof.
  intros Ha Hb.
  destruct (decide (m_rows a = m_rows b ∧ m_columns a = m_columns b)) as [[HR HC]|Hne].
  - destruct (operator_plus_ok a b Ha Hb HR HC) as (r & Hinv & Hr).
    left. exists r. split; [done |].
    eapply has_elements_wf; [done | apply Ha | apply Ha].
  - apply (throws2 _ _ _ ERR_INCOMPATIBLE). unfold operator_plus.
    apply wpt_bind; eapply wp_rows_of; [reflexivity |].
    apply wpt_bind; eapply wp_columns_of; [reflexivity |].
    apply wpt_bind; eapply wp_rows_of; [reflexivity |].
    apply wpt_bind; eapply wp_columns_of; [reflexivity |].
    destruct (Nat.eqb_spec (m_rows a) (m_rows b)); simpl; [| by apply wpt_throw].
    destruct (Nat.eqb_spec (m_columns a) (m_columns b)); simpl; [| by apply wpt_throw].
    tauto.
Qed.

Lemma operator_minus_defined a b :
  wf a → wf b → returns_or_throws2 operator_minus a b wf.
Proof.
  intros Ha Hb.
  destruct (decide (m_rows a = m_rows b ∧ m_columns a = m_columns b)) as [[HR HC]|Hne].
  - destruct (operator_minus_ok a b Ha Hb HR HC) as (r & Hinv & Hr).
    left. exists r. split; [done |].
    eapply has_elements_wf; [done | apply Ha | apply Ha].
  - apply (throws2 _ _ _ ERR_INCOMPATIBLE). unfold operator_minus.
    apply wpt_bind; eapply wp_rows_of; [reflexivity |].
    apply wpt_bind; eapply wp_columns_of; [reflexivity |].
    apply wpt_bind; eapply wp_rows_of; [reflexivity |].
    apply wpt_bind; eapply wp_columns_of; [reflexivity |].
    destruct (Nat.eqb_spec (m_rows a) (m_rows b)); simpl; [| by apply wpt_throw].
    destruct (Nat.eqb_spec (m_columns a) (m_columns b)); simpl; [| by apply wpt_throw].
    tauto.
Qed.

Lemma operator_neg_defined a : wf a → returns_or_throws operator_neg a wf.
Proof.
  intros Ha. destruct (operator_neg_ok a Ha) as (r & Hinv & Hr).
  left. exists r, a. split; [done |]. split; [| done].
  eapply has_elements_wf; [done | apply Ha | apply Ha].
Qed.

Lemma operator_mul_scalar_defined a operand :
  wf a → returns_or_throws (operator_mul_scalar operand) a wf.
Proof.
  intros Ha. destruct (operator_mul_scalar_ok a operand Ha) as (r & Hinv & Hr).
  left. exists r, a. split; [done |]. split; [| done].
  eapply has_elements_wf; [done | apply Ha | apply Ha].
Qed.

Lemma operator_mul_defined a b :
  wf a → wf b → fits (m_rows a * m_columns b) →
  returns_or_throws2 operator_mul a b wf.
Proof.
  intros Ha Hb Hfit. destruct (decide (m_columns a = m_rows b)) as [HCR|Hne].
  - destruct (operator_mul_ok a b Ha Hb HCR Hfit) as (r & Hinv & Hr).
    left. exists r. split; [done |].
    eapply has_elements_wf; [done | apply Ha | apply Hb].
  - apply (throws2 _ _ _ ERR_INCOMPATIBLE). unfold operator_mul.
    apply wpt_bind; eapply wp_rows_of; [reflexivity |].
    apply wpt_bind; eapply wp_columns_of; [reflexivity |].
    apply wpt_bind; eapply wp_rows_of; [reflexivity |].
    apply wpt_bind; eapply wp_columns_of; [reflexivity |].
    destruct (Nat.eqb_spec (m_columns a) (m_rows b)); simpl; [done |].
    by apply wpt_throw.
Qed.

Lemma transpose_defined a : wf a → returns_or_throws transpose a wf.
Proof.
  intros Ha. destruct (transpose_ok a Ha) as (r & Hinv & Hr).
  left. exists r, a. split; [done |]. split; [| done].
  eapply has_elements_wf; [done | apply Ha | apply Ha].
Qed.

Lemma minor_defined a at_row at_column :
  wf a → at_row < m_rows a → at_column < m_columns a →
  returns_or_throws (minor at_row at_column) a wf.
Proof.
  intros Ha Hi Hj.
  destruct (decide (2 ≤ m_rows a ∧ 2 ≤ m_columns a)) as [[HR HC]|Hsmall].
  - destruct (minor_ok a at_row at_column Ha HR HC Hi Hj) as (r & Hinv & Hr).
    left. exists r, a. split; [done |]. split; [| done].
    eapply has_elements_wf; [done | lia | lia].
  - right. exists ERR_INVALID_SIZE. apply minor_invalid_size; [done | lia].
Qed.

Lemma determinant_defined a : wf a → returns_or_throws determinant a (λ _, True).
Proof.
  intros Ha. destruct (decide (m_rows a = m_columns a)) as [Hsq|Hne].
  - destruct (determinant_ok a Ha Hsq) as (d & Hinv & _).
    left. by exists d, a.
  - apply (throws _ _ ERR_NOT_SQUARE). unfold determinant.
    apply wpt_bind; eapply wp_rows_of; [reflexivity |]. simpl.
    apply wpt_bind; eapply wp_rows_of; [reflexivity |].
    apply wpt_bind; eapply wp_columns_of; [reflexivity |].
    destruct (Nat.eqb_spec (m_rows a) (m_columns a)); [done |]. by apply wpt_throw.
Qed.

End Properties.

(** * The claims *)

Ltac example_wf := unfold wf, fits; simpl; lia.

(** C1 (the code departs from it).  [operator-()] negates the elements of
    the zero-filled [result] it has just constructed and never reads
    [*this]: for [[1, 2], [3, 4]] it returns [[0, 0], [0, 0]], every element
    being [-T()], where unary negation of the operand is
    [[-1, -2], [-3, -4]].  The shape is the operand's and the operand is
    left as it was. *)
Theorem operator_neg_example :
  invoke operator_neg example_2x2 = Ok (Matrix 2 2 [0; 0; 0; 0]%Z, example_2x2) ∧
  get_element example_2x2 0 0 = Ok 1%Z ∧
  T_neg 1%Z = (-1)%Z ∧
  get_element (Matrix 2 2 [0; 0; 0; 0]%Z) 0 0 = Ok (T_neg T_default).
Proof. by vm_compute. Qed.

(** C3.  For every matrix [a] and scalar [operand], [a * operand] returns a
    new matrix of the shape of [a] whose every element is [T() + operand],
    whatever the elements of [a]; the call does not fail and leaves [a] as
    it was. *)
Theorem operator_mul_scalar_spec {platform : Platform} {T} `{Element T}
    (a : matrix T) (operand : T) :
  wf a →
  ∃ r, invoke (operator_mul_scalar operand) a = Ok (r, a) ∧
       m_rows r = m_rows a ∧ m_columns r = m_columns a ∧
       m_data r = replicate (m_rows a * m_columns a) (T_add T_default operand) ∧
       ∀ row column, row < m_rows a → column < m_columns a →
         get_element r row column = Ok (T_add T_default operand).
Proof.
  intros Ha. destruct (operator_mul_scalar_ok a operand Ha) as (r & Hinv & Hr).
  exists r. split; [done |].
  pose proof (wf_fits a Ha) as Hfit.
  pose proof (has_elements_eq _ _ _ _ _ Hr
                (has_elements_new (m_rows a) (m_columns a) (T_add T_default operand)
                                  Hfit))
    as ->.
  split_and!; [done | done | done |].
  intros row column Hrow Hcolumn.
  by apply (has_elements_get _ _ _ _ _ _ (has_elements_new _ _ _ Hfit)).
Qed.

Lemma operator_mul_scalar_spec_witness :
  wf example_2x2 ∧
  ∃ r, invoke (operator_mul_scalar 7%Z) example_2x2 = Ok (r, example_2x2) ∧
       m_data r = [7; 7; 7; 7]%Z.
Proof.
  assert (wf example_2x2) as Ha by example_wf. split; [exact Ha |].
  destruct (operator_mul_scalar_spec example_2x2 7%Z Ha)
    as (r & Hinv & _ & _ & Hdata & _).
  exists r. split; [exact Hinv | exact Hdata].
Defined.

(** C4, as the code has it.  [column_vector(c)] fails with the column range
    error exactly when [c >= a.columns].  For [c < a.columns] and
    [a.rows <= a.columns] it returns a result of shape [(a.columns, 1)],
    not [(a.rows, 1)], with [a(row, c)] at [result(row, 0)] for every [row]
    in [[0, a.rows)], and [a] is left as it was. *)
Theorem column_vector_spec {platform : Platform} {T} `{Element T}
    (a : matrix T) (column : nat) :
  wf a →
  (invoke (column_vector column) a = Throw ERR_COL_RANGE ↔ m_columns a ≤ column) ∧
  (column < m_columns a → m_rows a ≤ m_columns a →
   ∃ r, invoke (column_vector column) a = Ok (r, a) ∧
        m_rows r = m_columns a ∧ m_columns r = 1 ∧
        ∀ row, row < m_rows a →
          ∃ x, get_element a row column = Ok x ∧ get_element r row 0 = Ok x).
Proof.
  intros Ha. split.
  - split; [| apply column_vector_col_range].
    intros Hthrow. destruct (decide (m_columns a ≤ column)) as [|Hlt]; [done |].
    destruct (decide (m_rows a ≤ m_columns a)) as [Hle|Hgt].
    + destruct (column_vector_ok a column) as (r & Hinv & _); [done | lia | done |].
      by rewrite Hinv in Hthrow.
    + rewrite column_vector_row_range in Hthrow by (done || lia). done.
  - intros Hcolumn Hle.
    destruct (column_vector_ok a column Ha Hcolumn Hle) as (r & Hinv & Hr).
    exists r. split; [done |]. split; [apply Hr |]. split; [apply Hr |].
    intros row Hrow. exists (elem a row column).
    split; [by apply get_element_elem |].
    rewrite (has_elements_get _ _ _ _ row 0 Hr) by lia.
    by rewrite decide_True.
Qed.

Lemma column_vector_spec_witness :
  wf example_2x3 ∧
  ∃ r, invoke (column_vector 1) example_2x3 = Ok (r, example_2x3) ∧
       m_rows r = 3 ∧ m_columns r = 1.
Proof.
  assert (wf example_2x3) as Ha by example_wf. split; [exact Ha |].
  destruct (column_vector_spec example_2x3 1 Ha) as (_ & Hok).
  destruct Hok as (r & Hinv & HR & HC & _); [simpl; lia | simpl; lia |].
  exists r. split; [exact Hinv |]. split; [exact HR | exact HC].
Defined.

(** C4 as stated fails on [[1], [2]] (two rows, one column) and the valid
    column 0: the call throws the row range error instead of placing
    [a(1, 0)] at [result(1, 0)]. *)
Lemma column_vector_counterexample :
  wf example_2x1 ∧ 0 < m_columns example_2x1 ∧
  get_element example_2x1 1 0 = Ok 2%Z ∧
  invoke (column_vector 0) example_2x1 = Throw ERR_ROW_RANGE ∧
  ¬ ∃ r a', invoke (column_vector 0) example_2x1 = Ok (r, a') ∧
            get_element r 1 0 = Ok 2%Z.
Proof.
  split; [example_wf |]. split; [simpl; lia |]. split; [by vm_compute |].
  split; [by vm_compute |]. by intros (r & a' & Hinv & _).
Qed.

(** C5.  With more rows than columns, [column_vector(c)] on a valid column
    [c] fails with the row range error: at [row = a.columns] the element
    [a(row, c)] is read, and indexing the [(a.columns, 1)] result at that
    row is what throws.  With fewer rows than columns the call returns a
    matrix of shape [(a.columns, 1)] whose entries from [a.rows] on are
    [T()]. *)
Theorem column_vector_shape_mismatch {platform : Platform} {T} `{Element T}
    (a : matrix T) (column : nat) :
  wf a → column < m_columns a →
  (m_columns a < m_rows a →
   invoke (column_vector column) a = Throw ERR_ROW_RANGE ∧
   (∃ x, get_element a (m_columns a) column = Ok x) ∧
   ∀ (r : matrix T) x, m_rows r = m_columns a →
     set_element r (m_columns a) 0 x = Throw ERR_ROW_RANGE) ∧
  (m_rows a < m_columns a →
   ∃ r, invoke (column_vector column) a = Ok (r, a) ∧
        m_rows r = m_columns a ∧ m_columns r = 1 ∧
        ∀ row, m_rows a ≤ row < m_columns a →
          get_element r row 0 = Ok T_default).
Proof.
  intros Ha Hcolumn. split.
  - intros Hgt. split_and!.
    + by apply column_vector_row_range.
    + eexists. by apply get_element_elem.
    + intros r x Hr. unfold set_element.
      by rewrite element_offset_row by lia.
  - intros Hlt.
    destruct (column_vector_ok a column Ha Hcolumn) as (r & Hinv & Hr); [lia |].
    exists r. split; [done |]. split; [apply Hr |]. split; [apply Hr |].
    intros row Hrow.
    rewrite (has_elements_get _ _ _ _ row 0 Hr) by lia.
    by rewrite decide_False by lia.
Qed.

Lemma column_vector_shape_mismatch_witness :
  (wf example_2x1 ∧ 0 < m_columns example_2x1) ∧
  invoke (column_vector 0) example_2x1 = Throw ERR_ROW_RANGE.
Proof.
  assert (wf example_2x1) as Ha by example_wf.
  assert (0 < m_columns example_2x1) as Hcolumn by (simpl; lia).
  split; [exact (conj Ha Hcolumn) |].
  destruct (column_vector_shape_mismatch example_2x1 0 Ha Hcolumn) as (Hthrow & _).
  apply Hthrow. simpl. lia.
Defined.

(** C2.  [determinant()] fails with the not-square error exactly when
    [rows != columns].  On a square matrix it returns the sole element for
    1x1, [a(0,0) * a(1,1) - a(1,0) * a(0,1)] for 2x2, and for [n > 2] the
    terms [a(row, 0) * determinant(minor(a, row, 0))] for [row] in [[0, n)],
    added to the running total when [row] is even and subtracted when it is
    odd; the matrix is left as it was.  On [[1, 0, 2], [-1, 5, 0], [0, 3, 1]]
    it returns -1. *)
Theorem determinant_spec {platform : Platform} {T} `{Element T} (a : matrix T) :
  wf a →
  (invoke determinant a = Throw ERR_NOT_SQUARE ↔ m_rows a ≠ m_columns a) ∧
  (m_rows a = m_columns a →
   (m_rows a = 1 →
    ∃ x, get_element a 0 0 = Ok x ∧ invoke determinant a = Ok (x, a)) ∧
   (m_rows a = 2 →
    ∃ x00 x11 x10 x01,
      get_element a 0 0 = Ok x00 ∧ get_element a 1 1 = Ok x11 ∧
      get_element a 1 0 = Ok x10 ∧ get_element a 0 1 = Ok x01 ∧
      invoke determinant a = Ok (T_sub (T_mul x00 x11) (T_mul x10 x01), a)) ∧
   (2 < m_rows a →
    ∃ (x : nat → T) (sub : nat → matrix T) (det_sub : nat → T),
      (∀ row, row < m_rows a →
         get_element a row 0 = Ok (x row) ∧
         invoke (minor row 0) a = Ok (sub row, a) ∧
         invoke determinant (sub row) = Ok (det_sub row, sub row)) ∧
      invoke determinant a
      = Ok (alternating_sum (λ row, T_mul (x row) (det_sub row)) (m_rows a), a))) ∧
  invoke (determinant (platform := lp64)) example_3x3 = Ok ((-1)%Z, example_3x3).
Proof.
  intros Ha. split_and!; [| | by vm_compute].
  - split; [| apply determinant_rec_not_square].
    intros Hthrow Hsq. destruct (determinant_ok a Ha Hsq) as (d & Hd & _).
    by rewrite Hd in Hthrow.
  - intros Hsq. rewrite determinant_eq. split_and!.
    + intros HR. exists (elem a 0 0).
      split; [apply get_element_elem; [done | lia | lia] |].
      apply determinant_rec_1; [done | done | lia].
    + intros HR. exists (elem a 0 0), (elem a 1 1), (elem a 1 0), (elem a 0 1).
      split_and!; try (apply get_element_elem; [done | lia | lia]).
      apply determinant_rec_2; [done | done | lia].
    + intros HR.
      set (sub := λ row, returned a (invoke (minor row 0) a)).
      set (det_sub := λ row, returned T_default (invoke determinant (sub row))).
      assert (∀ row, row < m_rows a →
                invoke (minor row 0) a = Ok (sub row, a) ∧
                invoke determinant (sub row) = Ok (det_sub row, sub row) ∧
                invoke (determinant_rec (m_rows a)) (sub row)
                = Ok (det_sub row, sub row)) as Hsub.
      { intros row Hrow.
        destruct (minor_ok a row 0 Ha) as (r & Hminor & Hr); [lia.. |].
        assert (sub row = r) as Hsub_row by (unfold sub; by rewrite Hminor).
        unfold det_sub. rewrite Hsub_row. split; [done |].
        destruct (determinant_ok r) as (d & Hd & Hfuel).
        - eapply has_elements_wf; [done | lia | lia].
        - destruct Hr as (-> & -> & _). lia.
        - rewrite Hd. split; [done |]. apply Hfuel.
          destruct Hr as (-> & _). lia. }
      exists (λ row, elem a row 0), sub, det_sub. split.
      * intros row Hrow. destruct (Hsub row Hrow) as (Hminor & Hdet & _).
        split; [apply get_element_elem; [done | lia | lia] | done].
      * apply (determinant_rec_expand _ a sub det_sub); [done | done | done |].
        intros row Hrow. destruct (Hsub row Hrow) as (Hminor & _ & Hdet). done.
Qed.

Lemma determinant_spec_witness :
  wf example_2x2 ∧ invoke determinant example_2x2 = Ok ((-2)%Z, example_2x2).
Proof.
  assert (wf example_2x2) as Ha by example_wf. split; [exact Ha |].
  destruct (determinant_spec example_2x2 Ha) as (_ & Hsquare & _).
  destruct (Hsquare eq_refl) as (_ & H2x2 & _).
  destruct (H2x2 eq_refl) as (x00 & x11 & x10 & x01 & H00 & H11 & H10 & H01 & Hdet).
  injection H00 as <-. injection H11 as <-. injection H10 as <-. injection H01 as <-.
  exact Hdet.
Defined.

(** C6, as the code has it.  For [a] and [b] with [a.columns == b.rows]
    whose product has no more elements than a vector of the platform holds,
    [a * b] is a new matrix of shape [(a.rows, b.columns)] whose element at
    [(row, column)] is the sum over [k] in [[0, a.columns)] of
    [a(row, k) * b(k, column)], accumulated in increasing [k] order from
    [T()]; both operands are left as they were. *)
Theorem operator_mul_spec {platform : Platform} {T} `{Element T} (a b : matrix T) :
  wf a → wf b → m_columns a = m_rows b → fits (m_rows a * m_columns b) →
  ∃ r, invoke2 operator_mul a b = Ok (r, a, b) ∧
       m_rows r = m_rows a ∧ m_columns r = m_columns b ∧
       (∀ row k, row < m_rows a → k < m_columns a →
          get_element a row k = Ok (elem a row k)) ∧
       (∀ k column, k < m_columns a → column < m_columns b →
          get_element b k column = Ok (elem b k column)) ∧
       ∀ row column, row < m_rows a → column < m_columns b →
         get_element r row column
         = Ok (fold_left (λ acc k, T_add acc (T_mul (elem a row k) (elem b k column)))
                         (seq 0 (m_columns a)) T_default).
Proof.
  intros Ha Hb HCR Hfit.
  destruct (operator_mul_ok a b Ha Hb HCR Hfit) as (r & Hinv & Hr).
  exists r. split; [done |]. split; [apply Hr |]. split; [apply Hr |].
  split_and!.
  - intros row k Hrow Hk. by apply get_element_elem.
  - intros k column Hk Hcolumn. apply get_element_elem; [done | lia | done].
  - intros row column Hrow Hcolumn. by rewrite (has_elements_get _ _ _ _ _ _ Hr).
Qed.

Lemma operator_mul_spec_witness :
  (wf example_2x3 ∧ wf example_3x2 ∧ m_columns example_2x3 = m_rows example_3x2 ∧
   fits (m_rows example_2x3 * m_columns example_3x2)) ∧
  ∃ r, invoke2 operator_mul example_2x3 example_3x2 = Ok (r, example_2x3, example_3x2) ∧
       get_element r 1 1 = Ok 64%Z.
Proof.
  assert (wf example_2x3) as Ha by example_wf.
  assert (wf example_3x2) as Hb by example_wf.
  assert (m_columns example_2x3 = m_rows example_3x2) as HCR by reflexivity.
  assert (fits (m_rows example_2x3 * m_columns example_3x2)) as Hfit
    by (unfold fits; simpl; lia).
  split; [exact (conj Ha (conj Hb (conj HCR Hfit))) |].
  destruct (operator_mul_spec example_2x3 example_3x2 Ha Hb HCR Hfit)
    as (r & Hinv & _ & _ & _ & _ & Hr).
  exists r. split; [exact Hinv |]. exact (Hr 1 1 ltac:(simpl; lia) ltac:(simpl; lia)).
Defined.

(** On a 32-bit platform, the product of a 65536 by 1 matrix and a 1 by
    65536 matrix: [rows * columns] wraps to 0, [result] has no storage and
    [result(0, 0)] indexes it. *)
Lemma operator_mul_counterexample :
  wf (platform := ilp32) example_65536x1 ∧
  wf (platform := ilp32) example_1x65536 ∧
  m_columns example_65536x1 = m_rows example_1x65536 ∧
  size_mul (platform := ilp32) (m_rows example_65536x1) (m_columns example_1x65536) = 0 ∧
  invoke2 (operator_mul (platform := ilp32)) example_65536x1 example_1x65536
  = Undefined.
Proof.
  assert (∀ m : matrix Z,
            (m_rows m <=? 0) = false → (m_columns m <=? 0) = false →
            (length (m_data m) =? m_rows m * m_columns m) = true →
            (N.of_nat (length (m_data m)) <=? vector_limit (Platform := ilp32))%N = true →
            wf (platform := ilp32) m) as Hwf.
  { intros m HR%Nat.leb_gt HC%Nat.leb_gt Hlen%Nat.eqb_eq Hfit%N.leb_le.
    split_and!; [lia | lia | done | done]. }
  split_and!.
  - apply Hwf; vm_compute; reflexivity.
  - apply Hwf; vm_compute; reflexivity.
  - vm_compute. reflexivity.
  - vm_compute. reflexivity.
  - vm_compute. reflexivity.
Qed.

(** C7.  For a matrix with at least two rows and two columns and
    [at_row < rows], [at_column < columns], [minor(at_row, at_column)]
    returns a matrix of shape [(rows - 1, columns - 1)] whose storage is
    the storage of [a] with the positions of row [at_row] and of column
    [at_column] left out, the others in their order; element
    [(row, column)] of the result is the element of [a] at the [row]-th
    row other than [at_row] and the [column]-th column other than
    [at_column]. *)
Theorem minor_spec {platform : Platform} {T} `{Element T}
    (a : matrix T) (at_row at_column : nat) :
  wf a → 2 ≤ m_rows a → 2 ≤ m_columns a →
  at_row < m_rows a → at_column < m_columns a →
  ∃ r, invoke (minor at_row at_column) a = Ok (r, a) ∧
       m_rows r = m_rows a - 1 ∧ m_columns r = m_columns a - 1 ∧
       length (m_data r) = (m_rows a - 1) * (m_columns a - 1) ∧
       m_data r
       = ((λ k, default T_default (m_data a !! k))
            <$> filter (λ k, k `div` m_columns a ≠ at_row ∧
                             k `mod` m_columns a ≠ at_column)
                       (seq 0 (length (m_data a)))) ∧
       ∀ row column, row < m_rows a - 1 → column < m_columns a - 1 →
         skip at_row row ≠ at_row ∧ skip at_column column ≠ at_column ∧
         ∃ x, get_element a (skip at_row row) (skip at_column column) = Ok x ∧
              get_element r row column = Ok x.
Proof.
  intros Ha HR HC Hi Hj.
  destruct (minor_ok a at_row at_column Ha HR HC Hi Hj) as (r & Hinv & Hr).
  exists r. split; [done |]. split; [apply Hr |]. split; [apply Hr |].
  split; [apply Hr |]. split; [by apply minor_data |].
  intros row column Hrow Hcolumn.
  split; [apply skip_ne |]. split; [apply skip_ne |].
  exists (elem a (skip at_row row) (skip at_column column)). split.
  - apply get_element_elem; [done | by apply skip_lt | by apply skip_lt].
  - by rewrite (has_elements_get _ _ _ _ _ _ Hr).
Qed.

Lemma minor_spec_witness :
  (wf example_3x3 ∧ 2 ≤ m_rows example_3x3 ∧ 2 ≤ m_columns example_3x3 ∧
   1 < m_rows example_3x3 ∧ 1 < m_columns example_3x3) ∧
  ∃ r, invoke (minor 1 1) example_3x3 = Ok (r, example_3x3) ∧
       m_data r = [1; 2; 0; 1]%Z.
Proof.
  assert (wf example_3x3) as Ha by example_wf.
  assert (2 ≤ m_rows example_3x3) as HR by (simpl; lia).
  assert (2 ≤ m_columns example_3x3) as HC by (simpl; lia).
  assert (1 < m_rows example_3x3) as Hi by (simpl; lia).
  assert (1 < m_columns example_3x3) as Hj by (simpl; lia).
  split; [exact (conj Ha (conj HR (conj HC (conj Hi Hj)))) |].
  destruct (minor_spec example_3x3 1 1 Ha HR HC Hi Hj)
    as (r & Hinv & _ & _ & _ & Hdata & _).
  exists r. split; [exact Hinv |]. rewrite Hdata. by vm_compute.
Defined.

(** C8.  [a + b] fails with the incompatible dimensions error exactly when
    the shapes differ, and otherwise returns the matrix of the sums
    [a(r, c) + b(r, c)], leaving both operands as they were; the product
    [a * b] fails with that error exactly when [a.columns != b.rows]. *)
Theorem operator_plus_spec {platform : Platform} {T} `{Element T} (a b : matrix T) :
  wf a → wf b →
  (invoke2 operator_plus a b = Throw ERR_INCOMPATIBLE
   ↔ m_rows a ≠ m_rows b ∨ m_columns a ≠ m_columns b) ∧
  (m_rows a = m_rows b → m_columns a = m_columns b →
   ∃ r, invoke2 operator_plus a b = Ok (r, a, b) ∧
        m_rows r = m_rows a ∧ m_columns r = m_columns a ∧
        ∀ row column, row < m_rows a → column < m_columns a →
          ∃ x y, get_element a row column = Ok x ∧
                 get_element b row column = Ok y ∧
                 get_element r row column = Ok (T_add x y)) ∧
  (invoke2 operator_mul a b = Throw ERR_INCOMPATIBLE ↔ m_columns a ≠ m_rows b).
Proof.
  intros Ha Hb. split_and!.
  - split; [| apply operator_plus_throw].
    intros Hthrow.
    destruct (decide (m_rows a = m_rows b)) as [HR|]; [| by left].
    destruct (decide (m_columns a = m_columns b)) as [HC|]; [| by right].
    destruct (operator_plus_ok a b Ha Hb HR HC) as (r & Hinv & _).
    by rewrite Hinv in Hthrow.
  - intros HR HC. destruct (operator_plus_ok a b Ha Hb HR HC) as (r & Hinv & Hr).
    exists r. split; [done |]. split; [apply Hr |]. split; [apply Hr |].
    intros row column Hrow Hcolumn.
    exists (elem a row column), (elem b row column). split_and!.
    + by apply get_element_elem.
    + apply get_element_elem; [done | lia | lia].
    + by rewrite (has_elements_get _ _ _ _ _ _ Hr).
  - split; [| apply operator_mul_throw].
    intros Hthrow Heq. by apply (operator_mul_no_throw a b ERR_INCOMPATIBLE).
Qed.

Lemma operator_plus_spec_witness :
  (wf example_2x3 ∧ wf example_3x2) ∧
  invoke2 operator_plus example_2x3 example_3x2 = Throw ERR_INCOMPATIBLE.
Proof.
  assert (wf example_2x3) as Ha by example_wf.
  assert (wf example_3x2) as Hb by example_wf.
  split; [exact (conj Ha Hb) |].
  destruct (operator_plus_spec example_2x3 example_3x2 Ha Hb) as (Hthrow & _ & _).
  apply Hthrow. left. simpl. lia.
Defined.

(** C9.  [transpose()] returns a new matrix of shape [(a.columns, a.rows)]
    with [result(c, r) = a(r, c)], leaving [a] as it was, and transposing
    the result gives [a] back. *)
Theorem transpose_spec {platform : Platform} {T} `{Element T} (a : matrix T) :
  wf a →
  ∃ r, invoke transpose a = Ok (r, a) ∧
       m_rows r = m_columns a ∧ m_columns r = m_rows a ∧
       (∀ row column, row < m_rows a → column < m_columns a →
          ∃ x, get_element a row column = Ok x ∧ get_element r column row = Ok x) ∧
       invoke transpose r = Ok (a, r).
Proof.
  intros Ha. destruct (transpose_ok a Ha) as (r & Hinv & Hr).
  exists r. split; [done |]. split; [apply Hr |]. split; [apply Hr |].
  assert (wf r) as Hwf by (eapply has_elements_wf; [done | apply Ha | apply Ha]).
  split.
  - intros row column Hrow Hcolumn. exists (elem a row column).
    split; [by apply get_element_elem |].
    by rewrite (has_elements_get _ _ _ _ _ _ Hr).
  - destruct (transpose_ok r Hwf) as (a' & Hinv' & Ha').
    rewrite Hinv'. do 2 f_equal.
    destruct Hr as (HR & HC & Hr). rewrite HR, HC in Ha'.
    apply (has_elements_eq a' a _ _ _ Ha').
    eapply has_elements_ext; [by apply wf_has_elements |].
    intros row column Hrow Hcolumn. simpl.
    symmetry.
    apply (has_elements_elem r (m_columns a) (m_rows a) (λ r0 c, elem a c r0));
      [| done..].
    split_and!; [done | done | apply Hr | apply Hr | apply Hr].
Qed.

Lemma transpose_spec_witness :
  wf example_2x3 ∧
  ∃ r, invoke transpose example_2x3 = Ok (r, example_2x3) ∧
       invoke transpose r = Ok (example_2x3, r).
Proof.
  assert (wf example_2x3) as Ha by example_wf. split; [exact Ha |].
  destruct (transpose_spec example_2x3 Ha) as (r & Hinv & _ & _ & _ & Hback).
  exists r. split; [exact Hinv | exact Hback].
Defined.

(** C10, as the code has it.  The constructor fails with the invalid size
    error exactly when [rows < 1] or [columns < 1]; asked for a number of
    elements [rows * columns] that a vector of the platform holds, it
    builds a matrix with [rows >= 1], [columns >= 1] and [rows * columns]
    elements.  On matrices that satisfy this invariant every call of the
    interface is defined, and returns and leaves matrices that satisfy it
    or throws and leaves its operands as they were: element access (read
    and written), assignment from a flat list (which fails with the
    incompatible dimensions error exactly when the number of elements is
    not [rows * columns], before it has touched the storage, and replaces
    the elements otherwise), [row_vector], [column_vector], [transform],
    the arithmetic operators (the product when a vector holds the
    [a.rows * b.columns] elements of its result), [transpose], [minor]
    called with [at_row < rows] and [at_column < columns], and
    [determinant]. *)
Theorem class_invariant {platform : Platform} {T} `{Element T} (a b : matrix T) :
  wf a → wf b →
  (∀ rows columns fill,
     (new_matrix rows columns fill = Throw ERR_INVALID_SIZE ↔ rows < 1 ∨ columns < 1) ∧
     (1 ≤ rows → 1 ≤ columns → fits (rows * columns) →
      ∃ m, new_matrix rows columns fill = Ok m ∧
           m_rows m = rows ∧ m_columns m = columns ∧
           1 ≤ m_rows m ∧ 1 ≤ m_columns m ∧
           length (m_data m) = m_rows m * m_columns m ∧ wf m)) ∧
  (∀ row column, returns_or_throws (operator_call row column) a (λ _, True)) ∧
  (∀ row column x,
     returns_or_throws (operator_call_assign row column x) a (λ _, True)) ∧
  (∀ operand,
     returns_or_throws (operator_assign operand) a (λ _, True) ∧
     (invoke (operator_assign operand) a = Throw ERR_INCOMPATIBLE
      ↔ length operand ≠ m_rows a * m_columns a) ∧
     (∀ u a', invoke (operator_assign operand) a = Ok (u, a') →
              length operand = m_rows a * m_columns a ∧
              a' = Matrix (m_rows a) (m_columns a) operand)) ∧
  (∀ row, returns_or_throws (row_vector row) a wf) ∧
  (∀ column, returns_or_throws (column_vector column) a wf) ∧
  (∀ lambda, returns_or_throws (transform lambda) a (λ _, True)) ∧
  returns_or_throws2 operator_plus a b wf ∧
  returns_or_throws2 operator_minus a b wf ∧
  returns_or_throws operator_neg a wf ∧
  (∀ operand, returns_or_throws (operator_mul_scalar operand) a wf) ∧
  (fits (m_rows a * m_columns b) → returns_or_throws2 operator_mul a b wf) ∧
  returns_or_throws transpose a wf ∧
  (∀ at_row at_column, at_row < m_rows a → at_column < m_columns a →
     returns_or_throws (minor at_row at_column) a wf) ∧
  returns_or_throws determinant a (λ _, True).
Proof.
  intros Ha Hb. split_and!.
  - intros rows columns fill. split.
    + split; [| apply new_matrix_throw].
      intros Hthrow. destruct (decide (1 ≤ rows ∧ 1 ≤ columns)) as [[? ?]|]; [| lia].
      rewrite new_matrix_eq in Hthrow by done. by destruct (_ <? _)%N.
    + intros Hrows Hcolumns Hfit. eexists. split; [by apply new_matrix_ok |].
      simpl. rewrite length_replicate.
      split_and!; [done | done | done | done | done |].
      split_and!; simpl; rewrite ?length_replicate; done.
  - intros row column. by apply operator_call_defined.
  - intros row column x. by apply operator_call_assign_defined.
  - intros operand. split; [by apply operator_assign_defined |]. split.
    + split.
      * intros Hthrow Hlen. by rewrite operator_assign_ok in Hthrow.
      * intros Hlen. apply operator_assign_throw; [done | lia].
    + intros u a' Hinv.
      destruct (decide (m_rows a * m_columns a = length operand)) as [Hlen|Hlen].
      * rewrite operator_assign_ok in Hinv by done. by injection Hinv as <- <-.
      * destruct (operator_assign_throw a operand Ha Hlen) as [Hthrow _].
        by rewrite Hthrow in Hinv.
  - intros row. by apply row_vector_defined.
  - intros column. by apply column_vector_defined.
  - intros lambda. by apply transform_defined.
  - by apply operator_plus_defined.
  - by apply operator_minus_defined.
  - by apply operator_neg_defined.
  - intros operand. by apply operator_mul_scalar_defined.
  - intros Hfit. by apply operator_mul_defined.
  - by apply transpose_defined.
  - intros at_row at_column Hi Hj. by apply minor_defined.
  - by apply determinant_defined.
Qed.

Lemma class_invariant_witness :
  (wf example_2x3 ∧ wf example_3x2) ∧
  new_matrix 0 3 0%Z = Throw ERR_INVALID_SIZE ∧
  (∃ m, new_matrix 2 3 0%Z = Ok m ∧ wf m) ∧
  left_by_throw (operator_assign [1; 2; 3]%Z) example_2x3 = Some example_2x3.
Proof.
  assert (wf example_2x3) as Ha by example_wf.
  assert (wf example_3x2) as Hb by example_wf.
  split; [exact (conj Ha Hb) |].
  destruct (class_invariant example_2x3 example_3x2 Ha Hb)
    as (Hnew & _ & _ & Hassign & _).
  destruct (Hnew 0 3 0%Z) as [[_ Hthrow] _].
  destruct (Hnew 2 3 0%Z) as [_ Hok].
  destruct (Hok ltac:(lia) ltac:(lia) ltac:(unfold fits; simpl; lia))
    as (m & Hm & _ & _ & _ & _ & _ & Hwf).
  destruct (Hassign [1; 2; 3]%Z) as [[Hret|Hthr] _].
  { destruct Hret as (u & a' & Hinv & _). exfalso. revert Hinv. by vm_compute. }
  destruct Hthr as (e & _ & Hleft).
  split; [apply Hthrow; left; lia |]. split; [exists m; exact (conj Hm Hwf) |].
  exact Hleft.
Defined.

(** On a 32-bit platform [matrix(65536, 65536)] is constructed with no
    storage at all, [rows * columns] having wrapped to 0; and on the 2 by 2
    example [minor(2, 0)], whose row index is out of range, writes past the
    end of the storage of its 1 by 1 result. *)
Lemma class_invariant_counterexample :
  (∃ m, new_matrix (platform := ilp32) (2 ^ 16) (2 ^ 16) 0%Z = Ok m ∧
        m_rows m = 2 ^ 16 ∧ m_columns m = 2 ^ 16 ∧ length (m_data m) = 0) ∧
  invoke (minor 2 0) example_2x2 = Undefined.
Proof.
  split; [| by vm_compute].
  assert (1 ≤ 2 ^ 16) as Hpos by (apply Nat.leb_le; vm_compute; reflexivity).
  exists (Matrix (2 ^ 16) (2 ^ 16) []). split; [| by split_and!].
  rewrite new_matrix_eq by done.
  assert (size_mul (platform := ilp32) (2 ^ 16) (2 ^ 16) = 0) as ->
    by (vm_compute; reflexivity).
  reflexivity.
Qed.

(** * Further properties of the interface *)

(** X1.  [row_vector(row)] fails with the row range error exactly when
    [row >= rows]; otherwise it returns a matrix of shape [(1, columns)]
    holding row [row] of [a], and [a] is left as it was. *)
Theorem row_vector_spec {platform : Platform} {T} `{Element T} (a : matrix T) (row : nat) :
  wf a →
  (invoke (row_vector row) a = Throw ERR_ROW_RANGE ↔ m_rows a ≤ row) ∧
  (row < m_rows a →
   ∃ r, invoke (row_vector row) a = Ok (r, a) ∧
        m_rows r = 1 ∧ m_columns r = m_columns a ∧
        ∀ column, column < m_columns a →
          ∃ x, get_element a row column = Ok x ∧ get_element r 0 column = Ok x).
Proof.
  intros Ha. split.
  - split; [| apply row_vector_row_range].
    intros Hthrow. destruct (decide (m_rows a ≤ row)) as [|Hrow]; [done |].
    destruct (row_vector_ok a row) as (r & Hinv & _); [done | lia |].
    by rewrite Hinv in Hthrow.
  - intros Hrow. destruct (row_vector_ok a row Ha Hrow) as (r & Hinv & Hr).
    exists r. split; [done |]. split; [apply Hr |]. split; [apply Hr |].
    intros column Hcolumn. exists (elem a row column).
    split; [by apply get_element_elem |].
    rewrite (has_elements_get _ _ _ _ 0 column Hr) by lia. done.
Qed.

Lemma row_vector_spec_witness :
  wf example_2x3 ∧
  ∃ r, invoke (row_vector 1) example_2x3 = Ok (r, example_2x3) ∧
       get_element r 0 2 = Ok 6%Z.
Proof.
  assert (wf example_2x3) as Ha by example_wf. split; [exact Ha |].
  destruct (row_vector_spec example_2x3 1 Ha) as (_ & Hok).
  destruct Hok as (r & Hinv & _ & _ & Hr); [simpl; lia |].
  exists r. split; [exact Hinv |].
  destruct (Hr 2) as (x & Hx & Hrx); [simpl; lia |].
  injection Hx as <-. exact Hrx.
Defined.

(** X2.  Reading [a(row, column)] checks the row first: it fails with the
    row range error exactly when [row >= rows] (whatever the column), with
    the column range error exactly when the row is valid and
    [column >= columns], and otherwise returns the element stored at offset
    [row * columns + column], leaving [a] as it was. *)
Theorem operator_call_spec {platform : Platform} {T} `{Element T}
    (a : matrix T) (row column : nat) :
  wf a →
  (invoke (operator_call row column) a = Throw ERR_ROW_RANGE ↔ m_rows a ≤ row) ∧
  (invoke (operator_call row column) a = Throw ERR_COL_RANGE
   ↔ row < m_rows a ∧ m_columns a ≤ column) ∧
  (row < m_rows a → column < m_columns a →
   ∃ x, m_data a !! (row * m_columns a + column) = Some x ∧
        invoke (operator_call row column) a = Ok (x, a)).
Proof.
  intros Ha. rewrite invoke_operator_call. split_and!.
  - rewrite <- (get_element_row_range a row column).
    destruct (get_element a row column); split; intros Heq; by simplify_eq.
  - rewrite <- (get_element_col_range a row column).
    destruct (get_element a row column); split; intros Heq; by simplify_eq.
  - intros Hrow Hcolumn.
    pose proof (wf_has_elements a Ha) as (_ & _ & _ & Hdata).
    exists (elem a row column). split; [by apply Hdata |].
    by rewrite get_element_elem.
Qed.

Lemma operator_call_spec_witness :
  wf example_2x2 ∧
  invoke (operator_call 2 2) example_2x2 = Throw ERR_ROW_RANGE.
Proof.
  assert (wf example_2x2) as Ha by example_wf. split; [exact Ha |].
  destruct (operator_call_spec example_2x2 2 2 Ha) as (Hrow & _).
  apply Hrow. simpl. lia.
Defined.

(** X3.  Writing [a(row, column) = x] fails like reading does; when both
    indices are valid it keeps the shape, [a(row, column)] then reads [x],
    and every other element reads as before. *)
Theorem operator_call_assign_spec {platform : Platform} {T} `{Element T}
    (a : matrix T) (row column : nat) (x : T) :
  wf a →
  (invoke (operator_call_assign row column x) a = Throw ERR_ROW_RANGE
   ↔ m_rows a ≤ row) ∧
  (invoke (operator_call_assign row column x) a = Throw ERR_COL_RANGE
   ↔ row < m_rows a ∧ m_columns a ≤ column) ∧
  (row < m_rows a → column < m_columns a →
   ∃ a', invoke (operator_call_assign row column x) a = Ok ((), a') ∧
         m_rows a' = m_rows a ∧ m_columns a' = m_columns a ∧
         invoke (operator_call row column) a' = Ok (x, a') ∧
         ∀ r c, r < m_rows a → c < m_columns a → ¬ (r = row ∧ c = column) →
           get_element a' r c = get_element a r c).
Proof.
  intros Ha. rewrite invoke_operator_call_assign. split_and!.
  - rewrite <- (set_element_row_range a row column x).
    destruct (set_element a row column x); split; intros Heq; by simplify_eq.
  - rewrite <- (set_element_col_range a row column x).
    destruct (set_element a row column x); split; intros Heq; by simplify_eq.
  - intros Hrow Hcolumn.
    destruct (has_elements_set a _ _ _ row column x (wf_has_elements a Ha)
                Hrow Hcolumn) as (a' & Hset & Ha').
    exists a'. rewrite Hset. split; [done |].
    split; [apply Ha' |]. split; [apply Ha' |]. split.
    + rewrite invoke_operator_call.
      rewrite (has_elements_get _ _ _ _ row column Ha') by done.
      by rewrite decide_True.
    + intros r c Hr Hc Hne.
      rewrite (has_elements_get _ _ _ _ r c Ha') by done.
      rewrite decide_False by done. by rewrite get_element_elem.
Qed.

Lemma operator_call_assign_spec_witness :
  wf example_2x2 ∧
  ∃ a', invoke (operator_call_assign 1 0 9%Z) example_2x2 = Ok ((), a') ∧
        invoke (operator_call 1 0) a' = Ok (9%Z, a').
Proof.
  assert (wf example_2x2) as Ha by example_wf. split; [exact Ha |].
  destruct (operator_call_assign_spec example_2x2 1 0 9%Z Ha) as (_ & _ & Hok).
  destruct Hok as (a' & Hinv & _ & _ & Hread & _); [simpl; lia | simpl; lia |].
  exists a'. split; [exact Hinv | exact Hread].
Defined.

(** X4.  The constructor with [rows >= 1] and [columns >= 1], asked for a
    number of elements [rows * columns] that a vector of the platform
    holds, builds a matrix with that shape whose every element is [fill].
    It does not check the product: asked for more, either [resize] throws
    or, the [size_t] product having wrapped, the matrix is built with fewer
    than [rows * columns] elements. *)
Theorem new_matrix_fill {platform : Platform} {T} `{Element T}
    (rows columns : nat) (fill : T) :
  1 ≤ rows → 1 ≤ columns →
  (fits (rows * columns) →
   ∃ m, new_matrix rows columns fill = Ok m ∧
        m_rows m = rows ∧ m_columns m = columns ∧
        m_data m = replicate (rows * columns) fill ∧
        ∀ row column, row < rows → column < columns →
          get_element m row column = Ok fill) ∧
  (¬ fits (rows * columns) →
   new_matrix rows columns fill = AllocError ∨
   ∃ m, new_matrix rows columns fill = Ok m ∧
        m_rows m = rows ∧ m_columns m = columns ∧
        m_data m = replicate (size_mul rows columns) fill ∧
        length (m_data m) < rows * columns).
Proof.
  intros Hrows Hcolumns. split.
  - intros Hfit. eexists. split; [by apply new_matrix_ok |].
    split_and!; [done | done | done |].
    intros row column Hrow Hcolumn.
    by apply (has_elements_get _ _ _ _ _ _ (has_elements_new rows columns fill Hfit)).
  - intros Hfit. rewrite new_matrix_eq by done.
    destruct (N.ltb_spec vector_limit (N.of_nat (size_mul rows columns))) as [|Hle];
      [by left | right].
    eexists. split; [done |]. simpl. rewrite length_replicate.
    split_and!; [done | done | done |]. unfold fits in Hfit. lia.
Qed.

Lemma new_matrix_fill_witness :
  (1 ≤ 2 ∧ 1 ≤ 3 ∧ fits 6) ∧
  ∃ m, new_matrix 2 3 5%Z = Ok m ∧ m_data m = [5; 5; 5; 5; 5; 5]%Z.
Proof.
  assert (1 ≤ 2) as Hrows by lia. assert (1 ≤ 3) as Hcolumns by lia.
  assert (fits (2 * 3)) as Hfit by (unfold fits; simpl; lia).
  split; [exact (conj Hrows (conj Hcolumns Hfit)) |].
  destruct (new_matrix_fill 2 3 5%Z Hrows Hcolumns) as [Hok _].
  destruct (Hok Hfit) as (m & Hnew & _ & _ & Hdata & _).
  exists m. split; [exact Hnew | exact Hdata].
Defined.

(** X5.  Assigning a flat list of [rows * columns] elements keeps the shape
    and lays the list out in row-major order: [a(row, column)] then reads
    the element of the list at position [row * columns + column]. *)
Theorem operator_assign_row_major {platform : Platform} {T} `{Element T}
    (a : matrix T) (operand : list T) :
  wf a → length operand = m_rows a * m_columns a →
  ∃ a', invoke (operator_assign operand) a = Ok ((), a') ∧
        m_rows a' = m_rows a ∧ m_columns a' = m_columns a ∧
        ∀ row column, row < m_rows a → column < m_columns a →
          ∃ x, operand !! (row * m_columns a + column) = Some x ∧
               invoke (operator_call row column) a' = Ok (x, a').
Proof.
  intros Ha Hlen. rewrite operator_assign_ok by done.
  eexists. split; [done |]. split; [done |]. split; [done |].
  intros row column Hrow Hcolumn.
  destruct (lookup_lt_is_Some_2 operand (row * m_columns a + column)) as [x Hx].
  { rewrite Hlen. by apply offset_lt. }
  exists x. split; [done |].
  rewrite invoke_operator_call. unfold get_element.
  rewrite element_offset_ok by (simpl; done || by apply wf_fits). simpl. by rewrite Hx.
Qed.

Lemma operator_assign_row_major_witness :
  (wf example_2x2 ∧ length [5; 6; 7; 8]%Z = m_rows example_2x2 * m_columns example_2x2) ∧
  ∃ a', invoke (operator_assign [5; 6; 7; 8]%Z) example_2x2 = Ok ((), a') ∧
        invoke (operator_call 1 0) a' = Ok (7%Z, a').
Proof.
  assert (wf example_2x2) as Ha by example_wf.
  assert (length [5; 6; 7; 8]%Z = m_rows example_2x2 * m_columns example_2x2)
    as Hlen by reflexivity.
  split; [exact (conj Ha Hlen) |].
  destruct (operator_assign_row_major example_2x2 [5; 6; 7; 8]%Z Ha Hlen)
    as (a' & Hinv & _ & _ & Hread).
  exists a'. split; [exact Hinv |].
  destruct (Hread 1 0) as (x & Hx & Hcall); [simpl; lia | simpl; lia |].
  injection Hx as <-. exact Hcall.
Defined.

(** X6.  [a - b] fails with the incompatible dimensions error exactly when
    the shapes differ, and otherwise returns the matrix of the differences
    [a(r, c) - b(r, c)], leaving both operands as they were. *)
Theorem operator_minus_spec {platform : Platform} {T} `{Element T} (a b : matrix T) :
  wf a → wf b →
  (invoke2 operator_minus a b = Throw ERR_INCOMPATIBLE
   ↔ m_rows a ≠ m_rows b ∨ m_columns a ≠ m_columns b) ∧
  (m_rows a = m_rows b → m_columns a = m_columns b →
   ∃ r, invoke2 operator_minus a b = Ok (r, a, b) ∧
        m_rows r = m_rows a ∧ m_columns r = m_columns a ∧
        ∀ row column, row < m_rows a → column < m_columns a →
          ∃ x y, get_element a row column = Ok x ∧
                 get_element b row column = Ok y ∧
                 get_element r row column = Ok (T_sub x y)).
Proof.
  intros Ha Hb. split.
  - split; [| apply operator_minus_throw].
    intros Hthrow.
    destruct (decide (m_rows a = m_rows b)) as [HR|]; [| by left].
    destruct (decide (m_columns a = m_columns b)) as [HC|]; [| by right].
    destruct (operator_minus_ok a b Ha Hb HR HC) as (r & Hinv & _).
    by rewrite Hinv in Hthrow.
  - intros HR HC. destruct (operator_minus_ok a b Ha Hb HR HC) as (r & Hinv & Hr).
    exists r. split; [done |]. split; [apply Hr |]. split; [apply Hr |].
    intros row column Hrow Hcolumn.
    exists (elem a row column), (elem b row column). split_and!.
    + by apply get_element_elem.
    + apply get_element_elem; [done | lia | lia].
    + by rewrite (has_elements_get _ _ _ _ _ _ Hr).
Qed.

Lemma operator_minus_spec_witness :
  (wf example_2x3 ∧ wf example_2x3) ∧
  ∃ r, invoke2 operator_minus example_2x3 example_2x3 = Ok (r, example_2x3, example_2x3) ∧
       get_element r 1 1 = Ok 0%Z.
Proof.
  assert (wf example_2x3) as Ha by example_wf.
  split; [exact (conj Ha Ha) |].
  destruct (operator_minus_spec example_2x3 example_2x3 Ha Ha) as (_ & Hok).
  destruct (Hok eq_refl eq_refl) as (r & Hinv & _ & _ & Hr).
  exists r. split; [exact Hinv |].
  destruct (Hr 1 1) as (x & y & Hx & Hy & Hrxy); [simpl; lia | simpl; lia |].
  injection Hx as <-. injection Hy as <-. exact Hrxy.
Defined.

(** X7.  [transform(lambda)] does not fail: it keeps the shape and replaces
    every element [a(row, column)] by what the visitor leaves when called
    with [row], [column] and that element. *)
Theorem transform_spec {platform : Platform} {T} `{Element T}
    (a : matrix T) (lambda : nat → nat → T → T) :
  wf a →
  ∃ a', invoke (transform lambda) a = Ok ((), a') ∧
        m_rows a' = m_rows a ∧ m_columns a' = m_columns a ∧
        ∀ row column, row < m_rows a → column < m_columns a →
          ∃ x, get_element a row column = Ok x ∧
               get_element a' row column = Ok (lambda row column x).
Proof.
  intros Ha. destruct (transform_ok a lambda Ha) as (a' & Hinv & Ha').
  exists a'. split; [done |]. split; [apply Ha' |]. split; [apply Ha' |].
  intros row column Hrow Hcolumn. exists (elem a row column).
  split; [by apply get_element_elem |].
  by rewrite (has_elements_get _ _ _ _ _ _ Ha').
Qed.

Lemma transform_spec_witness :
  wf example_2x2 ∧
  ∃ a', invoke (transform (λ row column x, (x + Z.of_nat row)%Z)) example_2x2
        = Ok ((), a') ∧
        get_element a' 1 1 = Ok 5%Z.
Proof.
  assert (wf example_2x2) as Ha by example_wf. split; [exact Ha |].
  destruct (transform_spec example_2x2 (λ row column x, (x + Z.of_nat row)%Z) Ha)
    as (a' & Hinv & _ & _ & Ha').
  exists a'. split; [exact Hinv |].
  destruct (Ha' 1 1) as (x & Hx & Hx'); [simpl; lia | simpl; lia |].
  injection Hx as <-. exact Hx'.
Defined.

(** X8.  [transform] calls its visitor once on every cell, in row-major
    order: with a visitor that has a state of its own, the matrix and the
    state after the call are those obtained by calling the visitor on the
    positions [0, 1, ..., rows * columns - 1] of the storage in this order,
    each time with the element then stored there (the original one) and
    the state the previous call left. *)
Theorem transform_visiting_spec {platform : Platform} {T} `{Element T} {S}
    (a : matrix T) (lambda : nat → nat → T → S → T * S) (state : S) :
  wf a →
  invoke (transform_visiting lambda state) a
  = Ok ((fold_left
           (λ acc k,
              let y := lambda (k `div` m_columns a) (k `mod` m_columns a)
                              (default T_default (m_data a !! k)) acc.2 in
              (<[k:=y.1]> acc.1, y.2))
           (seq 0 (m_rows a * m_columns a)) (m_data a, state)).2,
        Matrix (m_rows a) (m_columns a)
          (fold_left
             (λ acc k,
                let y := lambda (k `div` m_columns a) (k `mod` m_columns a)
                                (default T_default (m_data a !! k)) acc.2 in
                (<[k:=y.1]> acc.1, y.2))
             (seq 0 (m_rows a * m_columns a)) (m_data a, state)).1).
Proof. intros Ha. by apply transform_visiting_ok. Qed.

Lemma transform_visiting_spec_witness :
  wf example_2x2 ∧
  invoke (transform_visiting (λ row column x total, (total, (total + x)%Z)) 0%Z)
         example_2x2
  = Ok (10%Z, Matrix 2 2 [0; 1; 3; 6]%Z).
Proof.
  assert (wf example_2x2) as Ha by example_wf. split; [exact Ha |].
  exact (transform_visiting_spec example_2x2
           (λ row column x total, (total, (total + x)%Z)) 0%Z Ha).
Defined.

(** X9.  A visitor that logs its calls sees every cell exactly once, row by
    row and within a row by increasing column, each with the element the
    matrix held before the call to [transform]; the matrix it leaves is the
    one [transform] leaves for the stateless visitor [f]. *)
Theorem transform_visits_row_major {platform : Platform} {T} `{Element T}
    (a : matrix T) (f : nat → nat → T → T) :
  wf a →
  ∃ a', invoke (transform f) a = Ok ((), a') ∧
        invoke (transform_visiting
                  (λ row column x log, (f row column x, log ++ [(row, column, x)]))
                  []) a
        = Ok ((λ k, (k `div` m_columns a, k `mod` m_columns a,
                     default T_default (m_data a !! k)))
                <$> seq 0 (m_rows a * m_columns a),
              a').
Proof.
  intros Ha. destruct (transform_ok a f Ha) as (a' & Hinv & Ha').
  exists a'. split; [done |].
  rewrite transform_visiting_ok, visit_cells_log by done. simpl.
  do 2 f_equal. symmetry.
  apply (has_elements_eq _ _ _ _ _ Ha').
  by apply (visit_cells_has_elements _ f).
Qed.

Lemma transform_visits_row_major_witness :
  wf example_2x2 ∧
  invoke (transform_visiting
            (λ row column x log, (Z.opp x, log ++ [(row, column, x)])) [])
         example_2x2
  = Ok ([(0, 0, 1%Z); (0, 1, 2%Z); (1, 0, 3%Z); (1, 1, 4%Z)],
        Matrix 2 2 [-1; -2; -3; -4]%Z).
Proof.
  assert (wf example_2x2) as Ha by example_wf. split; [exact Ha |].
  destruct (transform_visits_row_major example_2x2 (λ _ _ x, Z.opp x) Ha)
    as (a' & Hinv & Hlog).
  assert (a' = Matrix 2 2 [-1; -2; -3; -4]%Z) as Ha'.
  { vm_compute in Hinv. by injection Hinv as <-. }
  rewrite Ha' in Hlog. exact Hlog.
Defined.

(** X10.  Two calls to [transform] in a row do what one call with the
    composed visitor does. *)
Theorem transform_compose {platform : Platform} {T} `{Element T}
    (a : matrix T) (f g : nat → nat → T → T) :
  wf a →
  ∃ a1 a2, invoke (transform f) a = Ok ((), a1) ∧
           invoke (transform g) a1 = Ok ((), a2) ∧
           invoke (transform (λ row column x, g row column (f row column x))) a
           = Ok ((), a2).
Proof.
  intros Ha. destruct (transform_ok a f Ha) as (a1 & Hinv1 & Ha1).
  assert (wf a1) as Hwf1 by (eapply has_elements_wf; [done | apply Ha | apply Ha]).
  destruct (transform_ok a1 g Hwf1) as (a2 & Hinv2 & Ha2).
  destruct (transform_ok a (λ row column x, g row column (f row column x)) Ha)
    as (a3 & Hinv3 & Ha3).
  exists a1, a2. split; [done |]. split; [done |].
  rewrite Hinv3. do 2 f_equal.
  destruct Ha1 as (HR & HC & Ha1). rewrite HR, HC in Ha2.
  apply (has_elements_eq _ _ _ _ _ Ha3).
  eapply has_elements_ext; [done |]. intros row column Hrow Hcolumn. simpl.
  f_equal.
  apply (has_elements_elem a1 (m_rows a) (m_columns a)
           (λ r c, f r c (elem a r c))); [| done..].
  split_and!; [done | done | apply Ha1 | apply Ha1 | apply Ha1].
Qed.

Lemma transform_compose_witness :
  wf example_2x2 ∧
  ∃ a1 a2,
    invoke (transform (λ _ _ x, (x + 1)%Z)) example_2x2 = Ok ((), a1) ∧
    invoke (transform (λ _ _ x, (2 * x)%Z)) a1 = Ok ((), a2) ∧
    invoke (transform (λ _ _ x, (2 * (x + 1))%Z)) example_2x2 = Ok ((), a2).
Proof.
  assert (wf example_2x2) as Ha by example_wf. split; [exact Ha |].
  exact (transform_compose example_2x2 (λ _ _ x, (x + 1)%Z) (λ _ _ x, (2 * x)%Z) Ha).
Defined.

(** X11.  [minor] has no check of its own on the size of the matrix: on a
    matrix with a single row or a single column it is the constructor of
    the [(rows - 1, columns - 1)] result that fails, with the invalid size
    error, whatever the indices; and this is the only way it throws that
    error. *)
Theorem minor_invalid_size_spec {platform : Platform} {T} `{Element T}
    (a : matrix T) (at_row at_column : nat) :
  wf a →
  (invoke (minor at_row at_column) a = Throw ERR_INVALID_SIZE
   ↔ m_rows a = 1 ∨ m_columns a = 1).
Proof.
  intros Ha. split.
  - intros Hthrow. pose proof Ha as (HR & HC & _).
    destruct (decide (m_rows a = 1)) as [|HR1]; [by left |].
    destruct (decide (m_columns a = 1)) as [|HC1]; [by right |].
    destruct (decide (at_row < m_rows a ∧ at_column < m_columns a)) as [[Hi Hj]|Hout].
    + destruct (minor_ok a at_row at_column) as (r & Hinv & _);
        [done | lia | lia | done | done |].
      by rewrite Hinv in Hthrow.
    + rewrite minor_out_of_range in Hthrow; [done | done | lia | lia | lia].
  - intros Hsmall. apply minor_invalid_size; [done | lia].
Qed.

Lemma minor_invalid_size_spec_witness :
  wf example_2x1 ∧ invoke (minor 0 0) example_2x1 = Throw ERR_INVALID_SIZE.
Proof.
  assert (wf example_2x1) as Ha by example_wf. split; [exact Ha |].
  apply (minor_invalid_size_spec example_2x1 0 0 Ha). right. reflexivity.
Defined.

(** X12.  [minor] does not check [at_row] and [at_column] against the
    shape.  On a matrix with at least two rows and two columns, an index
    outside the matrix never throws a range error: fewer cells are skipped
    than [result] leaves room for, and the unchecked write
    [result.m_data[index++]] goes past the end of the storage.  This is
    the only way the call runs into undefined behaviour. *)
Theorem minor_unchecked_indices {platform : Platform} {T} `{Element T}
    (a : matrix T) (at_row at_column : nat) :
  wf a →
  (invoke (minor at_row at_column) a = Undefined
   ↔ 2 ≤ m_rows a ∧ 2 ≤ m_columns a ∧
     (m_rows a ≤ at_row ∨ m_columns a ≤ at_column)).
Proof.
  intros Ha. split.
  - intros Hundef. pose proof Ha as (HR & HC & Hlen).
    destruct (decide (m_rows a ≤ 1 ∨ m_columns a ≤ 1)) as [Hsmall|Hbig].
    { destruct (minor_invalid_size a at_row at_column Ha Hsmall) as [Hthrow _].
      by rewrite Hthrow in Hundef. }
    split; [lia |]. split; [lia |].
    destruct (decide (at_row < m_rows a ∧ at_column < m_columns a)) as [[Hi Hj]|Hout];
      [| lia].
    destruct (minor_ok a at_row at_column) as (r & Hinv & _);
      [done | lia | lia | done | done |].
    by rewrite Hinv in Hundef.
  - intros (HR & HC & Hout). by apply minor_out_of_range.
Qed.

Lemma minor_unchecked_indices_witness :
  wf example_2x2 ∧ invoke (minor 2 0) example_2x2 = Undefined.
Proof.
  assert (wf example_2x2) as Ha by example_wf. split; [exact Ha |].
  apply (minor_unchecked_indices example_2x2 2 0 Ha). simpl. lia.
Defined.

(** X13.  Transposition distributes over addition: for [a] and [b] of the
    same shape, the transpose of [a + b] is the sum of the transposes. *)
Theorem transpose_plus {platform : Platform} {T} `{Element T} (a b : matrix T) :
  wf a → wf b → m_rows a = m_rows b → m_columns a = m_columns b →
  ∃ sum ta tb result,
    invoke2 operator_plus a b = Ok (sum, a, b) ∧
    invoke transpose a = Ok (ta, a) ∧
    invoke transpose b = Ok (tb, b) ∧
    invoke transpose sum = Ok (result, sum) ∧
    invoke2 operator_plus ta tb = Ok (result, ta, tb).
Proof.
  intros Ha Hb HR HC. pose proof Ha as (HRa & HCa & _).
  destruct (operator_plus_ok a b Ha Hb HR HC) as (sum & Hsum & Hs).
  apply has_elements_wf_elem in Hs as (Hwfs & HRs & HCs & Hs); [| done..].
  destruct (transpose_ok a Ha) as (ta & Hta & Hta').
  apply has_elements_wf_elem in Hta' as (Hwfta & HRta & HCta & Hta'); [| done..].
  destruct (transpose_ok b Hb) as (tb & Htb & Htb').
  rewrite <- HR, <- HC in Htb'.
  apply has_elements_wf_elem in Htb' as (Hwftb & HRtb & HCtb & Htb'); [| done..].
  destruct (transpose_ok sum Hwfs) as (result & Hresult & Hr).
  destruct (operator_plus_ok ta tb) as (result' & Hresult' & Hr');
    [done | done | congruence | congruence |].
  exists sum, ta, tb, result. split_and!; [done | done | done | done |].
  rewrite Hresult'. do 3 f_equal.
  rewrite HRs, HCs in Hr. rewrite HRta, HCta in Hr'.
  apply (has_elements_eq _ _ _ _ _ Hr').
  eapply has_elements_ext; [done |]. intros row column Hrow Hcolumn. simpl.
  by rewrite Hs, Hta', Htb' by done.
Qed.

Lemma transpose_plus_witness :
  (wf example_2x3 ∧ wf example_2x3) ∧
  ∃ sum ta tb result,
    invoke2 operator_plus example_2x3 example_2x3 = Ok (sum, example_2x3, example_2x3) ∧
    invoke transpose example_2x3 = Ok (ta, example_2x3) ∧
    invoke transpose example_2x3 = Ok (tb, example_2x3) ∧
    invoke transpose sum = Ok (result, sum) ∧
    invoke2 operator_plus ta tb = Ok (result, ta, tb).
Proof.
  assert (wf example_2x3) as Ha by example_wf.
  split; [exact (conj Ha Ha) |].
  exact (transpose_plus example_2x3 example_2x3 Ha Ha eq_refl eq_refl).
Defined.

(** X14.  Taking a minor commutes with transposition: the minor of the
    transpose at [(at_column, at_row)] is the transpose of the minor of [a]
    at [(at_row, at_column)]. *)
Theorem minor_transpose {platform : Platform} {T} `{Element T}
    (a : matrix T) (at_row at_column : nat) :
  wf a → 2 ≤ m_rows a → 2 ≤ m_columns a →
  at_row < m_rows a → at_column < m_columns a →
  ∃ ta sub result,
    invoke transpose a = Ok (ta, a) ∧
    invoke (minor at_row at_column) a = Ok (sub, a) ∧
    invoke transpose sub = Ok (result, sub) ∧
    invoke (minor at_column at_row) ta = Ok (result, ta).
Proof.
  intros Ha HR HC Hi Hj.
  destruct (transpose_ok a Ha) as (ta & Hta & Hta').
  apply has_elements_wf_elem in Hta' as (Hwfta & HRta & HCta & Hta'); [| lia..].
  destruct (minor_ok a at_row at_column Ha HR HC Hi Hj) as (sub & Hsub & Hsub').
  apply has_elements_wf_elem in Hsub' as (Hwfsub & HRsub & HCsub & Hsub'); [| lia..].
  destruct (transpose_ok sub Hwfsub) as (result & Hresult & Hr).
  destruct (minor_ok ta at_column at_row) as (result' & Hresult' & Hr');
    [done | lia | lia | lia | lia |].
  exists ta, sub, result. split_and!; [done | done | done |].
  rewrite Hresult'. do 2 f_equal.
  rewrite HRsub, HCsub in Hr. rewrite HRta, HCta in Hr'.
  apply (has_elements_eq _ _ _ _ _ Hr').
  eapply has_elements_ext; [done |]. intros row column Hrow Hcolumn. simpl.
  rewrite Hsub' by done. symmetry. apply Hta'; by apply skip_lt.
Qed.

Lemma minor_transpose_witness :
  (wf example_2x3 ∧ 2 ≤ m_rows example_2x3 ∧ 2 ≤ m_columns example_2x3 ∧
   1 < m_rows example_2x3 ∧ 2 < m_columns example_2x3) ∧
  ∃ ta sub result,
    invoke transpose example_2x3 = Ok (ta, example_2x3) ∧
    invoke (minor 1 2) example_2x3 = Ok (sub, example_2x3) ∧
    invoke transpose sub = Ok (result, sub) ∧
    invoke (minor 2 1) ta = Ok (result, ta).
Proof.
  assert (wf example_2x3) as Ha by example_wf.
  assert (2 ≤ m_rows example_2x3) as HR by (simpl; lia).
  assert (2 ≤ m_columns example_2x3) as HC by (simpl; lia).
  assert (1 < m_rows example_2x3) as Hi by (simpl; lia).
  assert (2 < m_columns example_2x3) as Hj by (simpl; lia).
  split; [exact (conj Ha (conj HR (conj HC (conj Hi Hj)))) |].
  exact (minor_transpose example_2x3 1 2 Ha HR HC Hi Hj).
Defined.

(** ** Sums over a semiring *)

#[export] Instance Z_ElementLaws : ElementLaws Z.
Proof. split; intros; simpl; ring. Qed.

Section Sums.
Context {platform : Platform} {T : Type} `{ElementLaws T}.

Lemma sum_to_S (f : nat → T) n : sum_to f (S n) = T_add (sum_to f n) (f n).
Proof. unfold sum_to. by rewrite seq_S, fold_left_app. Qed.

Lemma sum_to_ext (f g : nat → T) n :
  (∀ k, k < n → f k = g k) → sum_to f n = sum_to g n.
Proof.
  induction n as [|n IH]; intros Heq; [done |].
  rewrite !sum_to_S, IH, Heq by auto with lia. done.
Qed.

Lemma sum_to_default n : sum_to (λ _, T_default : T) n = T_default.
Proof.
  induction n as [|n IH]; [done |]. by rewrite sum_to_S, IH, T_add_default_r.
Qed.

Lemma T_add_shuffle (x y z w : T) :
  T_add (T_add x y) (T_add z w) = T_add (T_add x z) (T_add y w).
Proof.
  rewrite <- !T_add_assoc. f_equal.
  rewrite !T_add_assoc. f_equal. apply T_add_comm.
Qed.

Lemma sum_to_add (f g : nat → T) n :
  sum_to (λ k, T_add (f k) (g k)) n = T_add (sum_to f n) (sum_to g n).
Proof.
  induction n as [|n IH].
  - unfold sum_to. simpl. by rewrite T_add_default_r.
  - by rewrite !sum_to_S, IH, T_add_shuffle.
Qed.

Lemma sum_to_mul_l (z : T) (f : nat → T) n :
  T_mul z (sum_to f n) = sum_to (λ k, T_mul z (f k)) n.
Proof.
  induction n as [|n IH].
  - apply T_mul_default_r.
  - by rewrite !sum_to_S, T_mul_add_distr_l, IH.
Qed.

Lemma sum_to_mul_r (z : T) (f : nat → T) n :
  T_mul (sum_to f n) z = sum_to (λ k, T_mul (f k) z) n.
Proof.
  induction n as [|n IH].
  - apply T_mul_default_l.
  - by rewrite !sum_to_S, T_mul_add_distr_r, IH.
Qed.

Lemma sum_to_swap (g : nat → nat → T) n m :
  sum_to (λ j, sum_to (λ k, g j k) m) n = sum_to (λ k, sum_to (λ j, g j k) n) m.
Proof.
  induction n as [|n IH].
  - by rewrite sum_to_default.
  - rewrite sum_to_S, IH, <- sum_to_add. apply sum_to_ext.
    intros k _. by rewrite sum_to_S.
Qed.

Lemma dot_product_sum_to (a b : matrix T) row column n :
  dot_product a b row column n
  = sum_to (λ k, T_mul (elem a row k) (elem b k column)) n.
Proof. done. Qed.

End Sums.

(** X15.  Adding the zero-filled matrix of the same shape, as the
    constructor builds it by default, gives the matrix back, provided [T()]
    is a right identity of [+] on [T]. *)
Theorem operator_plus_default {platform : Platform} {T} `{Element T} (a : matrix T) :
  wf a → (∀ x : T, T_add x T_default = x) →
  ∃ zero, new_matrix (m_rows a) (m_columns a) T_default = Ok zero ∧
          invoke2 operator_plus a zero = Ok (a, a, zero).
Proof.
  intros Ha Hid. pose proof Ha as (HR & HC & _).
  exists (Matrix (m_rows a) (m_columns a)
                 (replicate (m_rows a * m_columns a) T_default)).
  pose proof (wf_fits a Ha) as Hfit.
  split; [by apply new_matrix_ok |].
  set (zero := Matrix _ _ _).
  pose proof (has_elements_new (m_rows a) (m_columns a) (T_default : T) Hfit) as Hzero.
  fold zero in Hzero.
  apply has_elements_wf_elem in Hzero as (Hwfz & HRz & HCz & Hzero); [| done..].
  destruct (operator_plus_ok a zero) as (r & Hinv & Hr); [done.. |].
  rewrite Hinv. do 3 f_equal.
  apply (has_elements_eq _ _ _ _ _ Hr).
  eapply has_elements_ext; [by apply wf_has_elements |].
  intros row column Hrow Hcolumn. simpl. by rewrite Hzero, Hid.
Qed.

Lemma operator_plus_default_witness :
  (wf example_2x3 ∧ ∀ x : Z, T_add x T_default = x) ∧
  ∃ zero, new_matrix 2 3 0%Z = Ok zero ∧
          invoke2 operator_plus example_2x3 zero = Ok (example_2x3, example_2x3, zero).
Proof.
  assert (wf example_2x3) as Ha by example_wf.
  assert (∀ x : Z, T_add x T_default = x) as Hid by (intros x; simpl; lia).
  split; [exact (conj Ha Hid) |].
  exact (operator_plus_default example_2x3 Ha Hid).
Defined.

(** X16.  When [*] is commutative on [T], the transpose of a product is the
    product of the transposes in the opposite order, for a product whose
    [a.rows * b.columns] elements a vector of the platform holds. *)
Theorem transpose_mul {platform : Platform} {T} `{Element T} (a b : matrix T) :
  wf a → wf b → m_columns a = m_rows b → fits (m_rows a * m_columns b) →
  (∀ x y : T, T_mul x y = T_mul y x) →
  ∃ product ta tb result,
    invoke2 operator_mul a b = Ok (product, a, b) ∧
    invoke transpose a = Ok (ta, a) ∧
    invoke transpose b = Ok (tb, b) ∧
    invoke transpose product = Ok (result, product) ∧
    invoke2 operator_mul tb ta = Ok (result, tb, ta).
Proof.
  intros Ha Hb HK Hfit Hcomm.
  pose proof Ha as (HRa & HCa & _). pose proof Hb as (HRb & HCb & _).
  destruct (operator_mul_ok a b Ha Hb HK Hfit) as (product & Hproduct & Hp).
  apply has_elements_wf_elem in Hp as (Hwfp & HRp & HCp & Hp); [| done..].
  destruct (transpose_ok a Ha) as (ta & Hta & Hta').
  apply has_elements_wf_elem in Hta' as (Hwfta & HRta & HCta & Hta'); [| done..].
  destruct (transpose_ok b Hb) as (tb & Htb & Htb').
  apply has_elements_wf_elem in Htb' as (Hwftb & HRtb & HCtb & Htb'); [| done..].
  destruct (transpose_ok product Hwfp) as (result & Hresult & Hr).
  destruct (operator_mul_ok tb ta) as (result' & Hresult' & Hr');
    [done | done | congruence | by rewrite HRtb, HCta, Nat.mul_comm |].
  exists product, ta, tb, result. split_and!; [done | done | done | done |].
  rewrite Hresult'. do 3 f_equal.
  rewrite HRp, HCp in Hr. rewrite HRtb, HCta, HCtb in Hr'.
  apply (has_elements_eq _ _ _ _ _ Hr').
  eapply has_elements_ext; [done |]. intros row column Hrow Hcolumn. simpl.
  rewrite Hp by done. rewrite <- HK.
  assert (∀ n, n ≤ m_columns a →
            dot_product a b column row n = dot_product tb ta row column n) as Hdot;
    [| by apply Hdot].
  induction n as [|n IH]; intros Hn; [done |].
  rewrite !dot_product_S, IH by lia.
  rewrite Htb', Hta' by lia. by rewrite Hcomm.
Qed.

Lemma transpose_mul_witness :
  (wf example_2x3 ∧ wf example_3x2 ∧ m_columns example_2x3 = m_rows example_3x2 ∧
   fits (m_rows example_2x3 * m_columns example_3x2) ∧
   ∀ x y : Z, T_mul x y = T_mul y x) ∧
  ∃ product ta tb result,
    invoke2 operator_mul example_2x3 example_3x2 = Ok (product, example_2x3, example_3x2) ∧
    invoke transpose example_2x3 = Ok (ta, example_2x3) ∧
    invoke transpose example_3x2 = Ok (tb, example_3x2) ∧
    invoke transpose product = Ok (result, product) ∧
    invoke2 operator_mul tb ta = Ok (result, tb, ta).
Proof.
  assert (wf example_2x3) as Ha by example_wf.
  assert (wf example_3x2) as Hb by example_wf.
  assert (m_columns example_2x3 = m_rows example_3x2) as HK by reflexivity.
  assert (fits (m_rows example_2x3 * m_columns example_3x2)) as Hfit
    by (unfold fits; simpl; lia).
  assert (∀ x y : Z, T_mul x y = T_mul y x) as Hcomm by (intros x y; simpl; lia).
  split; [exact (conj Ha (conj Hb (conj HK (conj Hfit Hcomm)))) |].
  exact (transpose_mul example_2x3 example_3x2 Ha Hb HK Hfit Hcomm).
Defined.

(** X17.  On a square matrix [column_vector(c)] returns column [c] as a
    matrix of shape [(rows, 1)]: the same matrix as transposing row [c] of
    the transpose. *)
Theorem column_vector_square {platform : Platform} {T} `{Element T}
    (a : matrix T) (column : nat) :
  wf a → m_rows a = m_columns a → column < m_columns a →
  ∃ ta row result,
    invoke transpose a = Ok (ta, a) ∧
    invoke (row_vector column) ta = Ok (row, ta) ∧
    invoke transpose row = Ok (result, row) ∧
    invoke (column_vector column) a = Ok (result, a) ∧
    m_rows result = m_rows a ∧ m_columns result = 1 ∧
    ∀ r, r < m_rows a →
      ∃ x, get_element a r column = Ok x ∧ get_element result r 0 = Ok x.
Proof.
  intros Ha Hsq Hcolumn. pose proof Ha as (HRa & HCa & _).
  destruct (transpose_ok a Ha) as (ta & Hta & Hta').
  apply has_elements_wf_elem in Hta' as (Hwfta & HRta & HCta & Hta'); [| done..].
  destruct (row_vector_ok ta column) as (row & Hrow & Hrow'); [done | lia |].
  rewrite HCta in Hrow'.
  apply has_elements_wf_elem in Hrow' as (Hwfrow & HRrow & HCrow & Hrow'); [| done..].
  destruct (transpose_ok row Hwfrow) as (result & Hresult & Hr).
  rewrite HRrow, HCrow in Hr.
  destruct (column_vector_ok a column) as (result' & Hresult' & Hr'); [done | done | lia |].
  assert (result' = result) as ->.
  { rewrite <- Hsq in Hr'. apply (has_elements_eq _ _ _ _ _ Hr').
    eapply has_elements_ext; [done |]. intros r c Hr0 Hc. simpl.
    assert (c = 0) as -> by lia. rewrite decide_True by lia.
    rewrite Hrow', Hta' by lia. done. }
  exists ta, row, result. split_and!; [done | done | done | done | | |].
  - destruct Hr' as (-> & _). done.
  - apply Hr'.
  - intros r Hr0. exists (elem a r column).
    split; [apply get_element_elem; [done | done | done] |].
    rewrite (has_elements_get _ _ _ _ r 0 Hr) by lia.
    rewrite Hrow', Hta' by lia. done.
Qed.

Lemma column_vector_square_witness :
  (wf example_2x2 ∧ m_rows example_2x2 = m_columns example_2x2 ∧
   1 < m_columns example_2x2) ∧
  ∃ result, invoke (column_vector 1) example_2x2 = Ok (result, example_2x2) ∧
            m_rows result = 2 ∧ m_columns result = 1.
Proof.
  assert (wf example_2x2) as Ha by example_wf.
  assert (m_rows example_2x2 = m_columns example_2x2) as Hsq by reflexivity.
  assert (1 < m_columns example_2x2) as Hcolumn by (simpl; lia).
  split; [exact (conj Ha (conj Hsq Hcolumn)) |].
  destruct (column_vector_square example_2x2 1 Ha Hsq Hcolumn)
    as (ta & row & result & _ & _ & _ & Hinv & HR & HC & _).
  exists result. split; [exact Hinv |]. split; [exact HR | exact HC].
Defined.

(** X18.  Over a semiring of elements the matrix product is associative:
    [(a * b) * c] and [a * (b * c)] are the same matrix, when a vector of
    the platform holds the elements of each of the products [a * b],
    [b * c] and [a * b * c]. *)
Theorem operator_mul_assoc {platform : Platform} {T} `{ElementLaws T}
    (a b c : matrix T) :
  wf a → wf b → wf c →
  m_columns a = m_rows b → m_columns b = m_rows c →
  fits (m_rows a * m_columns b) → fits (m_rows b * m_columns c) →
  fits (m_rows a * m_columns c) →
  ∃ ab bc result,
    invoke2 operator_mul a b = Ok (ab, a, b) ∧
    invoke2 operator_mul b c = Ok (bc, b, c) ∧
    invoke2 operator_mul ab c = Ok (result, ab, c) ∧
    invoke2 operator_mul a bc = Ok (result, a, bc).
Proof.
  intros Ha Hb Hc HK HL Hfab Hfbc Hfabc.
  pose proof Ha as (HRa & HCa & _). pose proof Hb as (HRb & HCb & _).
  pose proof Hc as (HRc & HCc & _).
  destruct (operator_mul_ok a b Ha Hb HK Hfab) as (ab & Hab & Hab').
  apply has_elements_wf_elem in Hab' as (Hwfab & HRab & HCab & Hab'); [| done..].
  destruct (operator_mul_ok b c Hb Hc HL Hfbc) as (bc & Hbc & Hbc').
  apply has_elements_wf_elem in Hbc' as (Hwfbc & HRbc & HCbc & Hbc'); [| done..].
  destruct (operator_mul_ok ab c) as (result & Hresult & Hr);
    [done | done | congruence | by rewrite HRab |].
  destruct (operator_mul_ok a bc) as (result' & Hresult' & Hr');
    [done | done | congruence | by rewrite HCbc |].
  exists ab, bc, result. split_and!; [done | done | done |].
  rewrite Hresult'. do 3 f_equal.
  rewrite HRab, HCab in Hr. rewrite HCbc in Hr'.
  apply (has_elements_eq _ _ _ _ _ Hr').
  eapply has_elements_ext; [done |]. intros row column Hrow Hcolumn. simpl.
  rewrite !dot_product_sum_to.
  rewrite (sum_to_ext _ (λ l, sum_to (λ k, T_mul (T_mul (elem a row k) (elem b k l))
                                                 (elem c l column))
                                     (m_columns a))).
  2:{ intros l Hl. rewrite Hab' by done.
      by rewrite dot_product_sum_to, sum_to_mul_r. }
  rewrite sum_to_swap. apply sum_to_ext. intros k Hk.
  rewrite Hbc' by lia. rewrite dot_product_sum_to, sum_to_mul_l.
  apply sum_to_ext. intros l Hl. by rewrite T_mul_assoc.
Qed.

Lemma operator_mul_assoc_witness :
  (wf example_2x3 ∧ wf example_3x2 ∧ wf example_2x2 ∧
   m_columns example_2x3 = m_rows example_3x2 ∧
   m_columns example_3x2 = m_rows example_2x2 ∧
   fits (m_rows example_2x3 * m_columns example_3x2) ∧
   fits (m_rows example_3x2 * m_columns example_2x2) ∧
   fits (m_rows example_2x3 * m_columns example_2x2)) ∧
  ∃ ab bc result,
    invoke2 operator_mul example_2x3 example_3x2 = Ok (ab, example_2x3, example_3x2) ∧
    invoke2 operator_mul example_3x2 example_2x2 = Ok (bc, example_3x2, example_2x2) ∧
    invoke2 operator_mul ab example_2x2 = Ok (result, ab, example_2x2) ∧
    invoke2 operator_mul example_2x3 bc = Ok (result, example_2x3, bc).
Proof.
  assert (wf example_2x3) as Ha by example_wf.
  assert (wf example_3x2) as Hb by example_wf.
  assert (wf example_2x2) as Hc by example_wf.
  assert (m_columns example_2x3 = m_rows example_3x2) as HK by reflexivity.
  assert (m_columns example_3x2 = m_rows example_2x2) as HL by reflexivity.
  assert (fits (m_rows example_2x3 * m_columns example_3x2)) as Hfab
    by (unfold fits; simpl; lia).
  assert (fits (m_rows example_3x2 * m_columns example_2x2)) as Hfbc
    by (unfold fits; simpl; lia).
  assert (fits (m_rows example_2x3 * m_columns example_2x2)) as Hfabc
    by (unfold fits; simpl; lia).
  split;
    [exact (conj Ha (conj Hb (conj Hc (conj HK (conj HL (conj Hfab (conj Hfbc Hfabc))))))) |].
  exact (operator_mul_assoc example_2x3 example_3x2 example_2x2
           Ha Hb Hc HK HL Hfab Hfbc Hfabc).
Defined.

(** X19.  The product of a matrix with its own transpose, when a vector of
    the platform holds its [rows * rows] elements, is defined and square,
    of shape [(rows, rows)]; when [*] is commutative on [T] it is
    symmetric: transposing it changes nothing. *)
Theorem operator_mul_transpose {platform : Platform} {T} `{Element T} (a : matrix T) :
  wf a → fits (m_rows a * m_rows a) →
  ∃ ta gram,
    invoke transpose a = Ok (ta, a) ∧
    invoke2 operator_mul a ta = Ok (gram, a, ta) ∧
    m_rows gram = m_rows a ∧ m_columns gram = m_rows a ∧
    ((∀ x y : T, T_mul x y = T_mul y x) →
     invoke transpose gram = Ok (gram, gram)).
Proof.
  intros Ha Hfit. pose proof Ha as (HRa & HCa & _).
  destruct (transpose_ok a Ha) as (ta & Hta & Hta').
  apply has_elements_wf_elem in Hta' as (Hwfta & HRta & HCta & Hta'); [| done..].
  destruct (operator_mul_ok a ta) as (gram & Hgram & Hg);
    [done | done | congruence | by rewrite HCta |].
  rewrite HCta in Hg. pose proof Hg as Hg0.
  apply has_elements_wf_elem in Hg as (Hwfg & HRg & HCg & Hg); [| done..].
  exists ta, gram. split_and!; [done | done | done | done |].
  intros Hcomm. destruct (transpose_ok gram Hwfg) as (tg & Htg & Htg').
  rewrite Htg. do 2 f_equal. rewrite HRg, HCg in Htg'.
  apply (has_elements_eq _ _ _ _ _ Htg').
  eapply has_elements_ext; [done |]. intros row column Hrow Hcolumn. simpl.
  rewrite Hg by done.
  assert (∀ n, n ≤ m_columns a →
            dot_product a ta row column n = dot_product a ta column row n) as Hdot;
    [| by apply Hdot].
  induction n as [|n IH]; intros Hn; [done |].
  rewrite !dot_product_S, IH by lia.
  rewrite !Hta' by lia. by rewrite Hcomm.
Qed.

Lemma operator_mul_transpose_witness :
  (wf example_2x3 ∧ fits (m_rows example_2x3 * m_rows example_2x3)) ∧
  ∃ ta gram,
    invoke transpose example_2x3 = Ok (ta, example_2x3) ∧
    invoke2 operator_mul example_2x3 ta = Ok (gram, example_2x3, ta) ∧
    m_rows gram = 2 ∧ m_columns gram = 2.
Proof.
  assert (wf example_2x3) as Ha by example_wf.
  assert (fits (m_rows example_2x3 * m_rows example_2x3)) as Hfit
    by (unfold fits; simpl; lia).
  split; [exact (conj Ha Hfit) |].
  destruct (operator_mul_transpose example_2x3 Ha Hfit)
    as (ta & gram & Hta & Hgram & HR & HC & _).
  exists ta, gram. split; [exact Hta |]. split; [exact Hgram |].
  split; [exact HR | exact HC].
Defined.

(** X20.  The determinant of a 3 by 3 matrix, written out: the three
    cofactors along the first column, each the 2 by 2 determinant of the
    minor, enter the total from [T()] with the signs [+], [-], [+]
    (evaluated on the 64-bit platform [lp64] of the examples). *)
Theorem determinant_3x3 {T} `{Element T} (a00 a01 a02 a10 a11 a12 a20 a21 a22 : T) :
  invoke determinant (Matrix 3 3 [a00; a01; a02; a10; a11; a12; a20; a21; a22])
  = Ok (T_add
          (T_sub
             (T_add T_default
                    (T_mul a00 (T_sub (T_mul a11 a22) (T_mul a21 a12))))
             (T_mul a10 (T_sub (T_mul a01 a22) (T_mul a21 a02))))
          (T_mul a20 (T_sub (T_mul a01 a12) (T_mul a11 a02))),
        Matrix 3 3 [a00; a01; a02; a10; a11; a12; a20; a21; a22]).
Proof. by vm_compute. Qed.

(** X21.  Over a semiring of elements the matrix product distributes over
    addition: [a * (b + c)] is [a * b + a * c], when a vector of the
    platform holds the [a.rows * b.columns] elements of the products. *)
Theorem operator_mul_plus_distr {platform : Platform} {T} `{ElementLaws T}
    (a b c : matrix T) :
  wf a → wf b → wf c →
  m_columns a = m_rows b → m_rows b = m_rows c → m_columns b = m_columns c →
  fits (m_rows a * m_columns b) →
  ∃ sum ab ac result,
    invoke2 operator_plus b c = Ok (sum, b, c) ∧
    invoke2 operator_mul a b = Ok (ab, a, b) ∧
    invoke2 operator_mul a c = Ok (ac, a, c) ∧
    invoke2 operator_mul a sum = Ok (result, a, sum) ∧
    invoke2 operator_plus ab ac = Ok (result, ab, ac).
Proof.
  intros Ha Hb Hc HK HR HC Hfit.
  pose proof Ha as (HRa & HCa & _). pose proof Hb as (HRb & HCb & _).
  destruct (operator_plus_ok b c Hb Hc HR HC) as (sum & Hsum & Hs).
  apply has_elements_wf_elem in Hs as (Hwfs & HRs & HCs & Hs); [| done..].
  destruct (operator_mul_ok a b Ha Hb HK Hfit) as (ab & Hab & Hab').
  apply has_elements_wf_elem in Hab' as (Hwfab & HRab & HCab & Hab'); [| done..].
  destruct (operator_mul_ok a c Ha Hc) as (ac & Hac & Hac');
    [congruence | by rewrite <- HC |].
  rewrite <- HC in Hac'.
  apply has_elements_wf_elem in Hac' as (Hwfac & HRac & HCac & Hac'); [| done..].
  destruct (operator_mul_ok a sum) as (result & Hresult & Hr);
    [done | done | congruence | by rewrite HCs |].
  destruct (operator_plus_ok ab ac) as (result' & Hresult' & Hr');
    [done | done | congruence | congruence |].
  exists sum, ab, ac, result. split_and!; [done | done | done | done |].
  rewrite Hresult'. do 3 f_equal.
  rewrite HCs in Hr. rewrite HRab, HCab in Hr'.
  apply (has_elements_eq _ _ _ _ _ Hr').
  eapply has_elements_ext; [done |]. intros row column Hrow Hcolumn. simpl.
  rewrite Hab', Hac' by done. rewrite !dot_product_sum_to, <- sum_to_add.
  apply sum_to_ext. intros k Hk.
  rewrite Hs by lia. apply T_mul_add_distr_l.
Qed.

Lemma operator_mul_plus_distr_witness :
  (wf example_2x3 ∧ wf example_3x2 ∧ wf example_3x2 ∧
   m_columns example_2x3 = m_rows example_3x2 ∧
   fits (m_rows example_2x3 * m_columns example_3x2)) ∧
  ∃ sum ab ac result,
    invoke2 operator_plus example_3x2 example_3x2 = Ok (sum, example_3x2, example_3x2) ∧
    invoke2 operator_mul example_2x3 example_3x2 = Ok (ab, example_2x3, example_3x2) ∧
    invoke2 operator_mul example_2x3 example_3x2 = Ok (ac, example_2x3, example_3x2) ∧
    invoke2 operator_mul example_2x3 sum = Ok (result, example_2x3, sum) ∧
    invoke2 operator_plus ab ac = Ok (result, ab, ac).
Proof.
  assert (wf example_2x3) as Ha by example_wf.
  assert (wf example_3x2) as Hb by example_wf.
  assert (m_columns example_2x3 = m_rows example_3x2) as HK by reflexivity.
  assert (fits (m_rows example_2x3 * m_columns example_3x2)) as Hfit
    by (unfold fits; simpl; lia).
  split; [exact (conj Ha (conj Hb (conj Hb (conj HK Hfit)))) |].
  exact (operator_mul_plus_distr example_2x3 example_3x2 example_3x2
           Ha Hb Hb HK eq_refl eq_refl Hfit).
Defined.
